(** * ts-pymfe: phase-space reconstruction helpers of [_utils.py]

    A shallow embedding of [standardize_ts], [nn], [embed_dim_fnn] and
    [embed_dim_cao] of [src/ts/_utils.py], and of [ft_emb_dim_cao] of
    [src/ts/general.py], together with the numpy / scipy / sklearn primitives
    they call.

    The second part embeds the other array helpers of [_utils.py], the
    simple descriptors of [general.py] and the naive forecasters of
    [src/ts/_models.py].

    Numbers.  The arrays of the program hold IEEE doubles.  Here a finite
    double is an exact real number (type [R]), and the statements are those
    that do not depend on how an operation is rounded.  Three kinds of
    places do depend on it and are modelled as such: a product whose
    ceiling is taken is rounded first ([rounding]), the indices of the
    seasonal forecaster are [int64] values that wrap around ([wrap64]), and
    the standardization is run once more in binary64 arithmetic (module
    [F64]).  The special values that the program produces on purpose
    ([np.inf] in the masked distance matrix, [np.nan] in the profiles) are
    kept: type [num]. *)

From Stdlib Require Import Reals Lra Lia List ZArith Bool Psatz.
From Stdlib Require String.
From Stdlib Require PrimFloat.
Import ListNotations.

Open Scope R_scope.

(** ** Python exceptions *)

Inductive exn : Type :=
| ValueError
| NameError
| IndexError.

Inductive result (A : Type) : Type :=
| Ok (a : A)
| Raise (e : exn).

Arguments Ok {A} a.
Arguments Raise {A} e.

Definition bind {A B : Type} (m : result A) (k : A -> result B) : result B :=
  match m with
  | Ok a => k a
  | Raise e => Raise e
  end.

Notation "x <- m ;; k" := (bind m (fun x => k))
  (at level 61, m at next level, right associativity).

(** ** numpy primitives *)

Module Np.

(** Comparisons of reals as booleans. *)
Definition Rltb (x y : R) : bool := if Rlt_dec x y then true else false.
Definition Rleb (x y : R) : bool := if Rle_dec x y then true else false.
Definition Reqb (x y : R) : bool := if Req_dec_T x y then true else false.

(** A double: a finite value, an infinity or NaN. *)
Inductive num : Type :=
| Fin (r : R)
| PInf
| NInf
| NaN.


Definition nadd (a b : num) : num :=
  match a, b with
  | NaN, _ | _, NaN => NaN
  | PInf, NInf | NInf, PInf => NaN
  | PInf, _ | _, PInf => PInf
  | NInf, _ | _, NInf => NInf
  | Fin x, Fin y => Fin (x + y)
  end.


(** The sign of an infinity times (or over) a finite factor; zero times
    infinity is NaN. *)
Definition inf_scaled (pos : bool) (y : R) : num :=
  if Reqb y 0 then NaN
  else if xorb pos (Rltb 0 y) then NInf else PInf.

Definition nmul (a b : num) : num :=
  match a, b with
  | NaN, _ | _, NaN => NaN
  | Fin x, Fin y => Fin (x * y)
  | PInf, Fin y | Fin y, PInf => inf_scaled true y
  | NInf, Fin y | Fin y, NInf => inf_scaled false y
  | PInf, PInf | NInf, NInf => PInf
  | PInf, NInf | NInf, PInf => NInf
  end.

(** Division as numpy does it on arrays: no exception, x/0 is an infinity of
    the sign of x, 0/0 and inf/inf are NaN.  (Zero has no sign here.) *)
Definition ndiv (a b : num) : num :=
  match a, b with
  | NaN, _ | _, NaN => NaN
  | Fin x, Fin y =>
      if Reqb y 0
      then (if Reqb x 0 then NaN else if Rltb 0 x then PInf else NInf)
      else Fin (x / y)
  | Fin _, (PInf | NInf) => Fin 0
  | PInf, Fin y => if Rltb y 0 then NInf else PInf
  | NInf, Fin y => if Rltb y 0 then PInf else NInf
  | (PInf | NInf), (PInf | NInf) => NaN
  end.


(** [a < b]; every comparison with NaN is false. *)
Definition nlt (a b : num) : bool :=
  match a, b with
  | NaN, _ | _, NaN => false
  | Fin x, Fin y => Rltb x y
  | NInf, (Fin _ | PInf) => true
  | Fin _, PInf => true
  | _, _ => false
  end.

Definition ngt (a b : num) : bool := nlt b a.

Definition nle (a b : num) : bool :=
  match a, b with
  | NaN, _ | _, NaN => false
  | Fin x, Fin y => Rleb x y
  | NInf, _ => true
  | _, PInf => true
  | _, _ => false
  end.

(** [np.maximum]: NaN wins. *)
Definition maximum (a b : num) : num :=
  match a, b with
  | NaN, _ | _, NaN => NaN
  | _, _ => if nlt a b then b else a
  end.

(** [np.isclose(a, 0.0)] with the default [rtol = 1e-05], [atol = 1e-08]:
    [|a - 0| <= atol + rtol * |0|] for a finite [a]; an infinity or NaN is
    never close to zero. *)
Definition isclose_atol : R := 1 / 100000000.

Definition isclose0 (a : num) : bool :=
  match a with
  | Fin x => Rleb (Rabs (x - 0)) isclose_atol
  | _ => false
  end.

Definition Rsum (l : list R) : R := fold_right Rplus 0 l.

Definition nsum (l : list num) : num := fold_right nadd (Fin 0) l.

(** [np.mean] of a 1-D array of finite values; NaN on the empty array. *)
Definition Rmean (l : list R) : num :=
  match l with
  | [] => NaN
  | _ => Fin (Rsum l / INR (length l))
  end.

(** [np.mean] of a 1-D array of doubles. *)
Definition mean (l : list num) : num :=
  match l with
  | [] => NaN
  | _ => ndiv (nsum l) (Fin (INR (length l)))
  end.

(** [np.mean] of a boolean array: [True] counts as 1, [False] as 0. *)
Definition mean_bool (l : list bool) : num :=
  Rmean (map (fun b : bool => if b then 1 else 0) l).

(** Population variance and [np.std] (ddof = 0). *)
Definition Rvar (l : list R) : R :=
  let m := Rsum l / INR (length l) in
  Rsum (map (fun x => (x - m) * (x - m)) l) / INR (length l).

Definition std (l : list R) : num :=
  match l with
  | [] => NaN
  | _ => Fin (sqrt (Rvar l))
  end.

(** [np.argmin] of a non-empty 1-D array without NaN: the first index of the
    minimum.  [argmin_from i best bv l] scans [l], whose first element has
    index [i], holding the best index and value so far. *)
Fixpoint argmin_from (i best : nat) (bv : num) (l : list num) : nat :=
  match l with
  | [] => best
  | v :: tl =>
      if nlt v bv then argmin_from (S i) i v tl
      else argmin_from (S i) best bv tl
  end.

Definition argmin (l : list num) : nat :=
  match l with
  | [] => 0%nat
  | v :: tl => argmin_from 1 0 v tl
  end.




(** [np.arange(1, n + 1)] for an integer [n]. *)
Definition arange1 (n : Z) : list Z :=
  map (fun k => Z.of_nat (S k)) (seq 0 (Z.to_nat n)).

(** [a[i:] = v] on a 1-D array. *)
Definition fill_from {A : Type} (i : nat) (v : A) (a : list A) : list A :=
  firstn i a ++ repeat v (length a - i).

(** [a[i] = v] on a 1-D array, for an index in range. *)
Fixpoint set_item {A : Type} (i : nat) (v : A) (a : list A) : list A :=
  match a, i with
  | [], _ => []
  | _ :: tl, O => v :: tl
  | x :: tl, S j => x :: set_item j v tl
  end.

End Np.

(** ** scipy.spatial.distance *)

Module Scipy.

(** The Chebyshev distance [max_k |u_k - v_k|]. *)
Definition chebyshev (u v : list R) : R :=
  fold_right Rmax 0 (map (fun p => Rabs (fst p - snd p)) (combine u v)).

(** [cdist(XA, XB, metric)]: the matrix of the distances of every row of
    [XA] to every row of [XB]. *)
Definition cdist (metric : list R -> list R -> R)
    (XA XB : list (list R)) : list (list R) :=
  map (fun u => map (fun v => metric u v) XB) XA.

End Scipy.

(** ** sklearn.preprocessing *)

Module Sklearn.

(** A scale of zero (a constant feature) is replaced by one. *)
Definition handle_zeros_in_scale (scale : R) : R :=
  if Np.Reqb scale 0 then 1 else scale.

(** [StandardScaler().fit_transform(X)] on a single column: every value
    minus the column mean, over the column's population standard deviation.
    An array with no sample is refused with [ValueError]. *)
Definition fit_transform (X : list R) : result (list R) :=
  match X with
  | [] => Raise ValueError
  | _ =>
      let mean_ := Np.Rsum X / INR (length X) in
      let scale_ := handle_zeros_in_scale (sqrt (Np.Rvar X)) in
      Ok (map (fun x => (x - mean_) / scale_) X)
  end.

End Sklearn.

(** ** The embedder, [_embed.embed_ts] *)

Module Embed.

(** Modelled from the spec: [_embed.embed_ts] is called by [_utils.py] but
    its module is not part of the sources.  Sections 3 and 4.2 of the
    specification: an embedding of dimension [m >= 1] and lag [tau] of a
    sequence of length [N] has [N - (m-1)*tau] rows, row [i] is
    [(x_i, x_{i+tau}, ..., x_{i+(m-1)*tau})], and the construction fails when
    [N - (m-1)*tau < 1].  The failure is the [ValueError] that the callers
    catch. *)
Definition embed_ts (ts : list R) (lag dim : Z) : result (list (list R)) :=
  let rows := (Z.of_nat (length ts) - (dim - 1) * lag)%Z in
  if (dim <? 1)%Z || (rows <? 1)%Z then Raise ValueError
  else
    Ok (map (fun i =>
               map (fun j => nth (i + j * Z.to_nat lag) ts 0)
                   (seq 0 (Z.to_nat dim)))
            (seq 0 (Z.to_nat rows))).

End Embed.

(** ** [_utils.py] *)

Module Utils.

Import Np.

(** [standardize_ts(ts, ts_scaled=None)].  The input is a 1-D array. *)
Definition standardize_ts (ts : list R) (ts_scaled : option (list R))
  : result (list R) :=
  match ts_scaled with
  | None => Sklearn.fit_transform ts
  | Some _ => Ok ts
  end.

(** [dist_mat[np.isclose(dist_mat, 0.0)] = np.inf], one entry. *)
Definition mask_close (d : R) : num :=
  if isclose0 (Fin d) then PInf else Fin d.

(** The distance matrix of [nn] after the masking. *)
Definition nn_dist_mat (metric : list R -> list R -> R)
    (embed : list (list R)) : list (list num) :=
  map (map mask_close) (Scipy.cdist metric embed embed).

(** [nn(embed, metric)]: the index of the nearest neighbour of every row and
    [dist_mat[nn_inds, np.arange(nn_inds.size)]].  [np.argmin] over an axis
    of length zero raises [ValueError]. *)
Definition nn (metric : list R -> list R -> R) (embed : list (list R))
  : result (list nat * list num) :=
  let dist_mat := nn_dist_mat metric embed in
  match embed with
  | [] => Raise ValueError
  | _ =>
      let nn_inds := map argmin dist_mat in
      Ok (nn_inds,
          map (fun ji => nth (snd ji) (nth (fst ji) dist_mat []) NaN)
              (combine nn_inds (seq 0 (length nn_inds))))
  end.

(** The [dims] argument: an integer or a sequence of integers. *)
Inductive dims_arg : Type :=
| DimsScalar (n : Z)
| DimsSeq (l : list Z).

(** [if np.isscalar(dims): dims = np.arange(1, dims + 1)] *)
Definition resolve_dims (dims : dims_arg) : list Z :=
  match dims with
  | DimsScalar n => arange1 n
  | DimsSeq l => l
  end.

(** [emb_next[:, 1:]] and [emb_next[:, 0]]. *)
Definition drop_col0 (emb : list (list R)) : list (list R) := map (@tl R) emb.
Definition col0 (emb : list (list R)) : list R := map (fun r => hd 0 r) emb.

(** [np.abs(emb_next[:, 0] - emb_next[nn_inds, 0])] *)
Definition abs_diff_col0 (emb_next : list (list R)) (nn_inds : list nat)
  : list R :=
  map (fun xj => Rabs (fst xj - nth (snd xj) (col0 emb_next) 0))
      (combine (col0 emb_next) nn_inds).

(** [np.maximum(dist_cur, emb_next_abs_diff)] *)
Definition dist_next_of (dist_cur : list num) (abs_diff : list R) : list num :=
  map (fun da => maximum (fst da) (Fin (snd da))) (combine dist_cur abs_diff).

(** The two criteria of a false neighbour, for one point. *)
Definition crit_1 (rtol : R) (dist_cur : num) (abs_diff : R) : bool :=
  ngt (Fin abs_diff) (nmul (Fin rtol) dist_cur).

Definition crit_2 (atol : R) (ts_std : num) (dist_next : num) : bool :=
  ngt dist_next (nmul (Fin atol) ts_std).

(** The value stored in [fnn_prop[ind]] for one embedding. *)
Definition fnn_rate (rtol atol : R) (ts_std : num)
    (emb_next : list (list R)) (nn_inds : list nat) (dist_cur : list num)
  : num :=
  let emb_next_abs_diff := abs_diff_col0 emb_next nn_inds in
  let dist_next := dist_next_of dist_cur emb_next_abs_diff in
  let c1 := map (fun da => crit_1 rtol (fst da) (snd da))
                (combine dist_cur emb_next_abs_diff) in
  let c2 := map (crit_2 atol ts_std) dist_next in
  mean_bool (map (fun p => orb (fst p) (snd p)) (combine c1 c2)).

(** The [for ind, dim in enumerate(dims)] loop of [embed_dim_fnn].  The
    handler of [ValueError] assigns to [ed] and [ed_star], names that are
    bound neither in the function nor in the module: evaluating [ed] raises
    [NameError], which leaves the function. *)
Fixpoint fnn_loop (ts_scaled : list R) (lag : Z) (rtol atol : R)
    (ts_std : num) (ind : nat) (dims : list Z) (fnn_prop : list num)
  : result (list num) :=
  match dims with
  | [] => Ok fnn_prop
  | dim :: rest =>
      match Embed.embed_ts ts_scaled lag (dim + 1) with
      | Raise ValueError => Raise NameError
      | Raise e => Raise e
      | Ok emb_next =>
          let emb_cur := drop_col0 emb_next in
          r <- nn Scipy.chebyshev emb_cur ;;
          let v := fnn_rate rtol atol ts_std emb_next (fst r) (snd r) in
          fnn_loop ts_scaled lag rtol atol ts_std (S ind) rest
                   (set_item ind v fnn_prop)
      end
  end.

Definition default_rtol : R := 10.
Definition default_atol : R := 2.
Definition default_dims : dims_arg := DimsScalar 16.

(** [embed_dim_fnn(ts, lag, dims=16, rtol=10, atol=2, ts_scaled=None)] *)
Definition embed_dim_fnn (ts : list R) (lag : Z) (dims : dims_arg)
    (rtol atol : R) (ts_scaled : option (list R)) : result (list num) :=
  if (lag <=? 0)%Z then Raise ValueError
  else
    let dims := resolve_dims dims in
    ts_scaled <- standardize_ts ts ts_scaled ;;
    let fnn_prop := repeat (Fin 0) (length dims) in
    let ts_std := std ts in
    fnn_loop ts_scaled lag rtol atol ts_std 0 dims fnn_prop.

(** The values stored in [ed[ind]] and [ed_star[ind]] for one embedding. *)
Definition cao_ed (emb_next : list (list R)) (nn_inds : list nat)
    (dist_cur : list num) : num :=
  let emb_next_abs_diff := abs_diff_col0 emb_next nn_inds in
  let dist_next := dist_next_of dist_cur emb_next_abs_diff in
  mean (map (fun nc => ndiv (fst nc) (snd nc)) (combine dist_next dist_cur)).

Definition cao_ed_star (emb_next : list (list R)) (nn_inds : list nat) : num :=
  Rmean (abs_diff_col0 emb_next nn_inds).

(** The loop of [embed_dim_cao]; here [ed] and [ed_star] are the local
    arrays, and the handler fills them with NaN from [ind] on and breaks. *)
Fixpoint cao_loop (ts_scaled : list R) (lag : Z) (ind : nat) (dims : list Z)
    (ed ed_star : list num) : result (list num * list num) :=
  match dims with
  | [] => Ok (ed, ed_star)
  | dim :: rest =>
      match Embed.embed_ts ts_scaled lag (dim + 1) with
      | Raise ValueError => Ok (fill_from ind NaN ed, fill_from ind NaN ed_star)
      | Raise e => Raise e
      | Ok emb_next =>
          let emb_cur := drop_col0 emb_next in
          r <- nn Scipy.chebyshev emb_cur ;;
          cao_loop ts_scaled lag (S ind) rest
                   (set_item ind (cao_ed emb_next (fst r) (snd r)) ed)
                   (set_item ind (cao_ed_star emb_next (fst r)) ed_star)
      end
  end.

(** [a[1:] / a[:-1]] *)
Definition ratio_next (a : list num) : list num :=
  map (fun p => ndiv (fst p) (snd p)) (combine (tl a) (removelast a)).

(** [embed_dim_cao(ts, lag, dims=16, ts_scaled=None)]: the pair [(e1, e2)]. *)
Definition embed_dim_cao (ts : list R) (lag : Z) (dims : dims_arg)
    (ts_scaled : option (list R)) : result (list num * list num) :=
  if (lag <=? 0)%Z then Raise ValueError
  else
    let dims := resolve_dims dims in
    ts_scaled <- standardize_ts ts ts_scaled ;;
    let zeros := repeat (Fin 0) (length dims) in
    p <- cao_loop ts_scaled lag 0 dims zeros zeros ;;
    let e1 := ratio_next (fst p) in
    let e2 := ratio_next (snd p) in
    Ok (e1, e2).

End Utils.

(** ** The standardization in IEEE double arithmetic *)

Module F64.

Import PrimFloat.

(** [np.sum] of a short 1-D array: the elements are added from left to
    right (numpy adds pairwise only from 8 elements on). *)
Definition sum (l : list float) : float := fold_left add l 0%float.

(** The number of elements, as a double. *)
Definition size (l : list float) : float :=
  fold_left (fun n _ => add n 1%float) l 0%float.

Definition mean (l : list float) : float := div (sum l) (size l).

(** Population variance: the mean of the squared deviations. *)
Definition var (l : list float) : float :=
  let m := mean l in
  div (sum (map (fun x => mul (sub x m) (sub x m)) l)) (size l).

Definition handle_zeros_in_scale (scale : float) : float :=
  if eqb scale 0%float then 1%float else scale.

(** [StandardScaler().fit_transform(X)] on a single column, as
    [Sklearn.fit_transform], every operation rounded to the nearest
    double. *)
Definition fit_transform (X : list float) : result (list float) :=
  match X with
  | [] => Raise ValueError
  | _ =>
      let mean_ := mean X in
      let scale_ := handle_zeros_in_scale (sqrt (var X)) in
      Ok (map (fun x => div (sub x mean_) scale_) X)
  end.

(** [standardize_ts(ts, ts_scaled)] *)
Definition standardize_ts (ts : list float) (ts_scaled : option (list float))
  : result (list float) :=
  match ts_scaled with
  | None => fit_transform ts
  | Some _ => Ok ts
  end.





End F64.

(** ** [general.py] *)

Module General.

Import Np.

Section FtEmbDimCao.

(** [_embed.embed_lag] is not part of the sources: it is a parameter, as
    are the types of the lag specification and of the arrays it consumes. *)
Variable lag_spec : Type.
Variable embed_lag :
  list R -> option lag_spec -> option (list R) -> option (list R) ->
  option Z -> result Z.




End FtEmbDimCao.

End General.

(** ** The functions of [_utils.py] on a store of arrays

    The same four functions once more, with the arrays in a store: a
    variable of the program holds a reference to an array object, a slice or
    a reshape is a view on the buffer of its base, and an item assignment
    writes into the buffer.  The numerical content of every step is that of
    the functions above. *)

Module St.

Import Np.

(** The buffers: 1-D and 2-D arrays of finite doubles, 1-D and 2-D arrays
    that may hold [inf] and [nan], and 1-D integer arrays. *)
Inductive ndarray : Type :=
| ArrR (a : list R)
| MatR (a : list (list R))
| ArrN (a : list num)
| MatN (a : list (list num))
| ArrI (a : list nat).

Definition heap : Type := list ndarray.

(** An array object: the location of its buffer and what it shows of it. *)
Record aref : Type := mk_aref { base : nat; look : ndarray -> ndarray }.

Definition whole (l : nat) : aref := mk_aref l (fun a => a).

Definition view (f : ndarray -> ndarray) (r : aref) : aref :=
  mk_aref (base r) (fun a => f (look r a)).

Definition as_ArrR (a : ndarray) : list R :=
  match a with ArrR l => l | _ => [] end.
Definition as_MatR (a : ndarray) : list (list R) :=
  match a with MatR l => l | _ => [] end.
Definition as_ArrN (a : ndarray) : list num :=
  match a with ArrN l => l | _ => [] end.
Definition as_MatN (a : ndarray) : list (list num) :=
  match a with MatN l => l | _ => [] end.
Definition as_ArrI (a : ndarray) : list nat :=
  match a with ArrI l => l | _ => [] end.

(** Computations on the store, which may raise. *)
Definition M (A : Type) : Type := heap -> result A * heap.

Definition ret {A : Type} (a : A) : M A := fun h => (Ok a, h).

Definition raise {A : Type} (e : exn) : M A := fun h => (Raise e, h).

Definition lift {A : Type} (x : result A) : M A := fun h => (x, h).

Definition bindM {A B : Type} (m : M A) (k : A -> M B) : M B :=
  fun h =>
    match m h with
    | (Ok a, h') => k a h'
    | (Raise e, h') => (Raise e, h')
    end.

Notation "x <~ m ;; k" := (bindM m (fun x => k))
  (at level 61, m at next level, right associativity).

(** A new array object with its own buffer. *)
Definition alloc (a : ndarray) : M aref :=
  fun h => (Ok (whole (length h)), h ++ [a]).

(** The elements an array object shows. *)
Definition read (r : aref) : M ndarray :=
  fun h => (Ok (look r (nth (base r) h (ArrR []))), h).

(** An assignment into the buffer of an array object that owns it. *)
Definition store (r : aref) (a : ndarray) : M unit :=
  fun h => (Ok tt, set_item (base r) a h).

(** [m[:, 1:]] as a view. *)
Definition cols_from_1 (a : ndarray) : ndarray :=
  match a with
  | MatR m => MatR (Utils.drop_col0 m)
  | _ => a
  end.

(** [a[k]] of a 2-D array as a view, and the assignment [a[k] = row] seen
    on the buffer. *)
Definition row_of (k : nat) (a : ndarray) : ndarray :=
  ArrN (nth k (as_MatN a) []).

Definition set_row (k : nat) (row : list num) (a : ndarray) : ndarray :=
  MatN (set_item k row (as_MatN a)).

(** [standardize_ts]: [reshape] and [ravel] are views; [fit_transform]
    copies its argument and returns the new array. *)
Definition standardize_ts (ts : aref) (ts_scaled : option aref) : M aref :=
  match ts_scaled with
  | None =>
      let ts := view (fun a => a) ts in
      X <~ read ts ;;
      scaled <~ lift (Sklearn.fit_transform (as_ArrR X)) ;;
      out <~ alloc (ArrR scaled) ;;
      ret (view (fun a => a) out)
  | Some _ => ret ts
  end.

(** [nn]: [cdist] returns a new matrix, the mask is written into it. *)
Definition nn (metric : list R -> list R -> R) (embed : aref)
  : M (aref * aref) :=
  e <~ read embed ;;
  dist_mat <~ alloc (MatN (map (map Fin)
                               (Scipy.cdist metric (as_MatR e) (as_MatR e)))) ;;
  dm <~ read dist_mat ;;
  _ <~ store dist_mat
         (MatN (map (map (fun d => if isclose0 d then PInf else d))
                    (as_MatN dm))) ;;
  dm <~ read dist_mat ;;
  match as_MatN dm with
  | [] => raise ValueError
  | _ =>
      nn_inds <~ alloc (ArrI (map argmin (as_MatN dm))) ;;
      inds <~ read nn_inds ;;
      dist <~ alloc
        (ArrN (map (fun ji => nth (snd ji) (nth (fst ji) (as_MatN dm) []) NaN)
                   (combine (as_ArrI inds)
                            (seq 0 (length (as_ArrI inds)))))) ;;
      ret (nn_inds, dist)
  end.

(** [_embed.embed_ts] builds a new matrix from the sequence it reads. *)
Definition embed_ts (ts : aref) (lag dim : Z) : M aref :=
  s <~ read ts ;;
  m <~ lift (Embed.embed_ts (as_ArrR s) lag dim) ;;
  alloc (MatR m).

(** The loop of [embed_dim_fnn]; [fnn_prop[ind] = ...] writes into the
    buffer of [fnn_prop]. *)
Fixpoint fnn_loop (ts_scaled : aref) (lag : Z) (rtol atol : R)
    (ts_std : num) (ind : nat) (dims : list Z) (fnn_prop : aref) : M aref :=
  match dims with
  | [] => ret fnn_prop
  | dim :: rest =>
      fun h =>
        match embed_ts ts_scaled lag (dim + 1) h with
        | (Raise ValueError, h') => (Raise NameError, h')
        | (Raise e, h') => (Raise e, h')
        | (Ok emb_next, h') =>
            (let emb_cur := view cols_from_1 emb_next in
             r <~ nn Scipy.chebyshev emb_cur ;;
             en <~ read emb_next ;;
             inds <~ read (fst r) ;;
             dc <~ read (snd r) ;;
             let v := Utils.fnn_rate rtol atol ts_std (as_MatR en)
                                     (as_ArrI inds) (as_ArrN dc) in
             p <~ read fnn_prop ;;
             _ <~ store fnn_prop (ArrN (set_item ind v (as_ArrN p))) ;;
             fnn_loop ts_scaled lag rtol atol ts_std (S ind) rest fnn_prop) h'
        end
  end.

Definition embed_dim_fnn (ts : aref) (lag : Z) (dims : Utils.dims_arg)
    (rtol atol : R) (ts_scaled : option aref) : M aref :=
  if (lag <=? 0)%Z then raise ValueError
  else
    let dims := Utils.resolve_dims dims in
    ts_scaled <~ standardize_ts ts ts_scaled ;;
    fnn_prop <~ alloc (ArrN (repeat (Fin 0) (length dims))) ;;
    x <~ read ts ;;
    let ts_std := std (as_ArrR x) in
    fnn_loop ts_scaled lag rtol atol ts_std 0 dims fnn_prop.

(** The loop of [embed_dim_cao].  [ed] and [ed_star] are the two rows of
    one array, [np.zeros((2, len(dims)))]: [zeros] is its reference. *)
Fixpoint cao_loop (ts_scaled : aref) (lag : Z) (ind : nat) (dims : list Z)
    (zeros : aref) : M unit :=
  let ed := view (row_of 0) zeros in
  let ed_star := view (row_of 1) zeros in
  match dims with
  | [] => ret tt
  | dim :: rest =>
      fun h =>
        match embed_ts ts_scaled lag (dim + 1) h with
        | (Raise ValueError, h') =>
            (a <~ read ed ;;
             z <~ read zeros ;;
             _ <~ store zeros (set_row 0 (fill_from ind NaN (as_ArrN a)) z) ;;
             b <~ read ed_star ;;
             z <~ read zeros ;;
             store zeros (set_row 1 (fill_from ind NaN (as_ArrN b)) z)) h'
        | (Raise e, h') => (Raise e, h')
        | (Ok emb_next, h') =>
            (let emb_cur := view cols_from_1 emb_next in
             r <~ nn Scipy.chebyshev emb_cur ;;
             en <~ read emb_next ;;
             inds <~ read (fst r) ;;
             dc <~ read (snd r) ;;
             a <~ read ed ;;
             z <~ read zeros ;;
             _ <~ store zeros
                    (set_row 0 (set_item ind
                                  (Utils.cao_ed (as_MatR en) (as_ArrI inds)
                                                (as_ArrN dc))
                                  (as_ArrN a)) z) ;;
             b <~ read ed_star ;;
             z <~ read zeros ;;
             _ <~ store zeros
                    (set_row 1 (set_item ind
                                  (Utils.cao_ed_star (as_MatR en)
                                                     (as_ArrI inds))
                                  (as_ArrN b)) z) ;;
             cao_loop ts_scaled lag (S ind) rest zeros) h'
        end
  end.

Definition embed_dim_cao (ts : aref) (lag : Z) (dims : Utils.dims_arg)
    (ts_scaled : option aref) : M (aref * aref) :=
  if (lag <=? 0)%Z then raise ValueError
  else
    let dims := Utils.resolve_dims dims in
    ts_scaled <~ standardize_ts ts ts_scaled ;;
    zeros <~ alloc (MatN (repeat (repeat (Fin 0) (length dims)) 2)) ;;
    _ <~ cao_loop ts_scaled lag 0 dims zeros ;;
    ed <~ read (view (row_of 0) zeros) ;;
    e1 <~ alloc (ArrN (Utils.ratio_next (as_ArrN ed))) ;;
    ed_star <~ read (view (row_of 1) zeros) ;;
    e2 <~ alloc (ArrN (Utils.ratio_next (as_ArrN ed_star))) ;;
    ret (e1, e2).

End St.

(** ** More numpy primitives *)

Module NpArr.

Import Np.

(** [np.diff] of a 1-D array of finite values. *)
Fixpoint Rdiff (l : list R) : list R :=
  match l with
  | a :: ((b :: _) as tl) => (b - a) :: Rdiff tl
  | _ => []
  end.

(** [int(np.ceil(x))]: the least integer not below [x]. *)
Definition Rceil (x : R) : Z := (1 - up (- x))%Z.

(** The rounding of a real number to a double, for the products whose
    ceiling is taken: all that is used of it is that it is monotone and
    leaves the integers up to [2^53], which are doubles, unchanged. *)
Record rounding : Type := mk_rounding {
  rnd :> R -> R;
  rnd_mono : forall x y : R, x <= y -> rnd x <= rnd y;
  rnd_int : forall z : Z, (Z.abs z <= 2 ^ 53)%Z -> rnd (IZR z) = IZR z
}.

(** Exact arithmetic: nothing is rounded. *)
Definition no_rounding : rounding :=
  mk_rounding (fun x => x) (fun _ _ H => H) (fun _ _ => eq_refl).

(** [a[-k:]] for [k >= 1]: the last [k] elements, all of them when
    [k] exceeds the length. *)
Definition last_n {A : Type} (k : nat) (a : list A) : list A :=
  skipn (length a - k) a.

(** [a[:stop]]: a negative [stop] counts from the end. *)
Definition slice_to {A : Type} (stop : Z) (a : list A) : list A :=
  if (stop <? 0)%Z
  then firstn (Z.to_nat (Z.of_nat (length a) + stop)) a
  else firstn (Z.to_nat stop) a.

(** [a[i]] for an integer [i]: a negative index counts from the end, and an
    index out of bounds raises [IndexError]. *)
Definition item {A : Type} (a : list A) (i : Z) (d : A) : result A :=
  let n := Z.of_nat (length a) in
  if ((0 <=? i) && (i <? n))%Z then Ok (nth (Z.to_nat i) a d)
  else if ((- n <=? i) && (i <? 0))%Z then Ok (nth (Z.to_nat (n + i)) a d)
  else Raise IndexError.

(** A function applied to the elements in order; the first exception
    leaves. *)
Fixpoint map_result {A B : Type} (f : A -> result B) (l : list A)
  : result (list B) :=
  match l with
  | [] => Ok []
  | x :: tl => y <- f x ;; ys <- map_result f tl ;; Ok (y :: ys)
  end.

(** The pieces of [l] of the given sizes, from left to right. *)
Fixpoint split_by {A : Type} (sizes : list nat) (l : list A)
  : list (list A) :=
  match sizes with
  | [] => []
  | n :: rest => firstn n l :: split_by rest (skipn n l)
  end.

(** [np.array_split(ary, sections)] for an integer [sections]: the first
    [len % sections] pieces have [len // sections + 1] elements, the others
    [len // sections]; [ValueError] unless [sections > 0]. *)
Definition array_split {A : Type} (ary : list A) (sections : Z)
  : result (list (list A)) :=
  if (sections <=? 0)%Z then Raise ValueError
  else
    let k := Z.to_nat sections in
    let each := (length ary / k)%nat in
    let extras := (length ary mod k)%nat in
    Ok (split_by (repeat (S each) extras ++ repeat each (k - extras)) ary).

(** The value of an [int64] operation whose exact result is [z]: the
    representative of [z] modulo [2^64] in [-2^63, 2^63). *)
Definition wrap64 (z : Z) : Z := ((z + 2 ^ 63) mod 2 ^ 64 - 2 ^ 63)%Z.

(** The elementwise pairing of two 1-D arrays under numpy's broadcasting:
    equal lengths, or one of the arrays has a single element. *)
Definition broadcast {A : Type} (a b : list A) : result (list (A * A)) :=
  if (length a =? length b)%nat then Ok (combine a b)
  else
    match a, b with
    | [x], _ => Ok (map (fun y => (x, y)) b)
    | _, [y] => Ok (map (fun x => (x, y)) a)
    | _, _ => Raise ValueError
    end.

(** Sorting, for [np.median]. *)
Fixpoint insert_sorted (x : R) (l : list R) : list R :=
  match l with
  | [] => [x]
  | y :: tl => if Rleb x y then x :: l else y :: insert_sorted x tl
  end.

Definition sort (l : list R) : list R := fold_right insert_sorted [] l.

(** [np.median] of a 1-D array of finite values: the middle value of the
    sorted array, the mean of the two middle values when the size is even,
    NaN on the empty array. *)
Definition median (l : list R) : num :=
  match l with
  | [] => NaN
  | _ =>
      let s := sort l in
      let n := length l in
      if Nat.even n
      then Fin ((nth (n / 2 - 1) s 0 + nth (n / 2) s 0) / 2)
      else Fin (nth (n / 2) s 0)
  end.

End NpArr.

(** ** [_utils.py], the other array helpers *)

Module UtilsB.

Import Np NpArr.
Import String.StringSyntax.
Delimit Scope string_scope with string.

(** [apply_on_tiles(ts, num_tiles, func)] *)
Definition apply_on_tiles {B : Type} (ts : list R) (num_tiles : Z)
    (func : list R -> result B) : result (list B) :=
  if Rltb (5 / 10 * INR (length ts)) (IZR num_tiles) then Raise ValueError
  else
    tiles <- array_split ts num_tiles ;;
    map_result func tiles.

(** A window size: a Python [int] or a [float]. *)
Inductive window : Type :=
| WInt (z : Z)
| WFloat (x : R).

Definition window_value (w : window) : R :=
  match w with
  | WInt z => IZR z
  | WFloat x => x
  end.

(** [w % 2 == 0] *)
Definition window_even (w : window) : bool :=
  match w with
  | WInt z => (z mod 2 =? 0)%Z
  | WFloat x => Reqb x (IZR (2 * (Int_part x / 2)))
  end.

(** [w - 1] *)
Definition window_pred (w : window) : window :=
  match w with
  | WInt z => WInt (z - 1)
  | WFloat x => WFloat (x - 1)
  end.

(** [process_window_size(ts, window_size)]; only the size of [ts] is
    read.  Python's [min(a, b)] is [b] only when [b < a].  The product
    [window_size * ts.size] is a double: [fl] rounds it. *)
Definition process_window_size (fl : rounding) (ts_size : nat)
    (window_size : window) : result window :=
  if Rleb (window_value window_size) 0 then Raise ValueError
  else
    let window_size :=
      if Rltb (window_value window_size) 1
      then WInt (Z.max 1
                   (Rceil (fl (window_value window_size * INR ts_size))))
      else if Rltb (window_value window_size) (INR ts_size)
           then window_size
           else WInt (Z.of_nat ts_size) in
    if window_even window_size then Ok (window_pred window_size)
    else Ok window_size.

(** [smape(arr_a, arr_b, percentage=False, half_denom=True)] *)
Definition smape_atol : R := 1 / 1000000000.

Definition smape (arr_a arr_b : list R) (percentage half_denom : bool)
  : result num :=
  ab <- broadcast arr_a arr_b ;;
  let res :=
    Rmean (map (fun p => Rabs (fst p - snd p)
                         / (smape_atol + Rabs (fst p) + Rabs (snd p))) ab) in
  let res := if percentage then nmul res (Fin 100) else res in
  let res := if negb half_denom then nmul res (Fin 2) else res in
  Ok res.

(** [sample_data(ts, lm_sample_frac, X=None)]: the pair of what is returned
    for [ts] and, when [X] is given, for [X].  The product
    [ts.size * lm_sample_frac] is a double: [fl] rounds it. *)
Definition sample_data (fl : rounding) (ts : list R) (lm_sample_frac : R)
    (X : option (list (list R))) : list R * option (list (list R)) :=
  let threshold := Rceil (fl (INR (length ts) * lm_sample_frac)) in
  if (Z.of_nat (length ts) <=? threshold)%Z then (ts, X)
  else (slice_to threshold ts, option_map (slice_to threshold) X).

(** [np.isclose(x, 0)] on an array of finite values. *)
Definition close0 (x : R) : bool := isclose0 (Fin x).

(** [np.hstack((0, mask.astype(int), 0))] *)
Definition pad_ints (mask : list bool) : list Z :=
  0%Z :: map (fun b : bool => if b then 1%Z else 0%Z) mask ++ [0%Z].

(** [find_plateau_pt(arr, arr_diff=None)] *)
Definition find_plateau_pt (arr : list R) (arr_diff : option (list R))
  : list Z :=
  let arr_diff := match arr_diff with
                  | None => Rdiff arr
                  | Some d => d
                  end in
  let arr_diff_2 := Rdiff arr_diff in
  let res := map (fun p => close0 (fst p) && close0 (snd p))
                 (combine arr_diff_2 (removelast arr_diff)) in
  pad_ints res.

(** What [find_crit_pt] returns: an integer array, or a boolean array for
    the type ["any"]. *)
Inductive crit_array : Type :=
| IntArr (a : list Z)
| BoolArr (a : list bool).

(** [arr_diff_1[1:] * arr_diff_1[:-1] < 0] *)
Definition turning_mask (arr_diff_1 : list R) : list bool :=
  map (fun p => Rltb (fst p * snd p) 0)
      (combine (tl arr_diff_1) (removelast arr_diff_1)).

Definition valid_types : list String.string :=
  ["min"; "max"; "plateau"; "non-plateau"; "any"]%string.

(** [find_crit_pt(arr, type_)] *)
Definition find_crit_pt (arr : list R) (type_ : String.string)
  : result crit_array :=
  if (length arr <=? 2)%nat then Raise ValueError
  else if negb (existsb (String.eqb type_) valid_types) then Raise ValueError
  else
    let arr_diff_1 := Rdiff arr in
    if String.eqb type_ "plateau"
    then Ok (IntArr (find_plateau_pt arr (Some arr_diff_1)))
    else
      let turning_pt := turning_mask arr_diff_1 in
      if String.eqb type_ "non-plateau" then Ok (IntArr (pad_ints turning_pt))
      else if String.eqb type_ "any" then
        let plat := find_plateau_pt arr (Some arr_diff_1) in
        let turning_pt := pad_ints turning_pt in
        Ok (BoolArr (map (fun p => negb (fst p =? 0)%Z || negb (snd p =? 0)%Z)
                         (combine turning_pt plat)))
      else
        let arr_diff_2 := Rdiff arr_diff_1 in
        let interest_pt :=
          map (fun x => if String.eqb type_ "max" then Rltb x 0 else Rltb 0 x)
              arr_diff_2 in
        let local_m := map (fun p => fst p && snd p)
                           (combine turning_pt interest_pt) in
        Ok (IntArr (pad_ints local_m)).

End UtilsB.

(** ** [general.py], the simple descriptors *)

Module GeneralB.

Import Np NpArr.
Import String.StringSyntax.
Delimit Scope string_scope with string.

(** The positions of [_ts_walker] from the position [pos] on: one per
    element of [ts], the last element of [ts] attracting nothing. *)
Fixpoint walker_from (step_size pos : R) (ts : list R) : list R :=
  match ts with
  | [] => []
  | x :: tl => pos :: walker_from step_size (pos + step_size * (x - pos)) tl
  end.

Definition default_step_size : R := 1 / 10.

(** [_ts_walker(ts, step_size=0.1, start_point=None)]; on an empty [ts]
    the assignment [walker_path[0] = start_point] raises [IndexError]. *)
Definition _ts_walker (ts : list R) (step_size : R) (start_point : option R)
  : result (list R) :=
  let start_point := match start_point with
                     | None => 0
                     | Some p => p
                     end in
  match ts with
  | [] => Raise IndexError
  | _ => Ok (walker_from step_size start_point ts)
  end.

(** The walker path that the two walker features use. *)
Definition walker_or_given (ts_scaled : list R) (step_size : R)
    (start_point : option R) (walker_path : option (list R))
  : result (list R) :=
  match walker_path with
  | None => _ts_walker ts_scaled step_size start_point
  | Some w => Ok w
  end.

(** [ft_walker_path] *)
Definition ft_walker_path (ts : list R) (step_size : R)
    (start_point : option R) (relative_dist : bool)
    (walker_path ts_scaled : option (list R)) : result (list R) :=
  ts_scaled <- Utils.standardize_ts ts ts_scaled ;;
  walker_path <- walker_or_given ts_scaled step_size start_point walker_path ;;
  if relative_dist then
    ws <- broadcast walker_path ts_scaled ;;
    Ok (map (fun p => Rabs (fst p - snd p)) ws)
  else Ok walker_path.

(** The number of [True] in a boolean array. *)
Definition count_true (mask : list bool) : nat :=
  length (filter (fun b : bool => b) mask).

(** [ft_walker_cross_frac]: the count, or with [normalize] the count over
    [walker_path.size - 1]. *)
Definition ft_walker_cross_frac (ts : list R) (step_size : R)
    (start_point : option R) (normalize : bool)
    (walker_path ts_scaled : option (list R)) : result num :=
  ts_scaled <- Utils.standardize_ts ts ts_scaled ;;
  walker_path <- walker_or_given ts_scaled step_size start_point walker_path ;;
  before <- broadcast (removelast walker_path) (removelast ts_scaled) ;;
  after <- broadcast (tl walker_path) (tl ts_scaled) ;;
  prods <- broadcast (map (fun p => fst p - snd p) before)
                     (map (fun p => fst p - snd p) after) ;;
  let cross_num := count_true (map (fun p => Rltb (fst p * snd p) 0) prods) in
  if normalize
  then Ok (ndiv (Fin (INR cross_num))
                (Fin (IZR (Z.of_nat (length walker_path) - 1))))
  else Ok (Fin (INR cross_num)).

(** The loop of [ft_moving_threshold]: [threshold[1 + ind]] is written
    from [ts_scaled[ind]] and [threshold[ind]]. *)
Fixpoint threshold_loop (_ra _rd : R) (ind : nat) (ts_scaled : list R)
    (threshold : list R) : list R :=
  match ts_scaled with
  | [] => threshold
  | x :: tl =>
      let cur := nth ind threshold 0 in
      let next := if Rltb cur x then _ra * x else _rd * cur in
      threshold_loop _ra _rd (S ind) tl (set_item (S ind) next threshold)
  end.

Definition default_rate : R := 1 / 10.

(** [ft_moving_threshold(ts, rate_absorption=0.1, rate_decay=0.1,
    ts_scaled=None, relative=False)] *)
Definition ft_moving_threshold (ts : list R) (rate_absorption rate_decay : R)
    (ts_scaled : option (list R)) (relative : bool) : result (list R) :=
  if negb (Rltb 0 rate_decay && Rltb rate_decay 1) then Raise ValueError
  else if negb (Rltb 0 rate_absorption && Rltb rate_absorption 1)
  then Raise ValueError
  else
    s <- Utils.standardize_ts ts ts_scaled ;;
    let ts_scaled := map Rabs s in
    let threshold := repeat 1 (1 + length ts) in
    let _ra := 1 + rate_absorption in
    let _rd := 1 - rate_decay in
    let threshold := threshold_loop _ra _rd 0 ts_scaled threshold in
    if relative then
      d <- broadcast (tl threshold) ts_scaled ;;
      Ok (map (fun p => fst p - snd p) d)
    else Ok threshold.

(** [ft_frac_cp(ts, threshold=None, normalize=True, ts_scaled=None)] *)
Definition ft_frac_cp (ts : list R) (threshold : option R) (normalize : bool)
    (ts_scaled : option (list R)) : result num :=
  ts_scaled <- Utils.standardize_ts ts ts_scaled ;;
  let threshold := match threshold with
                   | None => median ts_scaled
                   | Some v => Fin v
                   end in
  let higher_med := map (fun x => nle (Fin x) threshold) ts_scaled in
  let num_cp :=
    count_true (map (fun p => xorb (fst p) (snd p))
                    (combine (tl higher_med) (removelast higher_med))) in
  if normalize
  then Ok (ndiv (Fin (INR num_cp))
                (Fin (IZR (Z.of_nat (length ts_scaled) - 1))))
  else Ok (Fin (INR num_cp)).

(** [ft_turning_points] and [ft_turning_points_trend] *)
Definition ft_turning_points (ts : list R) : result UtilsB.crit_array :=
  UtilsB.find_crit_pt ts "non-plateau"%string.

Definition ft_turning_points_trend (ts_trend : list R)
  : result UtilsB.crit_array :=
  ft_turning_points ts_trend.

End GeneralB.

(** ** [_models.py]: the naive forecasters *)

Module Models.

Import Np NpArr.

(** [TSNaive] after [fit]. *)
Record TSNaive : Type := mk_TSNaive { naive_last_obs : R }.

Definition TSNaive_fit (y : list R) : result TSNaive :=
  last_obs <- item y (-1) 0 ;;
  Ok (mk_TSNaive last_obs).

Definition TSNaive_predict (m : TSNaive) (X : list Z) : list R :=
  repeat (naive_last_obs m) (length X).

(** [TSNaiveDrift] after [fit]. *)
Record TSNaiveDrift : Type := mk_TSNaiveDrift {
  drift_last_obs : R;
  drift_last_obs_ind : Z;
  drift_slope : num
}.

Definition TSNaiveDrift_fit (y : list R) : result TSNaiveDrift :=
  last_obs <- item y (-1) 0 ;;
  first_obs <- item y 0 0 ;;
  Ok (mk_TSNaiveDrift last_obs (Z.of_nat (length y))
        (ndiv (Fin (last_obs - first_obs))
              (Fin (IZR (Z.of_nat (length y) - 1))))).

Definition TSNaiveDrift_predict (m : TSNaiveDrift) (X : list Z) : list num :=
  map (fun x => nadd (Fin (drift_last_obs m))
                     (nmul (Fin (IZR (x - drift_last_obs_ind m)))
                           (drift_slope m))) X.

(** [TSNaiveSeasonal] after [fit]; [init_period] is the argument of the
    constructor. *)
Record TSNaiveSeasonal : Type := mk_TSNaiveSeasonal {
  seasonal_y : list R;
  seasonal_period : Z
}.

Definition TSNaiveSeasonal_fit (init_period : option Z) (y : list R)
    (ts_period : option Z) : result TSNaiveSeasonal :=
  let period := match ts_period with
                | Some p => Some p
                | None => init_period
                end in
  match period with
  | None => Raise ValueError
  | Some p => Ok (mk_TSNaiveSeasonal y p)
  end.

(** The index read for the time step [x].  [X] is an [int64] array: the
    subtraction, the floor division, the addition and the product are
    those of [int64] and wrap around. *)
Definition seasonal_ind (m : TSNaiveSeasonal) (x : Z) : Z :=
  let size := Z.of_nat (length (seasonal_y m)) in
  let shift := wrap64 (wrap64 (x - size) / seasonal_period m) in
  wrap64 (x - wrap64 (seasonal_period m * wrap64 (1 + shift))).

Definition TSNaiveSeasonal_predict (m : TSNaiveSeasonal) (X : list Z)
  : result (list R) :=
  map_result (fun x => item (seasonal_y m) (seasonal_ind m x) 0) X.

(** [_TSLocalStat]: the constructor checks [train_prop]. *)
Record TSLocalStat : Type := mk_TSLocalStat {
  local_train_prop : R;
  local_stat_func : list R -> num
}.

Definition TSLocalStat_init (stat_func : list R -> num) (train_prop : R)
  : result TSLocalStat :=
  if negb (Rltb 0 train_prop && Rleb train_prop 1) then Raise ValueError
  else Ok (mk_TSLocalStat train_prop stat_func).

(** [max(1, int(np.ceil(y.size * self.train_prop)))]; the product is a
    double: [fl] rounds it. *)
Definition local_last_ind (fl : rounding) (m : TSLocalStat) (y : list R)
  : Z :=
  Z.max 1 (Rceil (fl (INR (length y) * local_train_prop m))).

(** [fit] returns the fitted statistic [loc_mean_fit]. *)
Definition TSLocalStat_fit (fl : rounding) (m : TSLocalStat) (y : list R)
  : num :=
  local_stat_func m (last_n (Z.to_nat (local_last_ind fl m y)) y).

Definition TSLocalStat_predict (loc_mean_fit : num) (X : list Z) : list num :=
  repeat loc_mean_fit (length X).

Definition default_train_prop : R := 25 / 100.

(** [TSLocalMean(train_prop)] *)
Definition TSLocalMean_init (train_prop : R) : result TSLocalStat :=
  TSLocalStat_init Rmean train_prop.

End Models.

(** * Vocabulary of the statements *)

Import Np.


(** A value that is not NaN: an entry of the masked distance matrix. *)
Definition not_nan (a : num) : Prop := a <> NaN.

(** Concrete values of [Rabs] and [Rmax]. *)
Ltac real_eval :=
  unfold isclose_atol, Rabs, Rmax in *;
  repeat match goal with
         | |- context [Rcase_abs ?x] => destruct (Rcase_abs x)
         | |- context [Rle_dec ?x ?y] => destruct (Rle_dec x y)
         end;
  try lra.

(** The added coordinate of point [i] against that of its neighbour. *)
Definition extra_diff (emb_next : list (list R)) (nn_inds : list nat)
    (i : nat) : R :=
  Rabs (hd 0 (nth i emb_next []) - hd 0 (nth (nth i nn_inds 0%nat) emb_next [])).

(** The embedding at [d + 1] and the neighbours found in dimension [d]. *)
Definition neighbours_at (s : list R) (lag d : Z)
  : option (list (list R) * list nat * list num) :=
  match Embed.embed_ts s lag (d + 1) with
  | Ok emb_next =>
      match Utils.nn Scipy.chebyshev (Utils.drop_col0 emb_next) with
      | Ok (nn_inds, dist_d) => Some (emb_next, nn_inds, dist_d)
      | Raise _ => None
      end
  | Raise _ => None
  end.

(** [dist_{d+1}(i) = max(dist_d(i), |extra coordinate difference|)] *)
Definition dist_succ (emb_next : list (list R)) (nn_inds : list nat)
    (dist_d : list num) (i : nat) : num :=
  maximum (nth i dist_d NaN) (Fin (extra_diff emb_next nn_inds i)).

(** Point [i] is a false neighbour: the relative or the absolute test. *)
Definition false_neighbour (rtol atol : R) (ts_std : num)
    (emb_next : list (list R)) (nn_inds : list nat) (dist_d : list num)
    (i : nat) : bool :=
  ngt (Fin (extra_diff emb_next nn_inds i))
      (nmul (Fin rtol) (nth i dist_d NaN))
  || ngt (dist_succ emb_next nn_inds dist_d i) (nmul (Fin atol) ts_std).

(** The mean false-neighbour rate over the embedded points. *)
Definition false_neighbour_rate (rtol atol : R) (ts_std : num)
    (s : list R) (lag d : Z) : num :=
  match neighbours_at s lag d with
  | Some (emb_next, nn_inds, dist_d) =>
      mean_bool (map (false_neighbour rtol atol ts_std emb_next nn_inds dist_d)
                     (seq 0 (length emb_next)))
  | None => NaN
  end.

(** [E(d)]: the mean over the points of [dist_{d+1} / dist_d]. *)
Definition cao_E (s : list R) (lag d : Z) : num :=
  match neighbours_at s lag d with
  | Some (emb_next, nn_inds, dist_d) =>
      mean (map (fun i => ndiv (dist_succ emb_next nn_inds dist_d i)
                               (nth i dist_d NaN))
                (seq 0 (length emb_next)))
  | None => NaN
  end.

(** [E*(d)]: the mean absolute difference of the added coordinate. *)
Definition cao_E_star (s : list R) (lag d : Z) : num :=
  match neighbours_at s lag d with
  | Some (emb_next, nn_inds, _) =>
      Rmean (map (extra_diff emb_next nn_inds) (seq 0 (length emb_next)))
  | None => NaN
  end.

(** The candidate dimension [d] embeds: [embed_ts] at [d + 1] returns. *)
Definition embeds (s : list R) (lag d : Z) : Prop :=
  exists emb, Embed.embed_ts s lag (d + 1) = Ok emb.

(** The store [h] is [h0] followed by the arrays allocated since. *)
Definition extends (h0 h : St.heap) : Prop := exists ext, h = h0 ++ ext.

(** The buffer of [r] was allocated after [h0]. *)
Definition fresh (h0 : St.heap) (r : St.aref) : Prop :=
  (length h0 <= St.base r)%nat.

(** [m] leaves the arrays of [h0] as they are, and what it returns
    satisfies [Q]. *)
Definition keeps (h0 : St.heap) {A : Type} (m : St.M A) (Q : A -> Prop)
  : Prop :=
  forall h, extends h0 h ->
            extends h0 (snd (m h)) /\ forall a, fst (m h) = Ok a -> Q a.

(** The elements that the array object [r] shows in the store [h]. *)
Definition shows (h : St.heap) (r : St.aref) : St.ndarray :=
  St.look r (nth (St.base r) h (St.ArrR [])).

(** The outcome of a computation on the store against a result on values. *)
Definition agrees {A B : Type} (rel : A -> St.heap -> B -> Prop)
    (out : result A * St.heap) (pure : result B) : Prop :=
  match fst out, pure with
  | Ok a, Ok b => rel a (snd out) b
  | Raise e, Raise e' => e = e'
  | _, _ => False
  end.

(** ** The reconstruction in the words of the specification *)

(** Coordinate [j] of the point [i] of a delay embedding with lag [lag]:
    the value [x_(i + j * lag)]. *)
Definition coordinate (s : list R) (lag : Z) (i j : nat) : R :=
  nth (i + j * Z.to_nat lag) s 0.

(** The number of points of the embedding of dimension [d + 1]. *)
Definition point_count (s : list R) (lag d : Z) : nat :=
  Z.to_nat (Z.of_nat (length s) - d * lag).

(** The point [i] of the [d]-dimensional embedding in which the neighbours
    are searched: the coordinates [1 .. d] of the point of dimension
    [d + 1], whose coordinate 0 is the extra coordinate. *)
Definition embedded_point (s : list R) (lag d : Z) (i : nat) : list R :=
  map (coordinate s lag i) (seq 1 (Z.to_nat d)).

(** The point [i] of the embedding of dimension [d + 1]. *)
Definition full_point (s : list R) (lag d : Z) (i : nat) : list R :=
  map (coordinate s lag i) (seq 0 (S (Z.to_nat d))).

(** [dist_d(i, j)] and [dist_(d+1)(i, j)]: the Chebyshev distances of the
    points [i] and [j] in dimension [d] and in dimension [d + 1]. *)
Definition point_dist (s : list R) (lag d : Z) (i j : nat) : R :=
  Scipy.chebyshev (embedded_point s lag d i) (embedded_point s lag d j).

Definition point_dist_next (s : list R) (lag d : Z) (i j : nat) : R :=
  Scipy.chebyshev (full_point s lag d i) (full_point s lag d j).

(** [|x_extra(i) - x_extra(j)|] *)
Definition extra_gap (s : list R) (lag : Z) (i j : nat) : R :=
  Rabs (coordinate s lag i 0 - coordinate s lag j 0).

(** The point [j] is farther than [1e-8] from the point [i]. *)
Definition apart (s : list R) (lag d : Z) (i j : nat) : Prop :=
  isclose_atol < point_dist s lag d i j.

(** Every point of dimension [d] has a point farther than [1e-8]. *)
Definition separated (s : list R) (lag d : Z) : Prop :=
  forall i, (i < point_count s lag d)%nat ->
  exists j, (j < point_count s lag d)%nat /\ apart s lag d i j.

(** [j] is a nearest neighbour of [i] in dimension [d]: a point farther
    than [1e-8] from [i] than which no such point is nearer. *)
Definition nearest_neighbour (s : list R) (lag d : Z) (i j : nat) : Prop :=
  (j < point_count s lag d)%nat /\ apart s lag d i j /\
  forall k, (k < point_count s lag d)%nat -> apart s lag d i k ->
            point_dist s lag d i j <= point_dist s lag d i k.

(** The false-neighbour test of the point [i] against the point [j]. *)
Definition is_false_neighbour (rtol atol sd : R) (s : list R) (lag d : Z)
    (i j : nat) : bool :=
  Rltb (rtol * point_dist s lag d i j) (extra_gap s lag i j)
  || Rltb (atol * sd) (Rmax (point_dist s lag d i j) (extra_gap s lag i j)).

(** The mean false-neighbour rate of dimension [d] when the neighbour of
    the point [i] is [nnf i]. *)
Definition false_rate (rtol atol sd : R) (s : list R) (lag d : Z)
    (nnf : nat -> nat) : R :=
  Rsum (map (fun i => if is_false_neighbour rtol atol sd s lag d i (nnf i)
                      then 1 else 0)
            (seq 0 (point_count s lag d)))
  / INR (point_count s lag d).

(** [E(d)], the mean of [dist_(d+1) / dist_d], and [E*(d)], the mean
    absolute difference of the extra coordinate, when the neighbour of the
    point [i] is [nnf i]. *)
Definition mean_dist_ratio (s : list R) (lag d : Z) (nnf : nat -> nat) : R :=
  Rsum (map (fun i => point_dist_next s lag d i (nnf i)
                      / point_dist s lag d i (nnf i))
            (seq 0 (point_count s lag d)))
  / INR (point_count s lag d).

Definition mean_extra_gap (s : list R) (lag d : Z) (nnf : nat -> nat) : R :=
  Rsum (map (fun i => extra_gap s lag i (nnf i))
            (seq 0 (point_count s lag d)))
  / INR (point_count s lag d).

(** [j] is a point nearest to [i] among the other points of dimension [d],
    however near: the nearest neighbour when no point is set aside. *)
Definition closest_other (s : list R) (lag d : Z) (i j : nat) : Prop :=
  (j < point_count s lag d)%nat /\ j <> i /\
  forall k, (k < point_count s lag d)%nat -> k <> i ->
            point_dist s lag d i j <= point_dist s lag d i k.

(** A sequence whose second and third values are [1e-9] apart. *)
Definition close_pair : list R := [1; 0; 1 / 1000000000; 10; 26].

(** The neighbours that [nn] returns in dimension [d]. *)
Definition neighbour_of (s : list R) (lag d : Z) (i : nat) : nat :=
  match neighbours_at s lag d with
  | Some (_, nn_inds, _) => nth i nn_inds 0%nat
  | None => 0%nat
  end.

(** ** Vocabulary for the other helpers *)

(** The mask of [find_crit_pt] for the types ["max"] and ["min"] before the
    padding. *)
Definition extremum_mask (is_max : bool) (arr : list R) : list bool :=
  map (fun p => fst p && snd p)
      (combine (UtilsB.turning_mask (NpArr.Rdiff arr))
               (map (fun x => if is_max then Rltb x 0 else Rltb 0 x)
                    (NpArr.Rdiff (NpArr.Rdiff arr)))).

(** The mask of [find_plateau_pt] before the padding. *)
Definition plateau_mask (d : list R) : list bool :=
  map (fun p => UtilsB.close0 (fst p) && UtilsB.close0 (snd p))
      (combine (NpArr.Rdiff d) (removelast d)).

(** The size of what [find_crit_pt] returns. *)
Definition crit_length (a : UtilsB.crit_array) : nat :=
  match a with
  | UtilsB.IntArr l => length l
  | UtilsB.BoolArr l => length l
  end.

(** The sizes of the pieces of [np.array_split] of [total] elements in [k]
    sections. *)
Definition tile_sizes (total k : nat) : list nat :=
  (repeat (S (total / k)) (total mod k)
   ++ repeat (total / k) (k - total mod k))%nat.

(** The thresholds of [ft_moving_threshold] as a recurrence: the current
    one, then those that follow from the remaining values. *)
Fixpoint thresholds (_ra _rd cur : R) (s : list R) : list R :=
  cur :: match s with
         | [] => []
         | x :: tl =>
             thresholds _ra _rd (if Rltb cur x then _ra * x else _rd * cur) tl
         end.

(** * Properties *)

(** ** Basic facts on the primitives *)

Lemma Rltb_true (x y : R) : Rltb x y = true <-> x < y.
Proof. unfold Rltb; destruct (Rlt_dec x y); split; auto; discriminate. Qed.

Lemma Rltb_false (x y : R) : Rltb x y = false <-> y <= x.
Proof.
  unfold Rltb; destruct (Rlt_dec x y); split; auto; try discriminate; lra.
Qed.

Lemma Rleb_true (x y : R) : Rleb x y = true <-> x <= y.
Proof. unfold Rleb; destruct (Rle_dec x y); split; auto; discriminate. Qed.

Lemma Rleb_false (x y : R) : Rleb x y = false <-> y < x.
Proof.
  unfold Rleb; destruct (Rle_dec x y); split; auto; try discriminate; lra.
Qed.

Lemma Reqb_true (x y : R) : Reqb x y = true <-> x = y.
Proof. unfold Reqb; destruct (Req_dec_T x y); split; auto; discriminate. Qed.

Lemma Reqb_false (x y : R) : Reqb x y = false <-> x <> y.
Proof.
  unfold Reqb; destruct (Req_dec_T x y); split; auto; try discriminate.
  intros H; contradiction.
Qed.

Lemma Reqb_refl (x : R) : Reqb x x = true.
Proof. now apply Reqb_true. Qed.

(** ** [standardize_ts] with a precomputed sequence *)

(** C2.  With a precomputed standardized sequence [ts_scaled], the code
    returns the raw sequence [ts], not [ts_scaled]: on [ts = [1; 2]] and
    [ts_scaled = [-1; 1]] the result is [[1; 2]]. *)
Theorem standardize_ts_precomputed_returns_raw :
  (forall ts ts_scaled,
      Utils.standardize_ts ts (Some ts_scaled) = Ok ts) /\
  Utils.standardize_ts [1; 2] (Some [-1; 1]) = Ok [1; 2] /\
  Utils.standardize_ts [1; 2] (Some [-1; 1]) <> Ok [-1; 1].
Proof.
  split; [reflexivity | split; [reflexivity |]].
  simpl. intros H. injection H as H1 _. lra.
Qed.

(** ** Embeddings and the nearest-neighbour search return *)

Lemma embed_ts_raises (ts : list R) (lag dim : Z) (e : exn) :
  Embed.embed_ts ts lag dim = Raise e -> e = ValueError.
Proof.
  unfold Embed.embed_ts.
  destruct ((dim <? 1)%Z || _); intros H; now inversion H.
Qed.

Lemma embed_ts_ok_rows (ts : list R) (lag dim : Z) (emb : list (list R)) :
  Embed.embed_ts ts lag dim = Ok emb ->
  (1 <= dim)%Z /\
  (1 <= Z.of_nat (length ts) - (dim - 1) * lag)%Z /\
  length emb = Z.to_nat (Z.of_nat (length ts) - (dim - 1) * lag) /\
  Forall (fun row => length row = Z.to_nat dim) emb.
Proof.
  unfold Embed.embed_ts.
  destruct (Z.ltb_spec dim 1) as [Hd | Hd]; [discriminate |].
  destruct (Z.ltb_spec (Z.of_nat (length ts) - (dim - 1) * lag) 1)
    as [Hr | Hr]; [discriminate |].
  simpl. intros H. inversion H; subst; clear H.
  repeat split; try assumption.
  - now rewrite length_map, length_seq.
  - apply Forall_forall. intros row Hin.
    apply in_map_iff in Hin as [i [<- _]].
    now rewrite length_map, length_seq.
Qed.

Lemma embed_ts_ok_nonempty (ts : list R) (lag dim : Z) (emb : list (list R)) :
  Embed.embed_ts ts lag dim = Ok emb -> emb <> [].
Proof.
  intros H. apply embed_ts_ok_rows in H as (_ & Hr & Hl & _).
  intros ->. simpl in Hl. lia.
Qed.

Lemma drop_col0_nonempty (emb : list (list R)) :
  emb <> [] -> Utils.drop_col0 emb <> [].
Proof. destruct emb; [congruence | discriminate]. Qed.

Lemma nn_ok (metric : list R -> list R -> R) (embed : list (list R)) :
  embed <> [] -> exists r, Utils.nn metric embed = Ok r.
Proof.
  intros H. unfold Utils.nn. destruct embed; [congruence |].
  eexists; reflexivity.
Qed.

(** ** The failure path of [embed_dim_fnn] *)

Lemma fnn_loop_failure (s : list R) (lag : Z) (rtol atol : R) (ts_std : num)
    (pre : list Z) (d : Z) (post : list Z) :
  Forall (fun d' => exists emb, Embed.embed_ts s lag (d' + 1) = Ok emb) pre ->
  Embed.embed_ts s lag (d + 1) = Raise ValueError ->
  forall ind fnn_prop,
    Utils.fnn_loop s lag rtol atol ts_std ind (pre ++ d :: post) fnn_prop
    = Raise NameError.
Proof.
  intros Hpre Hd. induction Hpre as [| d' pre [emb He] _ IH]; intros ind prop.
  - simpl. now rewrite Hd.
  - simpl. rewrite He.
    destruct (nn_ok Scipy.chebyshev (Utils.drop_col0 emb)) as [r Hr].
    { apply drop_col0_nonempty. eapply embed_ts_ok_nonempty; eauto. }
    rewrite Hr. simpl. apply IH.
Qed.

(** C1.  When the embedding fails at the candidate dimension of index [k]
    (all the earlier ones succeed), [embed_dim_fnn] returns no profile: the
    handler evaluates the unbound name [ed] and the call ends with
    [NameError]. *)
Theorem embed_dim_fnn_failure_raises_NameError
    (ts : list R) (lag : Z) (dims : Utils.dims_arg) (rtol atol : R)
    (ts_scaled : option (list R)) (s : list R)
    (pre : list Z) (d : Z) (post : list Z) :
  (0 < lag)%Z ->
  Utils.standardize_ts ts ts_scaled = Ok s ->
  Utils.resolve_dims dims = pre ++ d :: post ->
  Forall (fun d' => exists emb, Embed.embed_ts s lag (d' + 1) = Ok emb) pre ->
  Embed.embed_ts s lag (d + 1) = Raise ValueError ->
  Utils.embed_dim_fnn ts lag dims rtol atol ts_scaled = Raise NameError.
Proof.
  intros Hlag Hs Hdims Hpre Hd. unfold Utils.embed_dim_fnn.
  apply Z.leb_gt in Hlag. rewrite Hlag, Hs. simpl. rewrite Hdims.
  now apply fnn_loop_failure.
Qed.

Lemma embed_dim_fnn_failure_raises_NameError_witness :
  Utils.embed_dim_fnn [0; 1; 2; 3] 1 (Utils.DimsSeq [1; 2; 3; 4]%Z)
                      Utils.default_rtol Utils.default_atol None
  = Raise NameError.
Proof.
  eapply (embed_dim_fnn_failure_raises_NameError
            [0; 1; 2; 3] 1 (Utils.DimsSeq [1; 2; 3; 4]%Z) _ _ None _
            [1; 2; 3]%Z 4%Z []).
  - lia.
  - reflexivity.
  - reflexivity.
  - repeat constructor; eexists; reflexivity.
  - reflexivity.
Defined.

(** ** The plateau search of [ft_emb_dim_cao] *)








(** ** Sums, means and variances *)

Lemma Rsum_squares_nonneg (f : R -> R) (l : list R) :
  0 <= Rsum (map (fun x => f x * f x) l).
Proof.
  induction l as [| x l IH]; simpl; [lra |].
  pose proof (Rle_0_sqr (f x)) as H. unfold Rsqr in H. lra.
Qed.

Lemma Rsum_squares_zero (f : R -> R) (l : list R) :
  Rsum (map (fun x => f x * f x) l) = 0 -> forall x, In x l -> f x = 0.
Proof.
  induction l as [| y l IH]; simpl; intros H x Hin; [contradiction |].
  pose proof (Rle_0_sqr (f y)) as Hy. unfold Rsqr in Hy.
  pose proof (Rsum_squares_nonneg f l) as Hl.
  destruct Hin as [-> | Hin].
  - apply Rsqr_0_uniq. unfold Rsqr. lra.
  - apply IH; [lra | assumption].
Qed.

Lemma INR_length_pos {A : Type} (l : list A) : l <> [] -> 0 < INR (length l).
Proof.
  destruct l; [congruence |]. intros _. apply lt_0_INR. simpl. lia.
Qed.

Lemma Rvar_zero_all_mean (l : list R) :
  l <> [] -> Rvar l = 0 ->
  forall x, In x l -> x = Rsum l / INR (length l).
Proof.
  intros Hne Hv x Hin.
  pose proof (INR_length_pos l Hne) as Hn.
  unfold Rvar in Hv.
  assert (Hs : Rsum (map (fun x => (x - Rsum l / INR (length l))
                                   * (x - Rsum l / INR (length l))) l) = 0).
  { apply Rmult_integral in Hv as [Hv | Hv]; [exact Hv |].
    exfalso. apply Rinv_neq_0_compat in Hv; [exact Hv | lra]. }
  pose proof (Rsum_squares_zero
                (fun x => x - Rsum l / INR (length l)) l Hs x Hin) as Hx.
  simpl in Hx. lra.
Qed.

(** ** [standardize_ts] on a sequence of zero variance *)

Lemma fit_transform_nonempty (X : list R) :
  X <> [] ->
  Sklearn.fit_transform X =
  Ok (map (fun x => (x - Rsum X / INR (length X))
                    / Sklearn.handle_zeros_in_scale (sqrt (Rvar X))) X).
Proof. destruct X; [congruence | reflexivity]. Qed.

Lemma map_all_equal {A B : Type} (f : A -> B) (l : list A) (m : A) :
  (forall x, In x l -> x = m) -> map f l = repeat (f m) (length l).
Proof.
  induction l as [| x l IH]; intros H; [reflexivity |].
  cbn [map length repeat]. rewrite (H x (or_introl eq_refl)).
  f_equal. apply IH. intros y Hy. apply H. now right.
Qed.

(** C4 (amended).  On a non-empty sequence of zero variance,
    [standardize_ts] with no precomputed sequence raises nothing: it returns
    an array of the length of the sequence whose entries are all the same
    value. *)
Theorem standardize_ts_zero_variance (ts : list R) :
  ts <> [] -> Rvar ts = 0 ->
  exists out v,
    Utils.standardize_ts ts None = Ok out /\
    length out = length ts /\ out = repeat v (length ts).
Proof.
  intros Hne Hv. unfold Utils.standardize_ts.
  rewrite fit_transform_nonempty by exact Hne.
  pose proof (Rvar_zero_all_mean ts Hne Hv) as Hall.
  eexists. eexists. split; [reflexivity |].
  split; [apply length_map |].
  apply map_all_equal. exact Hall.
Qed.

Lemma Rvar_constant_pair : Rvar [1; 1] = 0.
Proof. unfold Rvar. simpl. field. Qed.

Lemma standardize_ts_zero_variance_witness :
  exists out,
    Utils.standardize_ts [1; 1] None = Ok out /\ length out = 2%nat.
Proof.
  destruct (standardize_ts_zero_variance [1; 1])
    as (out & v & Hout & Hlen & _).
  - discriminate.
  - exact Rvar_constant_pair.
  - exists out. split; [exact Hout | exact Hlen].
Defined.

(** C4, as stated, fails: the constant sequence [[1; 1]] has zero variance
    and [standardize_ts] raises no error on it. *)
Lemma standardize_ts_zero_variance_no_error :
  Rvar [1; 1] = 0 /\
  forall e, Utils.standardize_ts [1; 1] None <> Raise e.
Proof.
  split; [exact Rvar_constant_pair |].
  intros e. discriminate.
Qed.

(** ** [standardize_ts] on a standardized sequence *)




(** ** Order facts on [num] *)

Lemma nlt_irrefl (a : num) : nlt a a = false.
Proof. destruct a; simpl; try reflexivity. apply Rltb_false. lra. Qed.

Lemma nlt_false_trans (a b c : num) :
  not_nan a -> not_nan b -> not_nan c ->
  nlt b a = false -> nlt c b = false -> nlt c a = false.
Proof.
  unfold not_nan.
  destruct a, b, c; simpl; intros Ha Hb Hc H1 H2;
    try congruence; try reflexivity.
  apply Rltb_false in H1, H2. apply Rltb_false. lra.
Qed.

Lemma nlt_true_false_trans (a b c : num) :
  not_nan a -> not_nan b -> not_nan c ->
  nlt b a = true -> nlt c a = false -> nlt c b = false.
Proof.
  unfold not_nan.
  destruct a, b, c; simpl; intros Ha Hb Hc H1 H2;
    try congruence; try reflexivity.
  apply Rltb_true in H1. apply Rltb_false in H2. apply Rltb_false. lra.
Qed.

(** ** [np.argmin] returns an index of the minimum *)

Lemma argmin_from_spec (l : list num) :
  Forall not_nan l ->
  forall i best bv,
    not_nan bv ->
    (argmin_from i best bv l = best /\
     forall v, In v l -> nlt v bv = false) \/
    (exists k,
        (k < length l)%nat /\ argmin_from i best bv l = (i + k)%nat /\
        nlt (nth k l NaN) bv = true /\
        forall v, In v l -> nlt v (nth k l NaN) = false).
Proof.
  induction 1 as [| v l Hv Hl IH]; intros i best bv Hbv.
  - left. split; [reflexivity | intros v []].
  - simpl argmin_from. destruct (nlt v bv) eqn:E.
    + destruct (IH (S i) i v Hv) as [[Hr Hmin] | (k & Hk & Hr & Hlt & Hmin)].
      * right. exists 0%nat. simpl.
        split; [lia |]. split; [rewrite Hr; lia |]. split.
        -- exact E.
        -- intros w [<- | Hw]; [apply nlt_irrefl | now apply Hmin].
      * right. exists (S k). simpl.
        split; [lia |]. split; [rewrite Hr; lia |]. split.
        -- assert (Hk' : not_nan (nth k l NaN)).
           { eapply Forall_forall; [exact Hl | now apply nth_In]. }
           destruct (nlt (nth k l NaN) bv) eqn:E2; [reflexivity |].
           pose proof (nlt_false_trans _ _ _ Hbv Hk' Hv E2) as Hc.
           assert (Hvk : nlt v (nth k l NaN) = false).
           { destruct (nth k l NaN), v; simpl in *; try congruence;
               try reflexivity.
             apply Rltb_true in Hlt. apply Rltb_false. lra. }
           specialize (Hc Hvk). congruence.
        -- intros w [<- | Hw]; [| now apply Hmin].
           destruct (nth k l NaN), v; simpl in *; try congruence;
             try reflexivity.
           apply Rltb_true in Hlt. apply Rltb_false. lra.
    + destruct (IH (S i) best bv Hbv) as [[Hr Hmin] | (k & Hk & Hr & Hlt & Hmin)].
      * left. split; [exact Hr |].
        intros w [<- | Hw]; [exact E | now apply Hmin].
      * right. exists (S k). simpl.
        split; [lia |]. split; [rewrite Hr; lia |]. split.
        -- exact Hlt.
        -- intros w [<- | Hw]; [| now apply Hmin].
           assert (Hk' : not_nan (nth k l NaN)).
           { eapply Forall_forall; [exact Hl | now apply nth_In]. }
           eapply nlt_true_false_trans; [exact Hbv | exact Hk' | exact Hv | |];
             assumption.
Qed.

Lemma argmin_spec (l : list num) :
  l <> [] -> Forall not_nan l ->
  (argmin l < length l)%nat /\
  forall j, (j < length l)%nat ->
            nlt (nth j l NaN) (nth (argmin l) l NaN) = false.
Proof.
  intros Hne Hl. destruct l as [| v l]; [congruence |].
  inversion Hl as [| ? ? Hv Hl']; subst.
  unfold argmin.
  destruct (argmin_from_spec l Hl' 1 0 v Hv)
    as [[Hr Hmin] | (k & Hk & Hr & Hlt & Hmin)]; rewrite Hr.
  - split; [simpl; lia |].
    intros [| j] Hj; simpl; [apply nlt_irrefl |].
    apply Hmin. apply nth_In. simpl in Hj. lia.
  - split; [simpl; lia |].
    change (nth (1 + k) (v :: l) NaN) with (nth k l NaN).
    intros [| j] Hj; simpl.
    + destruct (nth k l NaN), v; simpl in *; try congruence; try reflexivity.
      apply Rltb_true in Hlt. apply Rltb_false. lra.
    + apply Hmin. apply nth_In. simpl in Hj. lia.
Qed.

(** ** Lists: indexing through [map], [combine] and [seq] *)

Lemma nth_map_lt {A B : Type} (f : A -> B) (l : list A) (i : nat)
    (d : A) (d' : B) :
  (i < length l)%nat -> nth i (map f l) d' = f (nth i l d).
Proof.
  intros Hi. rewrite (nth_indep _ d' (f d)) by now rewrite length_map.
  apply map_nth.
Qed.

Lemma nth_combine_seq {A : Type} (l : list A) (i : nat) (d : A) :
  (i < length l)%nat ->
  nth i (combine l (seq 0 (length l))) (d, 0%nat) = (nth i l d, i).
Proof.
  intros Hi. rewrite combine_nth by now rewrite length_seq.
  now rewrite seq_nth.
Qed.

Lemma map_seq_nth {A : Type} (l : list A) (d : A) :
  map (fun i => nth i l d) (seq 0 (length l)) = l.
Proof.
  apply nth_ext with (d := d) (d' := d).
  - now rewrite length_map, length_seq.
  - intros i Hi. rewrite length_map, length_seq in Hi.
    rewrite (nth_map_lt _ _ _ 0%nat) by now rewrite length_seq.
    now rewrite seq_nth.
Qed.

(** ** The Chebyshev distance *)

Lemma chebyshev_cons (x y : R) (u v : list R) :
  Scipy.chebyshev (x :: u) (y :: v) =
  Rmax (Rabs (x - y)) (Scipy.chebyshev u v).
Proof. reflexivity. Qed.

Lemma chebyshev_nonneg (u v : list R) : 0 <= Scipy.chebyshev u v.
Proof.
  revert v. induction u as [| x u IH]; intros [| y v];
    try (unfold Scipy.chebyshev; simpl; lra).
  rewrite chebyshev_cons. eapply Rle_trans; [apply (IH v) | apply Rmax_r].
Qed.

Lemma chebyshev_sym (u v : list R) :
  Scipy.chebyshev u v = Scipy.chebyshev v u.
Proof.
  revert v. induction u as [| x u IH]; intros [| y v]; try reflexivity.
  rewrite !chebyshev_cons, IH. f_equal. apply Rabs_minus_sym.
Qed.

Lemma chebyshev_refl (u : list R) : Scipy.chebyshev u u = 0.
Proof.
  induction u as [| x u IH]; [reflexivity |].
  rewrite chebyshev_cons, IH, Rminus_diag, Rabs_R0. apply Rmax_left. lra.
Qed.

(** ** The masked distance matrix *)

Lemma isclose_atol_pos : 0 < isclose_atol.
Proof. unfold isclose_atol. lra. Qed.

Lemma mask_close_cases (d : R) :
  0 <= d ->
  (d <= isclose_atol /\ Utils.mask_close d = PInf) \/
  (isclose_atol < d /\ Utils.mask_close d = Fin d).
Proof.
  intros Hd. unfold Utils.mask_close, isclose0.
  rewrite Rminus_0_r, Rabs_pos_eq by exact Hd.
  destruct (Rleb d isclose_atol) eqn:E.
  - left. split; [now apply Rleb_true | reflexivity].
  - right. split; [now apply Rleb_false | reflexivity].
Qed.

Lemma mask_close_zero : Utils.mask_close 0 = PInf.
Proof.
  pose proof isclose_atol_pos.
  destruct (mask_close_cases 0) as [[_ H0] | [H0 _]]; [lra | exact H0 | lra].
Qed.

Lemma mask_close_not_nan (d : R) : not_nan (Utils.mask_close d).
Proof.
  unfold Utils.mask_close, not_nan. destruct (isclose0 (Fin d)); discriminate.
Qed.

Lemma nn_dist_mat_length (metric : list R -> list R -> R)
    (embed : list (list R)) :
  length (Utils.nn_dist_mat metric embed) = length embed.
Proof. unfold Utils.nn_dist_mat, Scipy.cdist. now rewrite !length_map. Qed.

Lemma nn_dist_mat_row (metric : list R -> list R -> R)
    (embed : list (list R)) (i : nat) :
  (i < length embed)%nat ->
  nth i (Utils.nn_dist_mat metric embed) [] =
  map (fun v => Utils.mask_close (metric (nth i embed []) v)) embed.
Proof.
  intros Hi. unfold Utils.nn_dist_mat, Scipy.cdist.
  rewrite map_map. rewrite (nth_map_lt _ _ _ []) by exact Hi.
  now rewrite map_map.
Qed.

Lemma nn_dist_mat_entry (metric : list R -> list R -> R)
    (embed : list (list R)) (i j : nat) :
  (i < length embed)%nat -> (j < length embed)%nat ->
  nth j (nth i (Utils.nn_dist_mat metric embed) []) NaN =
  Utils.mask_close (metric (nth i embed []) (nth j embed [])).
Proof.
  intros Hi Hj. rewrite nn_dist_mat_row by exact Hi.
  now rewrite (nth_map_lt _ _ _ []) by exact Hj.
Qed.

(** ** What [nn] returns *)

Lemma nn_spec (metric : list R -> list R -> R) (embed : list (list R))
    (nn_inds : list nat) (dist : list num) :
  Utils.nn metric embed = Ok (nn_inds, dist) ->
  length nn_inds = length embed /\
  length dist = length embed /\
  forall i, (i < length embed)%nat ->
    let a := nth i nn_inds 0%nat in
    (a < length embed)%nat /\
    nth i dist NaN =
      Utils.mask_close (metric (nth a embed []) (nth i embed [])) /\
    forall j, (j < length embed)%nat ->
      nlt (Utils.mask_close (metric (nth i embed []) (nth j embed [])))
          (Utils.mask_close (metric (nth i embed []) (nth a embed [])))
      = false.
Proof.
  unfold Utils.nn. destruct embed as [| r0 rest] eqn:He; [discriminate |].
  rewrite <- He. intros H. inversion H as [[Hinds Hdist]]. clear H.
  assert (Hne : embed <> []) by (rewrite He; discriminate).
  clear He r0 rest.
  assert (Hlen : length (map argmin (Utils.nn_dist_mat metric embed))
                 = length embed)
    by now rewrite length_map, nn_dist_mat_length.
  split; [exact Hlen |].
  split; [now rewrite length_map, length_combine, length_seq, Nat.min_id |].
  intros i Hi.
  set (a := nth i (map argmin (Utils.nn_dist_mat metric embed)) 0%nat).
  assert (Ha : a = argmin (map (fun v => Utils.mask_close
                                            (metric (nth i embed []) v)) embed)).
  { unfold a. rewrite (nth_map_lt _ _ _ [])
      by now rewrite nn_dist_mat_length.
    now rewrite nn_dist_mat_row. }
  set (row := map (fun v => Utils.mask_close (metric (nth i embed []) v))
                  embed) in *.
  assert (Hrow_len : length row = length embed) by apply length_map.
  destruct (argmin_spec row) as [Hlt Hmin].
  { intros Hnil. apply Hne. apply length_zero_iff_nil.
    rewrite <- Hrow_len, Hnil. reflexivity. }
  { apply Forall_forall. intros v Hv. apply in_map_iff in Hv as [u [<- _]].
    apply mask_close_not_nan. }
  rewrite <- Ha, Hrow_len in Hlt.
  split; [exact Hlt |]. split.
  - rewrite (nth_map_lt _ _ _ (0%nat, 0%nat))
      by now rewrite length_combine, length_seq, Nat.min_id, Hlen.
    rewrite nth_combine_seq by now rewrite Hlen.
    simpl fst; simpl snd. fold a.
    now apply nn_dist_mat_entry.
  - intros j Hj. specialize (Hmin j). rewrite Hrow_len in Hmin.
    specialize (Hmin Hj). rewrite <- Ha in Hmin. unfold row in Hmin.
    now rewrite !(nth_map_lt _ _ _ []) in Hmin by assumption.
Qed.

(** ** The nearest neighbour of a point that has a distinct point *)

Lemma nn_far_neighbour (embed : list (list R)) (nn_inds : list nat)
    (dist : list num) (i : nat) :
  Utils.nn Scipy.chebyshev embed = Ok (nn_inds, dist) ->
  (i < length embed)%nat ->
  (exists j, (j < length embed)%nat /\
             isclose_atol < Scipy.chebyshev (nth i embed []) (nth j embed [])) ->
  (nth i nn_inds 0 < length embed)%nat /\
  nth i nn_inds 0%nat <> i /\
  nth i dist NaN =
    Fin (Scipy.chebyshev (nth i embed []) (nth (nth i nn_inds 0%nat) embed [])) /\
  isclose_atol <
    Scipy.chebyshev (nth i embed []) (nth (nth i nn_inds 0%nat) embed []) /\
  forall j, (j < length embed)%nat ->
    isclose_atol < Scipy.chebyshev (nth i embed []) (nth j embed []) ->
    Scipy.chebyshev (nth i embed []) (nth (nth i nn_inds 0%nat) embed [])
    <= Scipy.chebyshev (nth i embed []) (nth j embed []).
Proof.
  intros Hnn Hi (j0 & Hj0 & Hfar).
  destruct (nn_spec _ _ _ _ Hnn) as (_ & _ & Hrow).
  destruct (Hrow i Hi) as (Ha & Hd & Hmin). clear Hrow.
  set (a := nth i nn_inds 0%nat) in *.
  set (ri := nth i embed []) in *.
  assert (Hda : isclose_atol < Scipy.chebyshev ri (nth a embed [])
                /\ Utils.mask_close (Scipy.chebyshev ri (nth a embed []))
                   = Fin (Scipy.chebyshev ri (nth a embed []))).
  { destruct (mask_close_cases _ (chebyshev_nonneg ri (nth a embed [])))
      as [[_ Hinf] | H]; [| exact H].
    exfalso. specialize (Hmin j0 Hj0). rewrite Hinf in Hmin.
    destruct (mask_close_cases _ (chebyshev_nonneg ri (nth j0 embed [])))
      as [[Hle _] | [_ Hfin]]; [lra |].
    rewrite Hfin in Hmin. discriminate. }
  destruct Hda as [Hgt Hfin].
  split; [exact Ha |]. split.
  - intros Heq. rewrite Heq in Hgt. unfold ri in Hgt.
    rewrite chebyshev_refl in Hgt. pose proof isclose_atol_pos. lra.
  - split; [now rewrite Hd, chebyshev_sym, Hfin |].
    split; [exact Hgt |].
    intros j Hj Hjfar. specialize (Hmin j Hj). rewrite Hfin in Hmin.
    destruct (mask_close_cases _ (chebyshev_nonneg ri (nth j embed [])))
      as [[Hle _] | [_ Hjfin]]; [lra |].
    rewrite Hjfin in Hmin. simpl in Hmin. now apply Rltb_false in Hmin.
Qed.

(** C3 (amended).  For every row [i] that has some row farther than the
    [np.isclose] tolerance [1e-8] (Chebyshev metric), [nn] returns an index
    [nn_inds[i] <> i] of a row farther than [1e-8], with its distance, and
    no row farther than [1e-8] is nearer: rows within [1e-8] of row [i],
    exact duplicates included, are skipped. *)
Theorem nn_skips_close_points (embed : list (list R)) (i : nat) :
  (i < length embed)%nat ->
  (exists j, (j < length embed)%nat /\
             isclose_atol < Scipy.chebyshev (nth i embed []) (nth j embed [])) ->
  exists nn_inds dist,
    Utils.nn Scipy.chebyshev embed = Ok (nn_inds, dist) /\
    (nth i nn_inds 0 < length embed)%nat /\
    nth i nn_inds 0%nat <> i /\
    nth i dist NaN =
      Fin (Scipy.chebyshev (nth i embed []) (nth (nth i nn_inds 0%nat) embed [])) /\
    isclose_atol <
      Scipy.chebyshev (nth i embed []) (nth (nth i nn_inds 0%nat) embed []) /\
    forall j, (j < length embed)%nat ->
      isclose_atol < Scipy.chebyshev (nth i embed []) (nth j embed []) ->
      Scipy.chebyshev (nth i embed []) (nth (nth i nn_inds 0%nat) embed [])
      <= Scipy.chebyshev (nth i embed []) (nth j embed []).
Proof.
  intros Hi Hfar.
  destruct (nn_ok Scipy.chebyshev embed) as [[nn_inds dist] Hnn].
  { intros ->. simpl in Hi. lia. }
  exists nn_inds, dist. split; [exact Hnn |].
  now apply nn_far_neighbour.
Qed.

Lemma chebyshev_0_1 : Scipy.chebyshev [0] [1] = 1.
Proof. unfold Scipy.chebyshev. simpl. real_eval. Qed.

Lemma nn_skips_close_points_witness :
  exists nn_inds dist,
    Utils.nn Scipy.chebyshev [[0]; [1]] = Ok (nn_inds, dist) /\
    nth 0 nn_inds 0%nat <> 0%nat.
Proof.
  destruct (nn_skips_close_points [[0]; [1]] 0) as (ni & di & H1 & _ & H2 & _).
  - simpl. lia.
  - exists 1%nat. split; [simpl; lia |].
    simpl nth. rewrite chebyshev_0_1. unfold isclose_atol. lra.
  - exists ni, di. split; assumption.
Defined.

(** C3, as stated, fails: in the matrix of the two equal rows [[1]] and
    [[1]] every distance is masked, [np.argmin] answers 0 on both rows, and
    the neighbour returned for row 0 is row 0 itself. *)
Lemma nn_all_duplicates_returns_self :
  Utils.nn Scipy.chebyshev [[1]; [1]] = Ok ([0%nat; 0%nat], [PInf; PInf]) /\
  length [[1]; [1]] = 2%nat /\
  nth 0 [0%nat; 0%nat] 0%nat = 0%nat.
Proof.
  split; [| split; reflexivity].
  unfold Utils.nn, Utils.nn_dist_mat, Scipy.cdist. cbn [map].
  rewrite !chebyshev_refl, !mask_close_zero. reflexivity.
Qed.

(** ** The vectorised steps of the loops, index by index *)

Lemma drop_col0_length (emb : list (list R)) :
  length (Utils.drop_col0 emb) = length emb.
Proof. apply length_map. Qed.

Lemma drop_col0_nth (emb : list (list R)) (i : nat) :
  nth i (Utils.drop_col0 emb) [] = tl (nth i emb []).
Proof. unfold Utils.drop_col0. apply (map_nth (@tl R) emb [] i). Qed.

Lemma col0_nth (emb : list (list R)) (i : nat) :
  nth i (Utils.col0 emb) 0 = hd 0 (nth i emb []).
Proof. unfold Utils.col0. apply (map_nth (fun r => hd 0 r) emb [] i). Qed.

Lemma abs_diff_col0_length (emb : list (list R)) (nn_inds : list nat) :
  length nn_inds = length emb ->
  length (Utils.abs_diff_col0 emb nn_inds) = length emb.
Proof.
  intros H. unfold Utils.abs_diff_col0, Utils.col0.
  rewrite length_map, length_combine, length_map, H. apply Nat.min_id.
Qed.

Lemma abs_diff_col0_nth (emb : list (list R)) (nn_inds : list nat) (i : nat) :
  length nn_inds = length emb -> (i < length emb)%nat ->
  nth i (Utils.abs_diff_col0 emb nn_inds) 0 = extra_diff emb nn_inds i.
Proof.
  intros Hlen Hi. unfold Utils.abs_diff_col0, extra_diff.
  assert (Hc : length (Utils.col0 emb) = length nn_inds)
    by (unfold Utils.col0; now rewrite length_map).
  rewrite (nth_map_lt _ _ _ (0, 0%nat))
    by (rewrite length_combine, Hc, Nat.min_id; lia).
  rewrite combine_nth by exact Hc. simpl fst; simpl snd.
  now rewrite !col0_nth.
Qed.

Lemma dist_next_of_length (dist_cur : list num) (abs_diff : list R) :
  length dist_cur = length abs_diff ->
  length (Utils.dist_next_of dist_cur abs_diff) = length dist_cur.
Proof.
  intros H. unfold Utils.dist_next_of.
  rewrite length_map, length_combine, <- H. apply Nat.min_id.
Qed.

Lemma dist_next_of_nth (dist_cur : list num) (abs_diff : list R) (i : nat) :
  length dist_cur = length abs_diff -> (i < length dist_cur)%nat ->
  nth i (Utils.dist_next_of dist_cur abs_diff) NaN =
  maximum (nth i dist_cur NaN) (Fin (nth i abs_diff 0)).
Proof.
  intros Hlen Hi. unfold Utils.dist_next_of.
  rewrite (nth_map_lt _ _ _ (NaN, 0))
    by (rewrite length_combine, <- Hlen, Nat.min_id; lia).
  now rewrite combine_nth by exact Hlen.
Qed.

Lemma maximum_Fin (x y : R) : maximum (Fin x) (Fin y) = Fin (Rmax x y).
Proof.
  simpl. destruct (Rltb x y) eqn:E.
  - apply Rltb_true in E. rewrite Rmax_right by lra. reflexivity.
  - apply Rltb_false in E. rewrite Rmax_left by lra. reflexivity.
Qed.

(** ** The reused distance of [embed_dim_cao] *)

Lemma embed_ts_row_cons (s : list R) (lag dim : Z) (emb : list (list R))
    (i : nat) :
  Embed.embed_ts s lag dim = Ok emb -> (i < length emb)%nat ->
  nth i emb [] = hd 0 (nth i emb []) :: tl (nth i emb []).
Proof.
  intros He Hi. apply embed_ts_ok_rows in He as (Hd & _ & _ & Hrows).
  assert (Hl : length (nth i emb []) = Z.to_nat dim).
  { eapply Forall_forall in Hrows; [exact Hrows | now apply nth_In]. }
  destruct (nth i emb []); [simpl in Hl; lia | reflexivity].
Qed.

(** C5 (amended).  At a candidate dimension [d] that embeds, for every point
    [i] that has a point farther than [1e-8] in the [d]-dimensional
    embedding, the distance [dist_next[i] = max(dist_cur[i], |extra
    coordinate difference|)] is the Chebyshev distance, computed on the
    whole rows of the [(d+1)]-dimensional embedding, between point [i] and
    the neighbour found for it in the [d]-dimensional embedding. *)
Theorem cao_dist_next_is_chebyshev
    (s : list R) (lag d : Z) (emb_next : list (list R))
    (nn_inds : list nat) (dist_cur : list num) (i : nat) :
  Embed.embed_ts s lag (d + 1) = Ok emb_next ->
  Utils.nn Scipy.chebyshev (Utils.drop_col0 emb_next) = Ok (nn_inds, dist_cur) ->
  (i < length emb_next)%nat ->
  (exists j, (j < length emb_next)%nat /\
             isclose_atol <
             Scipy.chebyshev (nth i (Utils.drop_col0 emb_next) [])
                             (nth j (Utils.drop_col0 emb_next) [])) ->
  nth i (Utils.dist_next_of dist_cur (Utils.abs_diff_col0 emb_next nn_inds)) NaN
  = Fin (Scipy.chebyshev (nth i emb_next [])
                         (nth (nth i nn_inds 0%nat) emb_next [])).
Proof.
  intros He Hnn Hi Hfar.
  pose proof (drop_col0_length emb_next) as Hdl.
  destruct (nn_spec _ _ _ _ Hnn) as (Hli & Hld & _).
  rewrite Hdl in Hli, Hld.
  destruct (nn_far_neighbour (Utils.drop_col0 emb_next) nn_inds dist_cur i Hnn)
    as (Ha & _ & Hd & _).
  { now rewrite Hdl. }
  { destruct Hfar as (j & Hj & Hgt). exists j. now rewrite Hdl. }
  rewrite Hdl in Ha.
  pose proof (abs_diff_col0_length emb_next nn_inds Hli) as Hal.
  rewrite dist_next_of_nth by lia.
  rewrite abs_diff_col0_nth by assumption.
  rewrite Hd, !drop_col0_nth, maximum_Fin.
  pose proof (embed_ts_row_cons _ _ _ _ i He Hi) as Hri.
  pose proof (embed_ts_row_cons _ _ _ _ (nth i nn_inds 0%nat) He Ha) as Hra.
  unfold extra_diff.
  destruct (nth i emb_next []) as [| x u]; [discriminate |].
  destruct (nth (nth i nn_inds 0%nat) emb_next []) as [| y v];
    [discriminate |].
  rewrite chebyshev_cons. simpl hd; simpl tl. apply f_equal, Rmax_comm.
Qed.

Lemma chebyshev_1_3 : Scipy.chebyshev [1] [3] = 2.
Proof. unfold Scipy.chebyshev. simpl. real_eval. Qed.

Lemma cao_dist_next_is_chebyshev_witness :
  exists nn_inds dist_cur,
    Utils.nn Scipy.chebyshev (Utils.drop_col0 [[0; 1]; [1; 3]])
    = Ok (nn_inds, dist_cur) /\
    nth 0 (Utils.dist_next_of dist_cur
             (Utils.abs_diff_col0 [[0; 1]; [1; 3]] nn_inds)) NaN
    = Fin (Scipy.chebyshev (nth 0 [[0; 1]; [1; 3]] [])
                           (nth (nth 0 nn_inds 0%nat) [[0; 1]; [1; 3]] [])).
Proof.
  eexists. eexists. split; [reflexivity |].
  apply (cao_dist_next_is_chebyshev [0; 1; 3] 1 1 [[0; 1]; [1; 3]] _ _ 0).
  - reflexivity.
  - reflexivity.
  - simpl. lia.
  - exists 1%nat. split; [simpl; lia |].
    change (isclose_atol < Scipy.chebyshev [1] [3]).
    rewrite chebyshev_1_3. unfold isclose_atol. lra.
Defined.

Lemma chebyshev_00_10 : Scipy.chebyshev [0; 0] [1; 0] = 1.
Proof. unfold Scipy.chebyshev. simpl. real_eval. Qed.

(** C5, as stated, fails: in the embedding of [[1; 0; 0]] with lag 1 at
    [d = 1] the two points of the 1-dimensional embedding coincide, the
    distance that [nn] reports is the masked entry [inf], the recursion
    keeps [inf], and the Chebyshev distance of point 1 to its neighbour in
    the 2-dimensional embedding is 1. *)
Lemma cao_dist_next_masked_row :
  Embed.embed_ts [1; 0; 0] 1 (1 + 1) = Ok [[1; 0]; [0; 0]] /\
  Utils.nn Scipy.chebyshev (Utils.drop_col0 [[1; 0]; [0; 0]])
  = Ok ([0%nat; 0%nat], [PInf; PInf]) /\
  nth 1 (Utils.dist_next_of [PInf; PInf]
           (Utils.abs_diff_col0 [[1; 0]; [0; 0]] [0%nat; 0%nat])) NaN = PInf /\
  Scipy.chebyshev (nth 1 [[1; 0]; [0; 0]] [])
                  (nth (nth 1 [0%nat; 0%nat] 0%nat) [[1; 0]; [0; 0]] []) = 1 /\
  PInf <> Fin 1.
Proof.
  split; [reflexivity |]. split.
  { unfold Utils.nn, Utils.nn_dist_mat, Scipy.cdist, Utils.drop_col0.
    cbn [map tl]. rewrite !chebyshev_refl, !mask_close_zero. reflexivity. }
  split; [reflexivity |]. split; [| discriminate].
  simpl nth. apply chebyshev_00_10.
Qed.

(** ** Arrays: item assignment, slices, elementwise operations *)

Lemma set_item_length {A : Type} (i : nat) (v : A) (a : list A) :
  length (set_item i v a) = length a.
Proof.
  revert i. induction a as [| x a IH]; intros [| i]; simpl; auto.
Qed.

Lemma set_item_nth_same {A : Type} (i : nat) (v d : A) (a : list A) :
  (i < length a)%nat -> nth i (set_item i v a) d = v.
Proof.
  revert i. induction a as [| x a IH]; intros [| i] Hi; simpl in *;
    try lia; [reflexivity | apply IH; lia].
Qed.

Lemma set_item_nth_other {A : Type} (i j : nat) (v d : A) (a : list A) :
  i <> j -> nth j (set_item i v a) d = nth j a d.
Proof.
  revert i j. induction a as [| x a IH]; intros [| i] [| j] Hij; simpl;
    try reflexivity; try congruence.
  apply IH. congruence.
Qed.

Lemma map_pointwise {A C : Type} (f : A -> C) (g : nat -> C)
    (la : list A) (da : A) :
  (forall i, (i < length la)%nat -> f (nth i la da) = g i) ->
  map f la = map g (seq 0 (length la)).
Proof.
  intros H. rewrite <- (map_seq_nth la da) at 1. rewrite map_map.
  apply map_ext_in. intros i Hi. apply in_seq in Hi. apply H. lia.
Qed.

Lemma map_combine_pointwise {A B C : Type} (f : A * B -> C) (g : nat -> C)
    (la : list A) (lb : list B) (da : A) (db : B) :
  length la = length lb ->
  (forall i, (i < length la)%nat -> f (nth i la da, nth i lb db) = g i) ->
  map f (combine la lb) = map g (seq 0 (length la)).
Proof.
  intros Hlen H.
  assert (Hc : length (combine la lb) = length la)
    by (rewrite length_combine, <- Hlen; apply Nat.min_id).
  rewrite <- Hc. apply (map_pointwise f g _ (da, db)).
  intros i Hi. rewrite combine_nth by exact Hlen. apply H. lia.
Qed.

Lemma removelast_length {A : Type} (a : list A) :
  length (removelast a) = pred (length a).
Proof.
  induction a as [| x [| y a] IH]; try reflexivity.
  change (removelast (x :: y :: a)) with (x :: removelast (y :: a)).
  simpl length in *. now rewrite IH.
Qed.

Lemma removelast_nth {A : Type} (a : list A) (i : nat) (d : A) :
  (S i < length a)%nat -> nth i (removelast a) d = nth i a d.
Proof.
  revert i. induction a as [| x [| y a] IH]; intros i Hi;
    try (simpl in Hi; lia).
  change (removelast (x :: y :: a)) with (x :: removelast (y :: a)).
  destruct i as [| i]; [reflexivity |].
  change (nth i (removelast (y :: a)) d = nth i (y :: a) d).
  apply IH. simpl in *. lia.
Qed.

Lemma tl_nth {A : Type} (a : list A) (i : nat) (d : A) :
  nth i (tl a) d = nth (S i) a d.
Proof. destruct a; [now destruct i | reflexivity]. Qed.

Lemma ratio_next_length (a : list num) :
  length (Utils.ratio_next a) = pred (length a).
Proof.
  unfold Utils.ratio_next.
  rewrite length_map, length_combine, removelast_length.
  destruct a; simpl; [reflexivity | apply Nat.min_id].
Qed.

Lemma ratio_next_nth (a : list num) (i : nat) :
  (S i < length a)%nat ->
  nth i (Utils.ratio_next a) NaN = ndiv (nth (S i) a NaN) (nth i a NaN).
Proof.
  intros Hi. unfold Utils.ratio_next.
  assert (Hl : length (tl a) = length (removelast a)).
  { rewrite removelast_length. now destruct a. }
  rewrite (nth_map_lt _ _ _ (NaN, NaN)).
  - rewrite combine_nth by exact Hl. simpl fst; simpl snd.
    now rewrite tl_nth, removelast_nth.
  - rewrite length_combine, Hl, Nat.min_id, removelast_length. lia.
Qed.

(** ** The statistics of the estimators, point by point *)

Lemma abs_diff_col0_pointwise (emb : list (list R)) (nn_inds : list nat) :
  length nn_inds = length emb ->
  Utils.abs_diff_col0 emb nn_inds =
  map (extra_diff emb nn_inds) (seq 0 (length emb)).
Proof.
  intros Hlen.
  rewrite <- (abs_diff_col0_length emb nn_inds Hlen).
  transitivity (map (fun x => x) (Utils.abs_diff_col0 emb nn_inds));
    [symmetry; apply map_id |].
  apply (map_pointwise (fun x => x) _ _ 0).
  intros i Hi. rewrite abs_diff_col0_length in Hi by exact Hlen.
  now apply abs_diff_col0_nth.
Qed.

Section OneDimension.

Variables (emb : list (list R)) (nn_inds : list nat) (dist_d : list num).
Hypothesis inds_length : length nn_inds = length emb.
Hypothesis dist_length : length dist_d = length emb.

Lemma dist_next_pointwise (i : nat) :
  (i < length emb)%nat ->
  nth i (Utils.dist_next_of dist_d (Utils.abs_diff_col0 emb nn_inds)) NaN
  = dist_succ emb nn_inds dist_d i.
Proof.
  intros Hi. unfold dist_succ.
  pose proof (abs_diff_col0_length emb nn_inds inds_length) as Hal.
  rewrite dist_next_of_nth by lia.
  now rewrite abs_diff_col0_nth.
Qed.

Lemma fnn_rate_pointwise (rtol atol : R) (ts_std : num) :
  Utils.fnn_rate rtol atol ts_std emb nn_inds dist_d =
  mean_bool (map (false_neighbour rtol atol ts_std emb nn_inds dist_d)
                 (seq 0 (length emb))).
Proof.
  unfold Utils.fnn_rate. f_equal.
  pose proof (abs_diff_col0_length emb nn_inds inds_length) as Hal.
  assert (Hnl : length (Utils.dist_next_of dist_d
                          (Utils.abs_diff_col0 emb nn_inds)) = length emb)
    by (rewrite dist_next_of_length; lia).
  set (c1 := map _ (combine dist_d _)).
  set (c2 := map _ (Utils.dist_next_of _ _)).
  assert (H1 : length c1 = length emb).
  { unfold c1. rewrite length_map, length_combine, Hal, dist_length.
    apply Nat.min_id. }
  assert (H2 : length c2 = length emb) by (unfold c2; now rewrite length_map).
  rewrite <- H1.
  apply (map_combine_pointwise _ _ c1 c2 false false); [lia |].
  intros i Hi. rewrite H1 in Hi. simpl fst; simpl snd.
  unfold false_neighbour. f_equal.
  - unfold c1. rewrite (nth_map_lt _ _ _ (NaN, 0))
      by (rewrite length_combine, Hal, dist_length, Nat.min_id; lia).
    rewrite combine_nth by lia. simpl fst; simpl snd.
    unfold Utils.crit_1. now rewrite abs_diff_col0_nth.
  - unfold c2. rewrite (nth_map_lt _ _ _ NaN) by lia.
    unfold Utils.crit_2. now rewrite dist_next_pointwise.
Qed.

Lemma cao_ed_pointwise :
  Utils.cao_ed emb nn_inds dist_d =
  mean (map (fun i => ndiv (dist_succ emb nn_inds dist_d i) (nth i dist_d NaN))
            (seq 0 (length emb))).
Proof.
  unfold Utils.cao_ed. f_equal.
  pose proof (abs_diff_col0_length emb nn_inds inds_length) as Hal.
  assert (Hnl : length (Utils.dist_next_of dist_d
                          (Utils.abs_diff_col0 emb nn_inds)) = length emb)
    by (rewrite dist_next_of_length; lia).
  rewrite <- Hnl.
  apply (map_combine_pointwise _ _ _ _ NaN NaN); [lia |].
  intros i Hi. rewrite Hnl in Hi. simpl fst; simpl snd.
  now rewrite dist_next_pointwise.
Qed.

Lemma cao_ed_star_pointwise :
  Utils.cao_ed_star emb nn_inds =
  Rmean (map (extra_diff emb nn_inds) (seq 0 (length emb))).
Proof.
  unfold Utils.cao_ed_star. now rewrite abs_diff_col0_pointwise.
Qed.

End OneDimension.

Lemma neighbours_at_embedded (s : list R) (lag d : Z) (emb : list (list R)) :
  Embed.embed_ts s lag (d + 1) = Ok emb ->
  exists nn_inds dist_d,
    Utils.nn Scipy.chebyshev (Utils.drop_col0 emb) = Ok (nn_inds, dist_d) /\
    neighbours_at s lag d = Some (emb, nn_inds, dist_d) /\
    length nn_inds = length emb /\ length dist_d = length emb.
Proof.
  intros He.
  destruct (nn_ok Scipy.chebyshev (Utils.drop_col0 emb)) as [[ni di] Hnn].
  { apply drop_col0_nonempty. eapply embed_ts_ok_nonempty; eauto. }
  exists ni, di. split; [exact Hnn |].
  unfold neighbours_at. rewrite He, Hnn. split; [reflexivity |].
  destruct (nn_spec _ _ _ _ Hnn) as (H1 & H2 & _).
  now rewrite drop_col0_length in H1, H2.
Qed.

(** ** The loop of [embed_dim_fnn] when every dimension embeds *)

Lemma fnn_loop_success (s : list R) (lag : Z) (rtol atol : R) (ts_std : num)
    (dims : list Z) :
  Forall (embeds s lag) dims ->
  forall ind fnn_prop,
    length fnn_prop = (ind + length dims)%nat ->
    exists out,
      Utils.fnn_loop s lag rtol atol ts_std ind dims fnn_prop = Ok out /\
      length out = length fnn_prop /\
      (forall j, (j < ind)%nat -> nth j out NaN = nth j fnn_prop NaN) /\
      (forall k, (k < length dims)%nat ->
                 nth (ind + k) out NaN =
                 false_neighbour_rate rtol atol ts_std s lag (nth k dims 0%Z)).
Proof.
  induction 1 as [| d dims [emb He] _ IH]; intros ind prop Hlen.
  - exists prop. simpl. repeat split; auto. intros k Hk. lia.
  - simpl Utils.fnn_loop. rewrite He.
    destruct (neighbours_at_embedded s lag d emb He)
      as (ni & di & Hnn & Hnb & Hli & Hld).
    rewrite Hnn. simpl bind. simpl fst; simpl snd.
    destruct (IH (S ind) (set_item ind (Utils.fnn_rate rtol atol ts_std emb ni di)
                                   prop))
      as (out & Hout & Hol & Hpre & Hpost).
    { rewrite set_item_length. simpl in Hlen. lia. }
    exists out. split; [exact Hout |].
    rewrite set_item_length in Hol. split; [exact Hol |]. split.
    + intros j Hj. rewrite Hpre by lia. apply set_item_nth_other. lia.
    + intros [| k] Hk.
      * rewrite Nat.add_0_r, Hpre by lia.
        rewrite set_item_nth_same by (simpl in Hlen; lia).
        simpl nth. unfold false_neighbour_rate. rewrite Hnb.
        now apply fnn_rate_pointwise.
      * replace (ind + S k)%nat with (S ind + k)%nat by lia.
        rewrite Hpost by (simpl in Hk; lia). reflexivity.
Qed.

(** ** The loop of [embed_dim_cao] when every dimension embeds *)

Lemma cao_loop_success (s : list R) (lag : Z) (dims : list Z) :
  Forall (embeds s lag) dims ->
  forall ind ed ed_star,
    length ed = (ind + length dims)%nat ->
    length ed_star = (ind + length dims)%nat ->
    exists ed' ed_star',
      Utils.cao_loop s lag ind dims ed ed_star = Ok (ed', ed_star') /\
      length ed' = length ed /\ length ed_star' = length ed_star /\
      (forall j, (j < ind)%nat ->
                 nth j ed' NaN = nth j ed NaN /\
                 nth j ed_star' NaN = nth j ed_star NaN) /\
      (forall k, (k < length dims)%nat ->
                 nth (ind + k) ed' NaN = cao_E s lag (nth k dims 0%Z) /\
                 nth (ind + k) ed_star' NaN
                 = cao_E_star s lag (nth k dims 0%Z)).
Proof.
  induction 1 as [| d dims [emb He] _ IH]; intros ind ed es Hle Hls.
  - exists ed, es. simpl. repeat split; auto; intros; lia.
  - simpl Utils.cao_loop. rewrite He.
    destruct (neighbours_at_embedded s lag d emb He)
      as (ni & di & Hnn & Hnb & Hli & Hld).
    rewrite Hnn. simpl bind. simpl fst; simpl snd.
    destruct (IH (S ind) (set_item ind (Utils.cao_ed emb ni di) ed)
                 (set_item ind (Utils.cao_ed_star emb ni) es))
      as (ed' & es' & Hout & Hol & Hsl & Hpre & Hpost).
    { rewrite set_item_length. simpl in Hle. lia. }
    { rewrite set_item_length. simpl in Hls. lia. }
    exists ed', es'. split; [exact Hout |].
    rewrite set_item_length in Hol, Hsl.
    split; [exact Hol |]. split; [exact Hsl |]. split.
    + intros j Hj. destruct (Hpre j) as [H1 H2]; [lia |].
      rewrite H1, H2. split; apply set_item_nth_other; lia.
    + intros [| k] Hk.
      * rewrite Nat.add_0_r. destruct (Hpre ind) as [H1 H2]; [lia |].
        rewrite H1, H2.
        rewrite !set_item_nth_same by (simpl in Hle, Hls; lia).
        simpl nth. unfold cao_E, cao_E_star. rewrite Hnb.
        split; [now apply cao_ed_pointwise | now apply cao_ed_star_pointwise].
      * replace (ind + S k)%nat with (S ind + k)%nat by lia.
        apply Hpost. simpl in Hk. lia.
Qed.

Lemma fill_from_length {A : Type} (i : nat) (v : A) (a : list A) :
  length (fill_from i v a) = length a.
Proof.
  unfold fill_from. rewrite length_app, length_firstn, repeat_length. lia.
Qed.

Lemma fill_from_nth {A : Type} (i j : nat) (v d : A) (a : list A) :
  (i <= j < length a)%nat -> nth j (fill_from i v a) d = v.
Proof.
  intros Hj. unfold fill_from.
  rewrite app_nth2 by (rewrite length_firstn; lia).
  apply nth_repeat_lt. rewrite length_firstn. lia.
Qed.

(** The failure path of [embed_dim_cao]: from the first dimension that does
    not embed on, [ed] and [ed_star] hold NaN, and the loop returns. *)
Lemma cao_loop_failure (s : list R) (lag : Z) (pre : list Z) (d : Z)
    (post : list Z) :
  Forall (embeds s lag) pre ->
  Embed.embed_ts s lag (d + 1) = Raise ValueError ->
  forall ind ed ed_star,
    length ed = (ind + length (pre ++ d :: post))%nat ->
    length ed_star = (ind + length (pre ++ d :: post))%nat ->
    exists ed' ed_star',
      Utils.cao_loop s lag ind (pre ++ d :: post) ed ed_star
      = Ok (ed', ed_star') /\
      length ed' = length ed /\ length ed_star' = length ed_star /\
      forall j, (ind + length pre <= j < length ed)%nat ->
                nth j ed' (Fin 0) = NaN /\ nth j ed_star' (Fin 0) = NaN.
Proof.
  intros Hpre Hd. induction Hpre as [| d' pre [emb He] _ IH];
    intros ind ed es Hle Hls.
  - cbn [app Utils.cao_loop]. rewrite Hd.
    exists (fill_from ind NaN ed), (fill_from ind NaN es).
    rewrite !fill_from_length.
    split; [reflexivity |]. split; [reflexivity |]. split; [reflexivity |].
    intros j Hj. simpl in Hj. split; apply fill_from_nth; lia.
  - cbn [app Utils.cao_loop]. rewrite He.
    destruct (neighbours_at_embedded s lag d' emb He)
      as (ni & di & Hnn & _).
    rewrite Hnn. cbn [bind fst snd].
    destruct (IH (S ind) (set_item ind (Utils.cao_ed emb ni di) ed)
                 (set_item ind (Utils.cao_ed_star emb ni) es))
      as (ed' & es' & Hout & Hol & Hsl & Hnan).
    { rewrite set_item_length. simpl in Hle |- *. lia. }
    { rewrite set_item_length. simpl in Hls |- *. lia. }
    exists ed', es'. rewrite set_item_length in Hol, Hsl, Hnan.
    split; [exact Hout |]. split; [exact Hol |]. split; [exact Hsl |].
    intros j Hj. apply Hnan. simpl in Hj. lia.
Qed.

(** On the inputs on which [embed_dim_fnn] ends with [NameError],
    [embed_dim_cao] returns: the ratios that involve a dimension that does
    not embed are NaN. *)
Lemma embed_dim_cao_failure_returns
    (ts : list R) (lag : Z) (dims : Utils.dims_arg)
    (ts_scaled : option (list R)) (s : list R)
    (pre : list Z) (d : Z) (post : list Z) :
  (0 < lag)%Z ->
  Utils.standardize_ts ts ts_scaled = Ok s ->
  Utils.resolve_dims dims = pre ++ d :: post ->
  Forall (embeds s lag) pre ->
  Embed.embed_ts s lag (d + 1) = Raise ValueError ->
  exists e1 e2,
    Utils.embed_dim_cao ts lag dims ts_scaled = Ok (e1, e2) /\
    length e1 = (length pre + length post)%nat /\
    length e2 = (length pre + length post)%nat /\
    forall j, (length pre <= S j)%nat -> (j < length pre + length post)%nat ->
              nth j e1 (Fin 0) = NaN /\ nth j e2 (Fin 0) = NaN.
Proof.
  intros Hlag Hs Hdims Hpre Hd. unfold Utils.embed_dim_cao.
  apply Z.leb_gt in Hlag. rewrite Hlag, Hs. cbn [bind]. rewrite Hdims.
  set (n := length (pre ++ d :: post)).
  assert (Hn : n = S (length pre + length post))
    by (unfold n; rewrite length_app; simpl; lia).
  destruct (cao_loop_failure s lag pre d post Hpre Hd 0
              (repeat (Fin 0) n) (repeat (Fin 0) n))
    as (ed & es & Hout & Hel & Hsl & Hnan);
    try (rewrite repeat_length; reflexivity).
  rewrite Hout. cbn [bind fst snd].
  rewrite repeat_length in Hel, Hsl, Hnan.
  exists (Utils.ratio_next ed), (Utils.ratio_next es).
  split; [reflexivity |].
  rewrite !ratio_next_length, Hel, Hsl, Hn.
  split; [reflexivity |]. split; [reflexivity |].
  intros j Hj1 Hj2.
  rewrite (nth_indep (Utils.ratio_next ed) (Fin 0) NaN)
    by (rewrite ratio_next_length; lia).
  rewrite (nth_indep (Utils.ratio_next es) (Fin 0) NaN)
    by (rewrite ratio_next_length; lia).
  rewrite !ratio_next_nth by lia.
  destruct (Hnan (S j)) as [H1 H2]; [simpl; lia |].
  rewrite (nth_indep ed NaN (Fin 0) (n := S j)) by lia.
  rewrite (nth_indep es NaN (Fin 0) (n := S j)) by lia.
  rewrite H1, H2. split; reflexivity.
Qed.

(** ** Two runs on the sequence [[0; 1; 3; 2]]

    With lag 1 and [dims = [1; 2]]; the sequence is passed as [ts_scaled]
    too, so that it is embedded as it is. *)

Ltac cheb_eval := unfold Scipy.chebyshev; simpl; real_eval.

Ltac argmin_eval :=
  unfold argmin, argmin_from, nlt, Rltb;
  repeat match goal with
         | |- context [Rlt_dec ?a ?b] => destruct (Rlt_dec a b); try lra
         end.

Lemma mask_close_far (d : R) : isclose_atol < d -> Utils.mask_close d = Fin d.
Proof.
  intros H. pose proof isclose_atol_pos.
  destruct (mask_close_cases d) as [[H1 _] | [_ H1]]; [lra | lra | exact H1].
Qed.

Lemma ndiv_Fin (x y : R) : y <> 0 -> ndiv (Fin x) (Fin y) = Fin (x / y).
Proof.
  intros H. simpl. destruct (Reqb y 0) eqn:E; [| reflexivity].
  apply Reqb_true in E. contradiction.
Qed.

Example nn_dim_1 :
  Utils.nn Scipy.chebyshev [[1]; [3]; [2]]
  = Ok ([2%nat; 2%nat; 0%nat], [Fin 1; Fin 1; Fin 1]).
Proof.
  unfold Utils.nn, Utils.nn_dist_mat, Scipy.cdist. cbn [map].
  rewrite !chebyshev_refl, !mask_close_zero.
  replace (Scipy.chebyshev [1] [3]) with 2 by cheb_eval.
  replace (Scipy.chebyshev [3] [1]) with 2 by cheb_eval.
  replace (Scipy.chebyshev [1] [2]) with 1 by cheb_eval.
  replace (Scipy.chebyshev [2] [1]) with 1 by cheb_eval.
  replace (Scipy.chebyshev [2] [3]) with 1 by cheb_eval.
  replace (Scipy.chebyshev [3] [2]) with 1 by cheb_eval.
  rewrite !mask_close_far by (unfold isclose_atol; lra).
  argmin_eval. reflexivity.
Qed.

Example nn_dim_2 :
  Utils.nn Scipy.chebyshev [[1; 3]; [3; 2]]
  = Ok ([1%nat; 0%nat], [Fin 2; Fin 2]).
Proof.
  unfold Utils.nn, Utils.nn_dist_mat, Scipy.cdist. cbn [map].
  rewrite !chebyshev_refl, !mask_close_zero.
  replace (Scipy.chebyshev [1; 3] [3; 2]) with 2 by cheb_eval.
  replace (Scipy.chebyshev [3; 2] [1; 3]) with 2 by cheb_eval.
  rewrite !mask_close_far by (unfold isclose_atol; lra).
  argmin_eval. reflexivity.
Qed.

Ltac run_two_dims :=
  replace (Embed.embed_ts [0; 1; 3; 2] 1 (1 + 1))
    with (Ok [[0; 1]; [1; 3]; [3; 2]]) by reflexivity;
  replace (Embed.embed_ts [0; 1; 3; 2] 1 (2 + 1))
    with (Ok [[0; 1; 3]; [1; 3; 2]]) by reflexivity;
  cbn [Utils.drop_col0 map tl]; rewrite nn_dim_1, nn_dim_2;
  cbn [bind fst snd set_item];
  unfold Utils.fnn_rate, Utils.cao_ed, Utils.cao_ed_star,
    Utils.abs_diff_col0, Utils.col0, Utils.dist_next_of;
  cbn [map combine hd nth fst snd];
  replace (Rabs (0 - 3)) with 3 by real_eval;
  replace (Rabs (1 - 3)) with 2 by real_eval;
  replace (Rabs (3 - 0)) with 3 by real_eval;
  replace (Rabs (0 - 1)) with 1 by real_eval;
  replace (Rabs (1 - 0)) with 1 by real_eval;
  rewrite !maximum_Fin;
  replace (Rmax 1 3) with 3 by real_eval;
  replace (Rmax 1 2) with 2 by real_eval;
  replace (Rmax 2 1) with 2 by real_eval.

Example embed_dim_cao_run :
  Utils.embed_dim_cao [0; 1; 3; 2] 1 (Utils.DimsSeq [1; 2]%Z)
                      (Some [0; 1; 3; 2])
  = Ok ([Fin (3 / 8)], [Fin (3 / 8)]).
Proof.
  unfold Utils.embed_dim_cao.
  cbn [Z.leb Z.compare Utils.standardize_ts bind Utils.resolve_dims
       length repeat Utils.cao_loop].
  run_two_dims.
  rewrite !ndiv_Fin by lra.
  unfold mean, Rmean, nsum, Rsum. cbn [fold_right nadd length INR].
  rewrite !ndiv_Fin by lra.
  unfold Utils.ratio_next. cbn [tl removelast combine map fst snd].
  rewrite !ndiv_Fin by lra.
  f_equal. f_equal; (f_equal; f_equal; field).
Qed.

Lemma std_0132 : std [0; 1; 3; 2] = Fin (sqrt (5 / 4)).
Proof.
  unfold std, Rvar. cbn [length INR map Rsum fold_right].
  do 2 f_equal. field.
Qed.

Lemma sqrt_5_4_bounds : 1 < sqrt (5 / 4) < 3 / 2.
Proof.
  split.
  - rewrite <- sqrt_1 at 1. apply sqrt_lt_1_alt. lra.
  - replace (3 / 2) with (sqrt (3 / 2 * (3 / 2)))
      by (apply sqrt_square; lra).
    apply sqrt_lt_1_alt. lra.
Qed.

Example embed_dim_fnn_run :
  Utils.embed_dim_fnn [0; 1; 3; 2] 1 (Utils.DimsSeq [1; 2]%Z)
                      Utils.default_rtol Utils.default_atol
                      (Some [0; 1; 3; 2])
  = Ok [Fin (2 / 3); Fin 0].
Proof.
  unfold Utils.embed_dim_fnn.
  cbn [Z.leb Z.compare Utils.standardize_ts bind Utils.resolve_dims
       length repeat Utils.fnn_loop].
  rewrite std_0132. pose proof sqrt_5_4_bounds as Hs.
  run_two_dims.
  unfold Utils.crit_1, Utils.crit_2, Utils.default_rtol, Utils.default_atol,
    ngt, nmul, nlt.
  cbn [map combine fst snd].
  repeat match goal with
         | |- context [Rltb ?a ?b] =>
             first [ replace (Rltb a b) with true
                       by (symmetry; apply Rltb_true; lra)
                   | replace (Rltb a b) with false
                       by (symmetry; apply Rltb_false; lra) ]
         end.
  unfold mean_bool, Rmean, Rsum.
  cbn [orb map combine fst snd fold_right length INR].
  replace ((1 + (0 + (1 + 0))) / (1 + 1 + 1)) with (2 / 3) by field.
  replace ((0 + (0 + 0)) / (1 + 1)) with 0 by field.
  reflexivity.
Qed.

(** ** The code against the words of the specification *)

Lemma embed_ts_points (s : list R) (lag d : Z) (emb : list (list R)) :
  Embed.embed_ts s lag (d + 1) = Ok emb ->
  length emb = point_count s lag d /\
  forall i, (i < length emb)%nat ->
    nth i emb [] = coordinate s lag i 0 :: embedded_point s lag d i.
Proof.
  intros He.
  destruct (embed_ts_ok_rows _ _ _ _ He) as (Hd & Hr & Hl & _).
  replace (d + 1 - 1)%Z with d in Hr, Hl by lia.
  split; [exact Hl |].
  intros i Hi. rewrite Hl in Hi.
  unfold Embed.embed_ts in He. cbv zeta in He.
  replace (d + 1 - 1)%Z with d in He by lia.
  destruct ((d + 1 <? 1)%Z || (Z.of_nat (length s) - d * lag <? 1)%Z);
    [discriminate |].
  injection He as <-.
  rewrite (nth_map_lt _ _ _ 0%nat) by (rewrite length_seq; exact Hi).
  rewrite seq_nth by exact Hi. cbn [Nat.add].
  replace (Z.to_nat (d + 1)) with (S (Z.to_nat d)) by lia.
  reflexivity.
Qed.

Lemma full_point_cons (s : list R) (lag d : Z) (i : nat) :
  full_point s lag d i = coordinate s lag i 0 :: embedded_point s lag d i.
Proof. reflexivity. Qed.

Lemma point_dist_next_max (s : list R) (lag d : Z) (i j : nat) :
  point_dist_next s lag d i j
  = Rmax (point_dist s lag d i j) (extra_gap s lag i j).
Proof.
  unfold point_dist_next. rewrite !full_point_cons, chebyshev_cons.
  apply Rmax_comm.
Qed.

(** What [nn] returns on the embedding of dimension [d], for a dimension
    in which every point has a point farther than [1e-8]. *)
Lemma neighbours_at_separated (s : list R) (lag d : Z)
    (emb : list (list R)) (nn_inds : list nat) (dd : list num) :
  neighbours_at s lag d = Some (emb, nn_inds, dd) ->
  separated s lag d ->
  length emb = point_count s lag d /\
  forall i, (i < point_count s lag d)%nat ->
    nearest_neighbour s lag d i (nth i nn_inds 0%nat) /\
    nth i dd NaN = Fin (point_dist s lag d i (nth i nn_inds 0%nat)) /\
    extra_diff emb nn_inds i = extra_gap s lag i (nth i nn_inds 0%nat).
Proof.
  unfold neighbours_at. intros Hnb Hsep.
  destruct (Embed.embed_ts s lag (d + 1)) as [emb' |] eqn:He; [| discriminate].
  destruct (Utils.nn Scipy.chebyshev (Utils.drop_col0 emb'))
    as [[ni di] |] eqn:Hnn; [| discriminate].
  injection Hnb as -> -> ->.
  destruct (embed_ts_points s lag d emb He) as [Hlen Hrows].
  split; [exact Hlen |].
  intros i Hi.
  assert (Hrow : forall k, (k < point_count s lag d)%nat ->
            nth k (Utils.drop_col0 emb) [] = embedded_point s lag d k).
  { intros k Hk. rewrite drop_col0_nth, Hrows by (rewrite Hlen; exact Hk).
    reflexivity. }
  pose proof (drop_col0_length emb) as Hdl.
  destruct (nn_far_neighbour (Utils.drop_col0 emb) nn_inds dd i Hnn)
    as (Ha & _ & Hd & Hfar & Hmin).
  { rewrite Hdl, Hlen. exact Hi. }
  { destruct (Hsep i Hi) as (j & Hj & Hij).
    exists j. split; [rewrite Hdl, Hlen; exact Hj |].
    rewrite !Hrow by assumption. exact Hij. }
  rewrite Hdl, Hlen in Ha.
  rewrite !Hrow in Hd, Hfar by assumption.
  split; [| split].
  - split; [exact Ha |]. split; [exact Hfar |].
    intros k Hk Hik.
    specialize (Hmin k). rewrite Hdl, Hlen in Hmin. specialize (Hmin Hk).
    rewrite !Hrow in Hmin by assumption. apply Hmin. exact Hik.
  - exact Hd.
  - unfold extra_diff, extra_gap.
    rewrite !Hrows by (rewrite Hlen; assumption). reflexivity.
Qed.

Lemma Rmean_seq (f : nat -> R) (n : nat) :
  (0 < n)%nat ->
  Rmean (map f (seq 0 n)) = Fin (Rsum (map f (seq 0 n)) / INR n).
Proof.
  intros Hn. unfold Rmean.
  rewrite length_map, length_seq.
  destruct n as [| n]; [lia | reflexivity].
Qed.

Lemma nsum_Fin (l : list R) : nsum (map Fin l) = Fin (Rsum l).
Proof.
  induction l as [| x l IH]; [reflexivity |].
  cbn [map]. unfold nsum, Rsum in *. cbn [fold_right]. rewrite IH.
  reflexivity.
Qed.

Lemma mean_Fin_seq (f : nat -> R) (n : nat) :
  (0 < n)%nat ->
  mean (map (fun i => Fin (f i)) (seq 0 n))
  = Fin (Rsum (map f (seq 0 n)) / INR n).
Proof.
  intros Hn.
  replace (map (fun i => Fin (f i)) (seq 0 n)) with (map Fin (map f (seq 0 n)))
    by (now rewrite map_map).
  unfold mean. rewrite !length_map, length_seq, nsum_Fin.
  destruct n as [| n]; [lia |].
  cbn [seq map]. apply ndiv_Fin. apply not_0_INR. lia.
Qed.

Lemma embeds_point_count (s : list R) (lag d : Z) :
  embeds s lag d -> (0 < point_count s lag d)%nat.
Proof.
  intros [emb He].
  destruct (embed_ts_ok_rows _ _ _ _ He) as (_ & Hr & _).
  replace (d + 1 - 1)%Z with d in Hr by lia.
  unfold point_count. lia.
Qed.

Lemma false_neighbour_rate_spec (rtol atol sd : R) (s : list R) (lag d : Z) :
  embeds s lag d -> separated s lag d ->
  (forall i, (i < point_count s lag d)%nat ->
             nearest_neighbour s lag d i (neighbour_of s lag d i)) /\
  false_neighbour_rate rtol atol (Fin sd) s lag d
  = Fin (false_rate rtol atol sd s lag d (neighbour_of s lag d)).
Proof.
  intros [emb He] Hsep.
  pose proof (embeds_point_count s lag d (ex_intro _ emb He)) as Hpos.
  destruct (neighbours_at_embedded s lag d emb He)
    as (ni & di & _ & Hnb & _ & _).
  destruct (neighbours_at_separated s lag d emb ni di Hnb Hsep)
    as [Hlen Hpt].
  unfold neighbour_of, false_neighbour_rate, false_rate. rewrite Hnb.
  split; [intros i Hi; now apply Hpt |].
  unfold mean_bool. rewrite map_map, Hlen, Rmean_seq by exact Hpos.
  do 3 f_equal. apply map_ext_in. intros i Hi. apply in_seq in Hi.
  destruct (Hpt i) as (_ & Hd & Hg); [lia |].
  unfold false_neighbour, is_false_neighbour, dist_succ.
  rewrite Hd, Hg. cbn [nmul]. rewrite maximum_Fin. reflexivity.
Qed.

Lemma Rsum_ge_length {A : Type} (f : A -> R) (l : list A) :
  (forall i, In i l -> 1 <= f i) -> INR (length l) <= Rsum (map f l).
Proof.
  induction l as [| i l IH]; intros Hall.
  - simpl. lra.
  - cbn [length map]. rewrite S_INR.
    unfold Rsum in *. cbn [fold_right].
    pose proof (Hall i (or_introl eq_refl)) as Hi.
    specialize (IH (fun k Hk => Hall k (or_intror Hk))).
    lra.
Qed.

Lemma cao_E_spec (s : list R) (lag d : Z) :
  embeds s lag d -> separated s lag d ->
  cao_E s lag d = Fin (mean_dist_ratio s lag d (neighbour_of s lag d)) /\
  cao_E_star s lag d = Fin (mean_extra_gap s lag d (neighbour_of s lag d)) /\
  1 <= mean_dist_ratio s lag d (neighbour_of s lag d).
Proof.
  intros [emb He] Hsep.
  pose proof (embeds_point_count s lag d (ex_intro _ emb He)) as Hpos.
  destruct (neighbours_at_embedded s lag d emb He)
    as (ni & di & _ & Hnb & _ & _).
  destruct (neighbours_at_separated s lag d emb ni di Hnb Hsep)
    as [Hlen Hpt].
  assert (Hterm : forall i, (i < point_count s lag d)%nat ->
            0 < point_dist s lag d i (nth i ni 0%nat)).
  { intros i Hi. destruct (Hpt i Hi) as ((_ & Hfar & _) & _).
    unfold apart in Hfar. pose proof isclose_atol_pos. lra. }
  unfold neighbour_of, cao_E, cao_E_star, mean_dist_ratio, mean_extra_gap.
  rewrite Hnb, Hlen. split; [| split].
  - rewrite <- mean_Fin_seq by exact Hpos. f_equal.
    apply map_ext_in. intros i Hi. apply in_seq in Hi.
    destruct (Hpt i) as (_ & Hd & Hg); [lia |].
    unfold dist_succ. rewrite Hd, Hg, maximum_Fin, point_dist_next_max.
    apply ndiv_Fin. specialize (Hterm i ltac:(lia)). lra.
  - rewrite Rmean_seq by exact Hpos. do 3 f_equal.
    apply map_ext_in. intros i Hi. apply in_seq in Hi.
    destruct (Hpt i) as (_ & _ & Hg); [lia |]. exact Hg.
  - assert (Hn : 0 < INR (point_count s lag d)) by (apply lt_0_INR; exact Hpos).
    apply (Rmult_le_reg_r (INR (point_count s lag d))); [exact Hn |].
    unfold Rdiv. rewrite Rmult_assoc, Rinv_l, Rmult_1_r, Rmult_1_l by lra.
    clear Hn Hpos Hlen Hnb.
    assert (Hall : forall i, In i (seq 0 (point_count s lag d)) ->
              1 <= point_dist_next s lag d i (nth i ni 0%nat)
                   * / point_dist s lag d i (nth i ni 0%nat)).
    { intros i Hi. apply in_seq in Hi.
      assert (Hp := Hterm i ltac:(lia)).
      rewrite point_dist_next_max.
      apply (Rmult_le_reg_r (point_dist s lag d i (nth i ni 0%nat)));
        [exact Hp |].
      rewrite Rmult_assoc, Rinv_l, Rmult_1_r, Rmult_1_l by lra.
      apply Rmax_l. }
    pose proof (Rsum_ge_length
                  (fun i => point_dist_next s lag d i (nth i ni 0%nat)
                            * / point_dist s lag d i (nth i ni 0%nat))
                  (seq 0 (point_count s lag d)) Hall) as Hsum.
    rewrite length_seq in Hsum. exact Hsum.
Qed.

(** ** The two profiles in the words of the specification *)

Lemma standardize_ts_length (ts : list R) (ts_scaled : option (list R))
    (s : list R) :
  Utils.standardize_ts ts ts_scaled = Ok s -> length s = length ts.
Proof.
  destruct ts_scaled as [sc |]; cbn [Utils.standardize_ts].
  - intros H. now inversion H.
  - destruct ts as [| x rest]; [discriminate |].
    rewrite fit_transform_nonempty by discriminate.
    intros H. injection H as <-. cbn [length]. now rewrite length_map.
Qed.

Lemma std_embedded (ts s : list R) (ts_scaled : option (list R))
    (lag d : Z) :
  (0 < lag)%Z ->
  Utils.standardize_ts ts ts_scaled = Ok s ->
  embeds s lag d ->
  std ts = Fin (sqrt (Rvar ts)).
Proof.
  intros Hlag Hs He.
  pose proof (embeds_point_count s lag d He) as Hpos.
  pose proof (standardize_ts_length ts ts_scaled s Hs) as Hlen.
  destruct He as [emb He].
  destruct (embed_ts_ok_rows _ _ _ _ He) as (Hd & _).
  unfold point_count in Hpos.
  destruct ts as [| x rest]; [| reflexivity].
  simpl in Hlen. rewrite Hlen in Hpos. simpl in Hpos. nia.
Qed.

(** C7 (amended).  When every candidate dimension embeds and, at each of
    them, every point of the [d]-dimensional embedding has a point farther
    than [1e-8], [embed_dim_fnn] returns a profile with one entry per
    dimension.  The entry of dimension [d] is the mean, over the embedded
    points [i], of the indicator of
    [|x_extra(i) - x_extra(nn(i))| > rtol * dist_d(i, nn(i))] or
    [max(dist_d(i, nn(i)), |x_extra(i) - x_extra(nn(i))|) > atol * std(ts)],
    where [nn(i)] is a nearest neighbour of [i] among the points farther
    than [1e-8] from it, [dist_d] the Chebyshev distance in dimension [d]
    and [ts] the raw sequence; the default thresholds are [rtol = 10] and
    [atol = 2]. *)
Theorem embed_dim_fnn_false_neighbour_rate
    (ts : list R) (lag : Z) (dims : Utils.dims_arg) (rtol atol : R)
    (ts_scaled : option (list R)) (s : list R) :
  (0 < lag)%Z ->
  Utils.standardize_ts ts ts_scaled = Ok s ->
  Forall (embeds s lag) (Utils.resolve_dims dims) ->
  Forall (separated s lag) (Utils.resolve_dims dims) ->
  exists fnn_prop,
    Utils.embed_dim_fnn ts lag dims rtol atol ts_scaled = Ok fnn_prop /\
    length fnn_prop = length (Utils.resolve_dims dims) /\
    (forall k, (k < length (Utils.resolve_dims dims))%nat ->
       exists nnf,
         (forall i,
            (i < point_count s lag (nth k (Utils.resolve_dims dims) 0%Z))%nat ->
            nearest_neighbour s lag (nth k (Utils.resolve_dims dims) 0%Z) i
                              (nnf i)) /\
         nth k fnn_prop NaN =
         Fin (false_rate rtol atol (sqrt (Rvar ts)) s lag
                         (nth k (Utils.resolve_dims dims) 0%Z) nnf)) /\
    Utils.default_rtol = 10 /\ Utils.default_atol = 2.
Proof.
  intros Hlag Hs Hall Hsep. unfold Utils.embed_dim_fnn.
  pose proof Hlag as Hlag'. apply Z.leb_gt in Hlag'.
  rewrite Hlag', Hs. cbn [bind].
  destruct (fnn_loop_success s lag rtol atol (std ts) _ Hall 0
              (repeat (Fin 0) (length (Utils.resolve_dims dims))))
    as (out & Hout & Hol & _ & Hpost).
  { now rewrite repeat_length. }
  exists out. split; [exact Hout |].
  rewrite repeat_length in Hol. split; [exact Hol |].
  split; [| split; reflexivity].
  intros k Hk.
  set (d := nth k (Utils.resolve_dims dims) 0%Z).
  assert (Hd : embeds s lag d)
    by (eapply Forall_forall; [exact Hall | now apply nth_In]).
  assert (Hdsep : separated s lag d)
    by (eapply Forall_forall; [exact Hsep | now apply nth_In]).
  destruct (false_neighbour_rate_spec rtol atol (sqrt (Rvar ts)) s lag d
              Hd Hdsep) as [Hnn Hrate].
  exists (neighbour_of s lag d). split; [exact Hnn |].
  specialize (Hpost k Hk). cbn [Nat.add] in Hpost.
  rewrite Hpost, (std_embedded ts s ts_scaled lag d Hlag Hs Hd).
  exact Hrate.
Qed.

Lemma separated_0132_1 : separated [0; 1; 3; 2] 1 1.
Proof.
  intros i Hi. change (point_count [0; 1; 3; 2] 1 1) with 3%nat in *.
  destruct i as [| [| [| i]]]; [exists 1%nat | exists 0%nat | exists 0%nat | lia];
    (split; [lia |]);
    unfold apart, point_dist, embedded_point, coordinate;
    cbn [Z.to_nat Pos.to_nat Pos.iter_op Nat.add Nat.mul seq map nth];
    cheb_eval.
Qed.

Lemma separated_0132_2 : separated [0; 1; 3; 2] 1 2.
Proof.
  intros i Hi. change (point_count [0; 1; 3; 2] 1 2) with 2%nat in *.
  destruct i as [| [| i]]; [exists 1%nat | exists 0%nat | lia];
    (split; [lia |]);
    unfold apart, point_dist, embedded_point, coordinate;
    cbn [Z.to_nat Pos.to_nat Pos.iter_op Nat.add Nat.mul seq map nth];
    cheb_eval.
Qed.

Lemma embed_dim_fnn_false_neighbour_rate_witness :
  exists fnn_prop,
    Utils.embed_dim_fnn [0; 1; 3; 2] 1 (Utils.DimsSeq [1; 2]%Z)
      Utils.default_rtol Utils.default_atol (Some [0; 1; 3; 2])
    = Ok fnn_prop /\
    length fnn_prop = 2%nat.
Proof.
  destruct (embed_dim_fnn_false_neighbour_rate
              [0; 1; 3; 2] 1 (Utils.DimsSeq [1; 2]%Z)
              Utils.default_rtol Utils.default_atol (Some [0; 1; 3; 2])
              [0; 1; 3; 2] ltac:(lia) eq_refl) as (p & Hp & Hl & _).
  - repeat constructor; eexists; reflexivity.
  - repeat constructor; [exact separated_0132_1 | exact separated_0132_2].
  - exists p. split; assumption.
Defined.

(** C7, as stated, fails: in the sequence [[0; 0; 1; 1]] with lag 2 the two
    points of dimension 1 coincide and so do their extra coordinates.
    Whatever point is taken for the neighbour, the two tests compare 0 with
    0 and with [atol * std(ts)] and classify no point as a false neighbour;
    [nn] reports the masked distance [inf] and [embed_dim_fnn] returns the
    rate 1. *)
Lemma embed_dim_fnn_masked_rate :
  Forall (embeds [0; 0; 1; 1] 2) [1%Z] /\
  Utils.embed_dim_fnn [0; 0; 1; 1] 2 (Utils.DimsSeq [1%Z])
    Utils.default_rtol Utils.default_atol (Some [0; 0; 1; 1])
  = Ok [Fin 1] /\
  forall nnf : nat -> nat,
    (forall i, (i < point_count [0; 0; 1; 1]%R 2 1)%nat ->
               (nnf i < point_count [0; 0; 1; 1]%R 2 1)%nat) ->
    false_rate Utils.default_rtol Utils.default_atol
               (sqrt (Rvar [0; 0; 1; 1])) [0; 0; 1; 1] 2 1 nnf = 0.
Proof.
  split; [repeat constructor; eexists; reflexivity |]. split.
  - unfold Utils.embed_dim_fnn.
    cbn [Z.leb Z.compare Utils.standardize_ts bind Utils.resolve_dims
         length repeat Utils.fnn_loop].
    replace (Embed.embed_ts [0; 0; 1; 1] 2 (1 + 1))
      with (Ok [[0; 1]; [0; 1]]) by reflexivity.
    cbn [Utils.drop_col0 map tl].
    replace (Utils.nn Scipy.chebyshev [[1]; [1]])
      with (Ok ([0%nat; 0%nat], [PInf; PInf])).
    2:{ unfold Utils.nn, Utils.nn_dist_mat, Scipy.cdist. cbn [map].
        rewrite !chebyshev_refl, !mask_close_zero. reflexivity. }
    cbn [bind fst snd set_item].
    unfold Utils.fnn_rate, Utils.abs_diff_col0, Utils.col0,
      Utils.dist_next_of.
    cbn [map combine hd nth fst snd].
    unfold Utils.crit_1, Utils.crit_2, std.
    cbn [maximum ngt nlt nmul map combine fst snd].
    unfold Utils.default_rtol, inf_scaled.
    replace (Reqb 10 0) with false by (symmetry; apply Reqb_false; lra).
    replace (Rltb 0 10) with true by (symmetry; apply Rltb_true; lra).
    cbn [xorb nlt orb map].
    unfold mean_bool, Rmean, Rsum. cbn [map fold_right length INR].
    cbn [ngt nlt orb]. do 3 f_equal. field.
  - intros nnf Hnnf.
    change (point_count [0; 0; 1; 1] 2 1) with 2%nat in *.
    assert (Hpt : forall i j, (i < 2)%nat -> (j < 2)%nat ->
              is_false_neighbour Utils.default_rtol Utils.default_atol
                (sqrt (Rvar [0; 0; 1; 1])) [0; 0; 1; 1] 2 1 i j = false).
    { intros i j Hi Hj.
      pose proof (sqrt_pos (Rvar [0; 0; 1; 1])) as Hsd.
      unfold is_false_neighbour, point_dist, extra_gap, embedded_point,
        coordinate, Utils.default_rtol, Utils.default_atol.
      destruct i as [| [| i]]; [| | lia];
        (destruct j as [| [| j]]; [| | lia]);
        cbn [Z.to_nat Pos.to_nat Pos.iter_op Nat.add Nat.mul seq map nth];
        rewrite chebyshev_refl, Rminus_diag, Rabs_R0, Rmax_left by lra;
        apply orb_false_iff; split; apply Rltb_false; lra. }
    unfold false_rate.
    change (point_count [0; 0; 1; 1] 2 1) with 2%nat.
    cbn [seq map].
    rewrite !Hpt by (try apply Hnnf; lia).
    unfold Rsum. cbn [fold_right INR]. field.
Qed.

(** C6 (amended).  For a non-empty [dims], when every candidate dimension
    embeds and, at each of them, every point of the [d]-dimensional
    embedding has a point farther than [1e-8], [embed_dim_cao] returns two
    arrays [e1] and [e2] one element shorter than [dims], with
    [e1[i] = E(i+1) / E(i)] and [e2[i] = E*(i+1) / E*(i)] (numpy's
    division).  [E(i)] is the mean over the points of
    [dist_(d+1)(p, nn(p)) / dist_d(p, nn(p))] and [E*(i)] the mean of
    [|x_extra(p) - x_extra(nn(p))|] at the candidate dimension of index
    [i], where [nn(p)] is a nearest neighbour of [p] among the points
    farther than [1e-8] from it in dimension [d]. *)
Theorem embed_dim_cao_ratios
    (ts : list R) (lag : Z) (dims : Utils.dims_arg)
    (ts_scaled : option (list R)) (s : list R) :
  (0 < lag)%Z ->
  Utils.standardize_ts ts ts_scaled = Ok s ->
  Utils.resolve_dims dims <> [] ->
  Forall (embeds s lag) (Utils.resolve_dims dims) ->
  Forall (separated s lag) (Utils.resolve_dims dims) ->
  exists e1 e2 (nnf : nat -> nat -> nat),
    Utils.embed_dim_cao ts lag dims ts_scaled = Ok (e1, e2) /\
    S (length e1) = length (Utils.resolve_dims dims) /\
    S (length e2) = length (Utils.resolve_dims dims) /\
    (forall k, (k < length (Utils.resolve_dims dims))%nat ->
     forall p,
       (p < point_count s lag (nth k (Utils.resolve_dims dims) 0%Z))%nat ->
       nearest_neighbour s lag (nth k (Utils.resolve_dims dims) 0%Z) p
                         (nnf k p)) /\
    forall i, (S i < length (Utils.resolve_dims dims))%nat ->
      nth i e1 NaN =
        Fin (mean_dist_ratio s lag (nth (S i) (Utils.resolve_dims dims) 0%Z)
                             (nnf (S i))
             / mean_dist_ratio s lag (nth i (Utils.resolve_dims dims) 0%Z)
                               (nnf i)) /\
      nth i e2 NaN =
        ndiv (Fin (mean_extra_gap s lag
                     (nth (S i) (Utils.resolve_dims dims) 0%Z) (nnf (S i))))
             (Fin (mean_extra_gap s lag
                     (nth i (Utils.resolve_dims dims) 0%Z) (nnf i))).
Proof.
  intros Hlag Hs Hne Hall Hsep. unfold Utils.embed_dim_cao.
  apply Z.leb_gt in Hlag. rewrite Hlag, Hs. cbn [bind].
  set (ds := Utils.resolve_dims dims) in *.
  destruct (cao_loop_success s lag ds Hall 0
              (repeat (Fin 0) (length ds)) (repeat (Fin 0) (length ds)))
    as (ed & es & Hout & Hel & Hsl & _ & Hpost);
    try now rewrite repeat_length.
  rewrite Hout. cbn [bind fst snd].
  rewrite repeat_length in Hel, Hsl.
  assert (Hdim : forall k, (k < length ds)%nat ->
            embeds s lag (nth k ds 0%Z) /\ separated s lag (nth k ds 0%Z)).
  { intros k Hk. split;
      (eapply Forall_forall; [eassumption | now apply nth_In]). }
  exists (Utils.ratio_next ed), (Utils.ratio_next es),
         (fun k => neighbour_of s lag (nth k ds 0%Z)).
  split; [reflexivity |].
  rewrite !ratio_next_length, Hel, Hsl.
  assert (Hpos : (0 < length ds)%nat) by (destruct ds; [congruence | simpl; lia]).
  split; [lia |]. split; [lia |]. split.
  - intros k Hk p Hp. destruct (Hdim k Hk) as [He Hse].
    destruct (false_neighbour_rate_spec 0 0 0 s lag (nth k ds 0%Z) He Hse)
      as [Hnn _].
    now apply Hnn.
  - intros i Hi. rewrite !ratio_next_nth by lia.
    destruct (Hpost (S i) Hi) as [H1 H2].
    destruct (Hpost i) as [H3 H4]; [lia |].
    cbn [Nat.add] in H1, H2, H3, H4. rewrite H1, H2, H3, H4.
    destruct (Hdim (S i) Hi) as [He1 Hs1].
    destruct (Hdim i) as [He0 Hs0]; [lia |].
    destruct (cao_E_spec s lag (nth (S i) ds 0%Z) He1 Hs1) as (HE1 & HS1 & _).
    destruct (cao_E_spec s lag (nth i ds 0%Z) He0 Hs0) as (HE0 & HS0 & Hge).
    rewrite HE1, HS1, HE0, HS0. split; [| reflexivity].
    apply ndiv_Fin. lra.
Qed.

Lemma embed_dim_cao_ratios_witness :
  exists e1 e2,
    Utils.embed_dim_cao [0; 1; 3; 2] 1 (Utils.DimsSeq [1; 2]%Z)
      (Some [0; 1; 3; 2]) = Ok (e1, e2) /\
    length e1 = 1%nat /\ length e2 = 1%nat.
Proof.
  destruct (embed_dim_cao_ratios
              [0; 1; 3; 2] 1 (Utils.DimsSeq [1; 2]%Z) (Some [0; 1; 3; 2])
              [0; 1; 3; 2] ltac:(lia) eq_refl)
    as (e1 & e2 & nnf & He & H1 & H2 & _).
  - discriminate.
  - repeat constructor; eexists; reflexivity.
  - repeat constructor; [exact separated_0132_1 | exact separated_0132_2].
  - exists e1, e2. split; [exact He |].
    cbn [Utils.resolve_dims length] in H1, H2. split; lia.
Defined.

(** ** [embed_dim_cao] on a sequence with two values closer than [1e-8] *)

Lemma point_dist_dim_1 (s : list R) (i j : nat) :
  point_dist s 1 1 i j = Rabs (nth (i + 1) s 0 - nth (j + 1) s 0).
Proof.
  unfold point_dist, embedded_point, coordinate, Scipy.chebyshev.
  change (Z.to_nat 1) with 1%nat.
  cbn [seq map combine fold_right fst snd Nat.mul Nat.add].
  apply Rmax_left. apply Rabs_pos.
Qed.

Lemma point_dist_dim_2 (s : list R) (i j : nat) :
  point_dist s 1 2 i j
  = Rmax (Rabs (nth (i + 1) s 0 - nth (j + 1) s 0))
         (Rabs (nth (i + 2) s 0 - nth (j + 2) s 0)).
Proof.
  unfold point_dist, embedded_point, coordinate, Scipy.chebyshev.
  change (Z.to_nat 1) with 1%nat. change (Z.to_nat 2) with 2%nat.
  cbn [seq map combine fold_right fst snd Nat.mul Nat.add].
  f_equal. apply Rmax_left. apply Rabs_pos.
Qed.

Lemma extra_gap_lag_1 (s : list R) (i j : nat) :
  extra_gap s 1 i j = Rabs (nth i s 0 - nth j s 0).
Proof.
  unfold extra_gap, coordinate. cbn [Nat.mul]. now rewrite !Nat.add_0_r.
Qed.

Ltac close_pair_eval :=
  unfold close_pair; cbn [nth Nat.add]; real_eval.

Lemma separated_close_pair_1 : separated close_pair 1 1.
Proof.
  intros i Hi. change (point_count close_pair 1 1) with 4%nat in *.
  exists (if (i <? 2)%nat then 2%nat else 0%nat).
  unfold apart. rewrite point_dist_dim_1.
  destruct i as [| [| [| [| i]]]]; [| | | | lia];
    (split; [simpl; lia |]); cbn [Nat.ltb Nat.leb]; close_pair_eval.
Qed.

Lemma separated_close_pair_2 : separated close_pair 1 2.
Proof.
  intros i Hi. change (point_count close_pair 1 2) with 3%nat in *.
  exists (if (i <? 1)%nat then 1%nat else 0%nat).
  unfold apart. rewrite point_dist_dim_2.
  destruct i as [| [| [| i]]]; [| | | lia];
    (split; [simpl; lia |]); cbn [Nat.ltb Nat.leb]; close_pair_eval.
Qed.

(** The neighbours that the search finds in dimension 1: the first two
    points are [1e-9] apart and are not neighbours of each other. *)
Lemma nearest_neighbour_close_pair_1 (i j : nat) :
  (i < 4)%nat ->
  nearest_neighbour close_pair 1 1 i j -> j = nth i [2; 2; 1; 2]%nat 0%nat.
Proof.
  intros Hi (Hj & Hap & Hmin).
  change (point_count close_pair 1 1) with 4%nat in *.
  unfold apart in *.
  specialize (Hmin (nth i [2; 2; 1; 2]%nat 0%nat)).
  rewrite !point_dist_dim_1 in *.
  destruct i as [| [| [| [| i]]]]; [| | | | lia];
    (destruct j as [| [| [| [| j]]]]; [| | | | lia]);
    cbn [nth] in *; try reflexivity; exfalso;
    revert Hap Hmin; close_pair_eval; intros Hap Hmin;
    try lra; (assert (Hc := Hmin ltac:(lia) ltac:(lra)); lra).
Qed.

(** The points nearest to each point of dimension 1: the first two points
    are nearest to each other. *)
Lemma closest_other_close_pair_1 (i j : nat) :
  (i < 4)%nat ->
  closest_other close_pair 1 1 i j -> j = nth i [1; 0; 1; 2]%nat 0%nat.
Proof.
  intros Hi (Hj & Hne & Hmin).
  change (point_count close_pair 1 1) with 4%nat in *.
  specialize (Hmin (nth i [1; 0; 1; 2]%nat 0%nat)).
  rewrite !point_dist_dim_1 in *.
  destruct i as [| [| [| [| i]]]]; [| | | | lia];
    (destruct j as [| [| [| [| j]]]]; [| | | | lia]);
    cbn [nth] in *; try reflexivity; try congruence; exfalso;
    revert Hmin; close_pair_eval; intros Hmin;
    (assert (Hc := Hmin ltac:(lia) ltac:(lia)); lra).
Qed.

(** In dimension 2 no two points are closer than [1e-8]: both searches
    find the same neighbours. *)
Lemma nearest_neighbour_close_pair_2 (i j : nat) :
  (i < 3)%nat ->
  nearest_neighbour close_pair 1 2 i j -> j = nth i [1; 0; 1]%nat 0%nat.
Proof.
  intros Hi (Hj & Hap & Hmin).
  change (point_count close_pair 1 2) with 3%nat in *.
  unfold apart in *.
  specialize (Hmin (nth i [1; 0; 1]%nat 0%nat)).
  rewrite !point_dist_dim_2 in *.
  destruct i as [| [| [| i]]]; [| | | lia];
    (destruct j as [| [| [| j]]]; [| | | lia]);
    cbn [nth] in *; try reflexivity; exfalso;
    revert Hap Hmin; close_pair_eval; intros Hap Hmin;
    try lra; (assert (Hc := Hmin ltac:(lia) ltac:(lra)); lra).
Qed.

Lemma closest_other_close_pair_2 (i j : nat) :
  (i < 3)%nat ->
  closest_other close_pair 1 2 i j -> j = nth i [1; 0; 1]%nat 0%nat.
Proof.
  intros Hi (Hj & Hne & Hmin).
  change (point_count close_pair 1 2) with 3%nat in *.
  specialize (Hmin (nth i [1; 0; 1]%nat 0%nat)).
  rewrite !point_dist_dim_2 in *.
  destruct i as [| [| [| i]]]; [| | | lia];
    (destruct j as [| [| [| j]]]; [| | | lia]);
    cbn [nth] in *; try reflexivity; try congruence; exfalso;
    revert Hmin; close_pair_eval; intros Hmin;
    (assert (Hc := Hmin ltac:(lia) ltac:(lia)); lra).
Qed.

Lemma mean_extra_gap_close_pair_1 (nnf : nat -> nat) (a b c d : nat) :
  nnf 0%nat = a -> nnf 1%nat = b -> nnf 2%nat = c -> nnf 3%nat = d ->
  mean_extra_gap close_pair 1 1 nnf
  = (Rabs (nth 0 close_pair 0 - nth a close_pair 0)
     + Rabs (nth 1 close_pair 0 - nth b close_pair 0)
     + Rabs (nth 2 close_pair 0 - nth c close_pair 0)
     + Rabs (nth 3 close_pair 0 - nth d close_pair 0)) / 4.
Proof.
  intros <- <- <- <-. unfold mean_extra_gap.
  change (point_count close_pair 1 1) with 4%nat.
  cbn [seq map]. rewrite !extra_gap_lag_1.
  unfold Rsum. cbn [fold_right INR]. f_equal; lra.
Qed.

Lemma mean_extra_gap_close_pair_2 (nnf : nat -> nat) (a b c : nat) :
  nnf 0%nat = a -> nnf 1%nat = b -> nnf 2%nat = c ->
  mean_extra_gap close_pair 1 2 nnf
  = (Rabs (nth 0 close_pair 0 - nth a close_pair 0)
     + Rabs (nth 1 close_pair 0 - nth b close_pair 0)
     + Rabs (nth 2 close_pair 0 - nth c close_pair 0)) / 3.
Proof.
  intros <- <- <-. unfold mean_extra_gap.
  change (point_count close_pair 1 2) with 3%nat.
  cbn [seq map]. rewrite !extra_gap_lag_1.
  unfold Rsum. cbn [fold_right INR]. f_equal; lra.
Qed.

(** C6, as stated, fails twice.  On an empty [dims] every embedding
    succeeds (there is none) and the two arrays are empty: as long as
    [dims], not one element shorter.  And in the sequence
    [1, 0, 1e-9, 10, 26] with lag 1 the first two points of dimension 1 are
    distinct and nearest to each other, but closer than [1e-8]: the search
    passes over them, [E*(1)] is [11/4] where the nearest points give 3,
    and [E2[0]] differs from [E*(2)/E*(1)]. *)
Lemma embed_dim_cao_ratios_fail :
  (Forall (embeds [0; 1; 3; 2] 1) (Utils.resolve_dims (Utils.DimsSeq [])) /\
   Utils.embed_dim_cao [0; 1; 3; 2] 1 (Utils.DimsSeq []) (Some [0; 1; 3; 2])
   = Ok ([], []) /\
   length (@nil num) = length (Utils.resolve_dims (Utils.DimsSeq []))) /\
  (Forall (embeds close_pair 1) [1; 2]%Z /\
   exists e1 e2,
     Utils.embed_dim_cao close_pair 1 (Utils.DimsSeq [1; 2]%Z)
       (Some close_pair) = Ok (e1, e2) /\
     nth 0 e2 NaN = Fin (2000000001 / 3000000000 / (11 / 4)) /\
     forall nnf1 nnf2 : nat -> nat,
       (forall p, (p < point_count close_pair 1 1)%nat ->
                  closest_other close_pair 1 1 p (nnf1 p)) ->
       (forall p, (p < point_count close_pair 1 2)%nat ->
                  closest_other close_pair 1 2 p (nnf2 p)) ->
       ndiv (Fin (mean_extra_gap close_pair 1 2 nnf2))
            (Fin (mean_extra_gap close_pair 1 1 nnf1))
       = Fin (2000000001 / 3000000000 / 3)).
Proof.
  split; [split; [constructor | split; reflexivity] |].
  assert (Hall : Forall (embeds close_pair 1) [1; 2]%Z)
    by (repeat constructor; eexists; reflexivity).
  split; [exact Hall |].
  unfold Utils.embed_dim_cao.
  cbn [Z.leb Z.compare Utils.standardize_ts bind Utils.resolve_dims length
       repeat].
  destruct (cao_loop_success close_pair 1 [1; 2]%Z Hall 0
              [Fin 0; Fin 0] [Fin 0; Fin 0] eq_refl eq_refl)
    as (ed & es & Hout & Hel & Hsl & _ & Hpost).
  rewrite Hout. cbn [bind fst snd].
  exists (Utils.ratio_next ed), (Utils.ratio_next es).
  split; [reflexivity |]. split.
  - rewrite ratio_next_nth by (rewrite Hsl; simpl; lia).
    destruct (Hpost 0%nat ltac:(simpl; lia)) as [_ H0].
    destruct (Hpost 1%nat ltac:(simpl; lia)) as [_ H1].
    cbn [Nat.add nth] in H0, H1. rewrite H0, H1.
    assert (He1 : embeds close_pair 1 1) by (eexists; reflexivity).
    assert (He2 : embeds close_pair 1 2) by (eexists; reflexivity).
    destruct (cao_E_spec close_pair 1 1 He1 separated_close_pair_1)
      as (_ & HS1 & _).
    destruct (cao_E_spec close_pair 1 2 He2 separated_close_pair_2)
      as (_ & HS2 & _).
    destruct (false_neighbour_rate_spec 0 0 0 close_pair 1 1 He1
                separated_close_pair_1) as [Hn1 _].
    destruct (false_neighbour_rate_spec 0 0 0 close_pair 1 2 He2
                separated_close_pair_2) as [Hn2 _].
    change (point_count close_pair 1 1) with 4%nat in Hn1.
    change (point_count close_pair 1 2) with 3%nat in Hn2.
    rewrite HS1, HS2.
    assert (G1 : forall i, (i < 4)%nat ->
              neighbour_of close_pair 1 1 i = nth i [2; 2; 1; 2]%nat 0%nat)
      by (intros i Hi; apply nearest_neighbour_close_pair_1;
          [exact Hi | apply Hn1; exact Hi]).
    assert (G2 : forall i, (i < 3)%nat ->
              neighbour_of close_pair 1 2 i = nth i [1; 0; 1]%nat 0%nat)
      by (intros i Hi; apply nearest_neighbour_close_pair_2;
          [exact Hi | apply Hn2; exact Hi]).
    rewrite (mean_extra_gap_close_pair_1 _ 2 2 1 2
               (G1 0%nat ltac:(lia)) (G1 1%nat ltac:(lia))
               (G1 2%nat ltac:(lia)) (G1 3%nat ltac:(lia))).
    rewrite (mean_extra_gap_close_pair_2 _ 1 0 1
               (G2 0%nat ltac:(lia)) (G2 1%nat ltac:(lia))
               (G2 2%nat ltac:(lia))).
    rewrite ndiv_Fin by close_pair_eval.
    f_equal. close_pair_eval; field.
  - intros nnf1 nnf2 Hc1 Hc2.
    change (point_count close_pair 1 1) with 4%nat in Hc1.
    change (point_count close_pair 1 2) with 3%nat in Hc2.
    assert (G1 : forall i, (i < 4)%nat ->
              nnf1 i = nth i [1; 0; 1; 2]%nat 0%nat)
      by (intros i Hi; apply closest_other_close_pair_1;
          [exact Hi | apply Hc1; exact Hi]).
    assert (G2 : forall i, (i < 3)%nat ->
              nnf2 i = nth i [1; 0; 1]%nat 0%nat)
      by (intros i Hi; apply closest_other_close_pair_2;
          [exact Hi | apply Hc2; exact Hi]).
    rewrite (mean_extra_gap_close_pair_1 _ 1 0 1 2
               (G1 0%nat ltac:(lia)) (G1 1%nat ltac:(lia))
               (G1 2%nat ltac:(lia)) (G1 3%nat ltac:(lia))).
    rewrite (mean_extra_gap_close_pair_2 _ 1 0 1
               (G2 0%nat ltac:(lia)) (G2 1%nat ltac:(lia))
               (G2 2%nat ltac:(lia))).
    rewrite ndiv_Fin by close_pair_eval.
    f_equal. close_pair_eval; field.
Qed.

(** ** No array that exists before a call is written by it *)

Lemma extends_refl (h : St.heap) : extends h h.
Proof. exists []. now rewrite app_nil_r. Qed.

Lemma extends_firstn (h0 h : St.heap) :
  extends h0 h -> firstn (length h0) h = h0.
Proof.
  intros [ext ->]. rewrite firstn_app, Nat.sub_diag, firstn_all. simpl.
  apply app_nil_r.
Qed.

Lemma set_item_app_r {A : Type} (i : nat) (v : A) (l1 l2 : list A) :
  (length l1 <= i)%nat ->
  set_item i v (l1 ++ l2) = l1 ++ set_item (i - length l1) v l2.
Proof.
  revert i. induction l1 as [| x l1 IH]; intros i Hi.
  - simpl. now rewrite Nat.sub_0_r.
  - destruct i as [| i]; [simpl in Hi; lia |].
    simpl. f_equal. apply IH. simpl in Hi. lia.
Qed.

Section Keeps.

Variable h0 : St.heap.

Lemma keeps_ret {A : Type} (a : A) (Q : A -> Prop) :
  Q a -> keeps h0 (St.ret a) Q.
Proof.
  intros Ha h Hh. split; [exact Hh |]. intros b Hb. simpl in Hb.
  now inversion Hb; subst.
Qed.

Lemma keeps_raise {A : Type} (e : exn) (Q : A -> Prop) :
  keeps h0 (St.raise e) Q.
Proof. intros h Hh. split; [exact Hh |]. intros b Hb. discriminate. Qed.

Lemma keeps_lift {A : Type} (x : result A) :
  keeps h0 (St.lift x) (fun _ => True).
Proof. intros h Hh. split; [exact Hh | trivial]. Qed.

Lemma keeps_read (r : St.aref) : keeps h0 (St.read r) (fun _ => True).
Proof. intros h Hh. split; [exact Hh | trivial]. Qed.

Lemma keeps_alloc (a : St.ndarray) : keeps h0 (St.alloc a) (fresh h0).
Proof.
  intros h [ext ->]. split.
  - exists (ext ++ [a]). simpl. now rewrite app_assoc.
  - intros r Hr. simpl in Hr. inversion Hr; subst. unfold fresh. simpl.
    rewrite length_app. lia.
Qed.

Lemma keeps_store (r : St.aref) (a : St.ndarray) :
  fresh h0 r -> keeps h0 (St.store r a) (fun _ => True).
Proof.
  intros Hr h [ext ->]. split; [| trivial]. simpl.
  rewrite set_item_app_r by exact Hr. eexists; reflexivity.
Qed.

Lemma keeps_bind {A B : Type} (m : St.M A) (k : A -> St.M B)
    (P : A -> Prop) (Q : B -> Prop) :
  keeps h0 m P ->
  (forall a, P a -> keeps h0 (k a) Q) ->
  keeps h0 (St.bindM m k) Q.
Proof.
  intros Hm Hk h Hh. unfold St.bindM.
  destruct (Hm h Hh) as [He Hq]. destruct (m h) as [[a | e] h'].
  - simpl in He. apply (Hk a (Hq a eq_refl) h' He).
  - split; [exact He |]. intros b Hb. discriminate.
Qed.

Lemma keeps_standardize_ts (ts : St.aref) (ts_scaled : option St.aref) :
  keeps h0 (St.standardize_ts ts ts_scaled) (fun _ => True).
Proof.
  destruct ts_scaled as [sc |]; simpl.
  - now apply keeps_ret.
  - eapply keeps_bind; [apply keeps_read |]. intros X _.
    eapply keeps_bind; [apply keeps_lift |]. intros scaled _.
    eapply keeps_bind; [apply keeps_alloc |]. intros out _.
    now apply keeps_ret.
Qed.

Lemma keeps_nn (metric : list R -> list R -> R) (embed : St.aref) :
  keeps h0 (St.nn metric embed)
        (fun r => fresh h0 (fst r) /\ fresh h0 (snd r)).
Proof.
  unfold St.nn.
  eapply keeps_bind; [apply keeps_read |]. intros e _.
  eapply keeps_bind; [apply keeps_alloc |]. intros dist_mat Hdm.
  eapply keeps_bind; [apply keeps_read |]. intros dm _.
  eapply keeps_bind; [now apply keeps_store |]. intros _ _.
  eapply keeps_bind; [apply keeps_read |]. intros dm' _.
  destruct (St.as_MatN dm'); [apply keeps_raise |].
  eapply keeps_bind; [apply keeps_alloc |]. intros nn_inds Hni.
  eapply keeps_bind; [apply keeps_read |]. intros inds _.
  eapply keeps_bind; [apply keeps_alloc |]. intros dist Hd.
  apply keeps_ret. now split.
Qed.

Lemma keeps_embed_ts (ts : St.aref) (lag dim : Z) :
  keeps h0 (St.embed_ts ts lag dim) (fresh h0).
Proof.
  unfold St.embed_ts.
  eapply keeps_bind; [apply keeps_read |]. intros s _.
  eapply keeps_bind; [apply keeps_lift |]. intros m _.
  apply keeps_alloc.
Qed.

Lemma keeps_fnn_loop (ts_scaled : St.aref) (lag : Z) (rtol atol : R)
    (ts_std : num) (fnn_prop : St.aref) (dims : list Z) :
  fresh h0 fnn_prop ->
  forall ind,
    keeps h0 (St.fnn_loop ts_scaled lag rtol atol ts_std ind dims fnn_prop)
          (fun _ => True).
Proof.
  intros Hp. induction dims as [| dim rest IH]; intros ind.
  - now apply keeps_ret.
  - intros h Hh. simpl St.fnn_loop.
    destruct (keeps_embed_ts ts_scaled lag (dim + 1) h Hh) as [He Hq].
    destruct (St.embed_ts ts_scaled lag (dim + 1) h) as [[emb_next | e] h'].
    + simpl in He. specialize (Hq emb_next eq_refl). revert h' He.
      change (keeps h0
        (St.bindM (St.nn Scipy.chebyshev (St.view St.cols_from_1 emb_next))
           (fun r =>
            St.bindM (St.read emb_next) (fun en =>
            St.bindM (St.read (fst r)) (fun inds =>
            St.bindM (St.read (snd r)) (fun dc =>
            St.bindM (St.read fnn_prop) (fun p =>
            St.bindM
              (St.store fnn_prop
                 (St.ArrN (set_item ind
                    (Utils.fnn_rate rtol atol ts_std (St.as_MatR en)
                       (St.as_ArrI inds) (St.as_ArrN dc)) (St.as_ArrN p))))
              (fun _ => St.fnn_loop ts_scaled lag rtol atol ts_std (S ind)
                          rest fnn_prop)))))))
        (fun _ => True)).
      eapply keeps_bind; [apply keeps_nn |]. intros r _.
      eapply keeps_bind; [apply keeps_read |]. intros en _.
      eapply keeps_bind; [apply keeps_read |]. intros inds _.
      eapply keeps_bind; [apply keeps_read |]. intros dc _.
      eapply keeps_bind; [apply keeps_read |]. intros p _.
      eapply keeps_bind; [now apply keeps_store |]. intros _ _.
      apply IH.
    + simpl in He. destruct e; (split; [exact He | intros a Ha; trivial]).
Qed.

Lemma keeps_embed_dim_fnn (ts : St.aref) (lag : Z) (dims : Utils.dims_arg)
    (rtol atol : R) (ts_scaled : option St.aref) :
  keeps h0 (St.embed_dim_fnn ts lag dims rtol atol ts_scaled) (fun _ => True).
Proof.
  unfold St.embed_dim_fnn. destruct (lag <=? 0)%Z; [apply keeps_raise |].
  eapply keeps_bind; [apply keeps_standardize_ts |]. intros s _.
  eapply keeps_bind; [apply keeps_alloc |]. intros fnn_prop Hp.
  eapply keeps_bind; [apply keeps_read |]. intros x _.
  now apply keeps_fnn_loop.
Qed.

End Keeps.

Lemma keeps_cao_loop (h0 : St.heap) (ts_scaled : St.aref) (lag : Z)
    (zeros : St.aref) (dims : list Z) :
  fresh h0 zeros ->
  forall ind,
    keeps h0 (St.cao_loop ts_scaled lag ind dims zeros) (fun _ => True).
Proof.
  intros Hz. induction dims as [| dim rest IH]; intros ind.
  - now apply keeps_ret.
  - intros h Hh. simpl St.cao_loop.
    destruct (keeps_embed_ts h0 ts_scaled lag (dim + 1) h Hh) as [He Hq].
    destruct (St.embed_ts ts_scaled lag (dim + 1) h) as [[emb_next | e] h'].
    + simpl in He. specialize (Hq emb_next eq_refl). revert h' He.
      match goal with
      | |- forall h', extends h0 h' ->
                      extends h0 (snd (?m h')) /\ _ =>
          change (keeps h0 m (fun _ => True))
      end.
      eapply keeps_bind; [apply keeps_nn |]. intros r _.
      eapply keeps_bind; [apply keeps_read |]. intros en _.
      eapply keeps_bind; [apply keeps_read |]. intros inds _.
      eapply keeps_bind; [apply keeps_read |]. intros dc _.
      eapply keeps_bind; [apply keeps_read |]. intros a _.
      eapply keeps_bind; [apply keeps_read |]. intros z _.
      eapply keeps_bind; [now apply keeps_store |]. intros _ _.
      eapply keeps_bind; [apply keeps_read |]. intros b _.
      eapply keeps_bind; [apply keeps_read |]. intros z' _.
      eapply keeps_bind; [now apply keeps_store |]. intros _ _.
      apply IH.
    + simpl in He. destruct e;
        try (split; [exact He | intros a Ha; trivial]).
      clear Hq. revert h' He.
      match goal with
      | |- forall h', extends h0 h' ->
                      extends h0 (snd (?m h')) /\ _ =>
          change (keeps h0 m (fun _ => True))
      end.
      eapply keeps_bind; [apply keeps_read |]. intros a _.
      eapply keeps_bind; [apply keeps_read |]. intros z _.
      eapply keeps_bind; [now apply keeps_store |]. intros _ _.
      eapply keeps_bind; [apply keeps_read |]. intros b _.
      eapply keeps_bind; [apply keeps_read |]. intros z' _.
      now apply keeps_store.
Qed.

Lemma keeps_embed_dim_cao (h0 : St.heap) (ts : St.aref) (lag : Z)
    (dims : Utils.dims_arg) (ts_scaled : option St.aref) :
  keeps h0 (St.embed_dim_cao ts lag dims ts_scaled) (fun _ => True).
Proof.
  unfold St.embed_dim_cao. destruct (lag <=? 0)%Z; [apply keeps_raise |].
  eapply keeps_bind; [apply keeps_standardize_ts |]. intros s _.
  eapply keeps_bind; [apply keeps_alloc |]. intros zeros Hz.
  eapply keeps_bind; [now apply keeps_cao_loop |]. intros _ _.
  eapply keeps_bind; [apply keeps_read |]. intros ed _.
  eapply keeps_bind; [apply keeps_alloc |]. intros e1 _.
  eapply keeps_bind; [apply keeps_read |]. intros ed_star _.
  eapply keeps_bind; [apply keeps_alloc |]. intros e2 _.
  now apply keeps_ret.
Qed.

Lemma keeps_frame {A : Type} (h : St.heap) (m : St.M A) (Q : A -> Prop) :
  keeps h m Q -> firstn (length h) (snd (m h)) = h.
Proof.
  intros Hm. apply extends_firstn. apply (Hm h (extends_refl h)).
Qed.

(** C9.  Whatever the store holds when [standardize_ts], [nn],
    [embed_dim_fnn] or [embed_dim_cao] is called, every array in it (the
    input sequence, the precomputed sequence, the embedding given to [nn])
    holds the same elements when the call ends, by a return or by an
    exception: the calls write only into arrays they allocate. *)
Theorem core_operations_leave_inputs_unchanged (h : St.heap) :
  (forall ts ts_scaled,
      firstn (length h) (snd (St.standardize_ts ts ts_scaled h)) = h) /\
  (forall metric embed,
      firstn (length h) (snd (St.nn metric embed h)) = h) /\
  (forall ts lag dims rtol atol ts_scaled,
      firstn (length h)
             (snd (St.embed_dim_fnn ts lag dims rtol atol ts_scaled h)) = h) /\
  (forall ts lag dims ts_scaled,
      firstn (length h)
             (snd (St.embed_dim_cao ts lag dims ts_scaled h)) = h).
Proof.
  repeat split; intros.
  - eapply keeps_frame, keeps_standardize_ts.
  - eapply keeps_frame, keeps_nn.
  - eapply keeps_frame, keeps_embed_dim_fnn.
  - eapply keeps_frame, keeps_embed_dim_cao.
Qed.

(** ** The functions on the store compute what the functions on values do *)

Lemma run_read {B : Type} (r : St.aref) (k : St.ndarray -> St.M B)
    (h : St.heap) :
  St.bindM (St.read r) k h = k (shows h r) h.
Proof. reflexivity. Qed.

Lemma run_alloc {B : Type} (a : St.ndarray) (k : St.aref -> St.M B)
    (h : St.heap) :
  St.bindM (St.alloc a) k h = k (St.whole (length h)) (h ++ [a]).
Proof. reflexivity. Qed.

Lemma run_store {B : Type} (r : St.aref) (a : St.ndarray)
    (k : unit -> St.M B) (h : St.heap) :
  St.bindM (St.store r a) k h = k tt (set_item (St.base r) a h).
Proof. reflexivity. Qed.

Lemma run_lift_ok {A B : Type} (a : A) (k : A -> St.M B) (h : St.heap) :
  St.bindM (St.lift (Ok a)) k h = k a h.
Proof. reflexivity. Qed.

Lemma run_lift_raise {A B : Type} (e : exn) (k : A -> St.M B) (h : St.heap) :
  St.bindM (St.lift (Raise e)) k h = (Raise e, h).
Proof. reflexivity. Qed.

Lemma shows_whole_new (h : St.heap) (a : St.ndarray) (ext : St.heap) :
  shows (h ++ a :: ext) (St.whole (length h)) = a.
Proof. unfold shows. simpl. apply nth_middle. Qed.

Lemma shows_app_old (h ext : St.heap) (r : St.aref) :
  (St.base r < length h)%nat -> shows (h ++ ext) r = shows h r.
Proof. intros H. unfold shows. now rewrite app_nth1. Qed.

Lemma shows_set_item_same (h : St.heap) (l : nat) (a : St.ndarray) :
  (l < length h)%nat -> shows (set_item l a h) (St.whole l) = a.
Proof. intros H. unfold shows. simpl. now apply set_item_nth_same. Qed.

Lemma shows_set_item_other (h : St.heap) (l : nat) (a : St.ndarray)
    (r : St.aref) :
  l <> St.base r -> shows (set_item l a h) r = shows h r.
Proof. intros H. unfold shows. now rewrite set_item_nth_other. Qed.

Lemma set_item_last {A : Type} (h : list A) (a b : A) :
  set_item (length h) b (h ++ [a]) = h ++ [b].
Proof.
  rewrite set_item_app_r by lia. now rewrite Nat.sub_diag.
Qed.

Lemma standardize_ts_refines (h : St.heap) (ts : St.aref)
    (ts_scaled : option St.aref) :
  agrees (fun r h' y => St.as_ArrR (shows h' r) = y)
         (St.standardize_ts ts ts_scaled h)
         (Utils.standardize_ts (St.as_ArrR (shows h ts))
            (option_map (fun r => St.as_ArrR (shows h r)) ts_scaled)).
Proof.
  destruct ts_scaled as [sc |]; [reflexivity |].
  unfold St.standardize_ts, Utils.standardize_ts. simpl option_map.
  rewrite run_read.
  change (shows h (St.view (fun a : St.ndarray => a) ts)) with (shows h ts).
  destruct (Sklearn.fit_transform (St.as_ArrR (shows h ts))) as [y | e].
  - rewrite run_lift_ok, run_alloc. unfold agrees, St.ret. cbn [fst snd].
    change (shows (h ++ [St.ArrR y])
              (St.view (fun a : St.ndarray => a) (St.whole (length h))))
      with (shows (h ++ [St.ArrR y]) (St.whole (length h))).
    now rewrite shows_whole_new.
  - rewrite run_lift_raise. reflexivity.
Qed.

Lemma mask_after_Fin (cd : list (list R)) :
  map (map (fun d => if isclose0 d then PInf else d)) (map (map Fin) cd)
  = map (map Utils.mask_close) cd.
Proof.
  rewrite map_map. apply map_ext. intros row. rewrite map_map.
  apply map_ext. intros d. reflexivity.
Qed.

Lemma match_nonempty {A B : Type} (l : list A) (x y : B) :
  l <> [] -> match l with [] => x | _ :: _ => y end = y.
Proof. destruct l; [congruence | reflexivity]. Qed.

Lemma nn_refines (metric : list R -> list R -> R) (h : St.heap)
    (embed : St.aref) :
  agrees (fun r h' p =>
            St.as_ArrI (shows h' (fst r)) = fst p /\
            St.as_ArrN (shows h' (snd r)) = snd p /\
            (St.base (fst r) < length h')%nat /\
            (St.base (snd r) < length h')%nat)
         (St.nn metric embed h)
         (Utils.nn metric (St.as_MatR (shows h embed))).
Proof.
  unfold St.nn, Utils.nn, Utils.nn_dist_mat.
  rewrite run_read. set (e := St.as_MatR (shows h embed)).
  rewrite run_alloc, run_read, shows_whole_new, run_store.
  simpl St.base. rewrite set_item_last, run_read, shows_whole_new.
  cbn [St.as_MatN]. rewrite !mask_after_Fin.
  destruct e as [| r0 rest] eqn:He; [reflexivity |]. rewrite <- He.
  assert (Hm : map (map Utils.mask_close) (Scipy.cdist metric e e) <> [])
    by (rewrite He; discriminate).
  rewrite (match_nonempty _ _ _ Hm).
  rewrite run_alloc, run_read, shows_whole_new, run_alloc.
  unfold agrees, St.ret. cbn [fst snd St.as_ArrI].
  rewrite <- !app_assoc. cbn [app].
  unfold shows, St.whole. cbn [St.base St.look].
  rewrite !length_app. cbn [length].
  split; [| split; [| split]].
  - now rewrite app_nth2_plus.
  - now rewrite app_nth2_plus.
  - lia.
  - lia.
Qed.

Lemma run_embed_ts (ts : St.aref) (lag dim : Z) (h : St.heap) :
  St.embed_ts ts lag dim h =
  match Embed.embed_ts (St.as_ArrR (shows h ts)) lag dim with
  | Ok m => (Ok (St.whole (length h)), h ++ [St.MatR m])
  | Raise e => (Raise e, h)
  end.
Proof.
  unfold St.embed_ts. rewrite run_read.
  destruct (Embed.embed_ts (St.as_ArrR (shows h ts)) lag dim); reflexivity.
Qed.

(** One successful pass of the body of either loop: the neighbour search on
    the view [emb_next[:, 1:]], seen from the store. *)
Lemma run_nn_on_view (h : St.heap) (m : list (list R)) :
  let h1 := h ++ [St.MatR m] in
  let emb_cur := St.view St.cols_from_1 (St.whole (length h)) in
  match St.nn Scipy.chebyshev emb_cur h1,
        Utils.nn Scipy.chebyshev (Utils.drop_col0 m) with
  | (Ok r, h2), Ok p =>
      (exists ext, h2 = h1 ++ ext) /\
      St.as_ArrI (shows h2 (fst r)) = fst p /\
      St.as_ArrN (shows h2 (snd r)) = snd p
  | (Raise e, h2), Raise e' => (exists ext, h2 = h1 ++ ext) /\ e = e'
  | _, _ => False
  end.
Proof.
  intros h1 emb_cur.
  pose proof (nn_refines Scipy.chebyshev h1 emb_cur) as Hr.
  assert (Hs : St.as_MatR (shows h1 emb_cur) = Utils.drop_col0 m).
  { unfold emb_cur, h1.
    change (shows (h ++ [St.MatR m])
              (St.view St.cols_from_1 (St.whole (length h))))
      with (St.cols_from_1 (shows (h ++ [St.MatR m]) (St.whole (length h)))).
    now rewrite shows_whole_new. }
  rewrite Hs in Hr.
  destruct (keeps_nn h1 Scipy.chebyshev emb_cur h1 (extends_refl h1))
    as [Hext _].
  unfold agrees in Hr.
  destruct (St.nn Scipy.chebyshev emb_cur h1) as [[r | e] h2];
    destruct (Utils.nn Scipy.chebyshev (Utils.drop_col0 m)) as [p | e'];
    cbn [fst snd] in *; try contradiction.
  - destruct Hr as (H1 & H2 & _). split; [exact Hext | now split].
  - split; [exact Hext | exact Hr].
Qed.

Lemma fnn_loop_refines (ts_scaled : St.aref) (lag : Z) (rtol atol : R)
    (ts_std : num) (l : nat) (dims : list Z) :
  forall ind h,
    (St.base ts_scaled < length h)%nat -> (l < length h)%nat ->
    St.base ts_scaled <> l ->
    agrees (fun r h' q => St.as_ArrN (shows h' r) = q)
      (St.fnn_loop ts_scaled lag rtol atol ts_std ind dims (St.whole l) h)
      (Utils.fnn_loop (St.as_ArrR (shows h ts_scaled)) lag rtol atol ts_std
                      ind dims (St.as_ArrN (shows h (St.whole l)))).
Proof.
  induction dims as [| dim rest IH]; intros ind h Hts Hl Hne.
  - reflexivity.
  - cbn [St.fnn_loop Utils.fnn_loop]. rewrite run_embed_ts.
    destruct (Embed.embed_ts (St.as_ArrR (shows h ts_scaled)) lag (dim + 1))
      as [m | e] eqn:He.
    2:{ apply embed_ts_raises in He. subst e. reflexivity. }
    pose proof (run_nn_on_view h m) as Hnn. cbv zeta in Hnn.
    unfold St.bindM at 1.
    destruct (St.nn Scipy.chebyshev
                (St.view St.cols_from_1 (St.whole (length h)))
                (h ++ [St.MatR m])) as [[r | e] h2];
      destruct (Utils.nn Scipy.chebyshev (Utils.drop_col0 m)) as [p | e'];
      try contradiction.
    2:{ destruct Hnn as [_ ->]. reflexivity. }
    destruct Hnn as ([ext ->] & Hi & Hd).
    rewrite !run_read, run_store. cbn [bind St.base].
    rewrite <- app_assoc in *.
    rewrite (shows_app_old h _ (St.whole l)) by exact Hl.
    change (St.base (St.whole l)) with l.
    assert (Hen : St.as_MatR (shows (h ++ [St.MatR m] ++ ext)
                                    (St.whole (length h))) = m).
    { simpl app. now rewrite shows_whole_new. }
    rewrite Hen, Hi, Hd.
    set (v := Utils.fnn_rate rtol atol ts_std m (fst p) (snd p)).
    set (h3 := set_item l (St.ArrN (set_item ind v
                  (St.as_ArrN (shows h (St.whole l)))))
                 (h ++ [St.MatR m] ++ ext)).
    assert (Hl3 : length h3 = length (h ++ [St.MatR m] ++ ext))
      by apply set_item_length.
    assert (Hlen : (length h <= length h3)%nat)
      by (rewrite Hl3, length_app; lia).
    specialize (IH (S ind) h3 ltac:(lia) ltac:(lia) Hne).
    assert (E1 : shows h3 ts_scaled = shows h ts_scaled).
    { unfold h3. rewrite shows_set_item_other by congruence.
      now apply shows_app_old. }
    assert (E2 : shows h3 (St.whole l)
                 = St.ArrN (set_item ind v (St.as_ArrN (shows h (St.whole l))))).
    { unfold h3. apply shows_set_item_same. rewrite length_app. lia. }
    rewrite E1, E2 in IH. exact IH.
Qed.

Lemma embed_dim_fnn_refines (h : St.heap) (ts : St.aref) (lag : Z)
    (dims : Utils.dims_arg) (rtol atol : R) (ts_scaled : option St.aref) :
  (St.base ts < length h)%nat ->
  agrees (fun r h' q => St.as_ArrN (shows h' r) = q)
    (St.embed_dim_fnn ts lag dims rtol atol ts_scaled h)
    (Utils.embed_dim_fnn (St.as_ArrR (shows h ts)) lag dims rtol atol
       (option_map (fun r => St.as_ArrR (shows h r)) ts_scaled)).
Proof.
  intros Hts. unfold St.embed_dim_fnn, Utils.embed_dim_fnn.
  destruct (lag <=? 0)%Z; [reflexivity |].
  set (ds := Utils.resolve_dims dims).
  destruct ts_scaled as [sc |].
  - cbn [option_map Utils.standardize_ts St.standardize_ts bind].
    unfold St.bindM at 1. cbn [St.ret].
    rewrite run_alloc, run_read.
    rewrite (shows_app_old h _ ts) by exact Hts.
    pose proof (fnn_loop_refines ts lag rtol atol
                  (std (St.as_ArrR (shows h ts))) (length h) ds 0
                  (h ++ [St.ArrN (repeat (Fin 0) (length ds))])) as H.
    rewrite (shows_app_old h _ ts) in H by exact Hts.
    rewrite shows_whole_new in H. apply H.
    + rewrite length_app. lia.
    + rewrite length_app. simpl. lia.
    + lia.
  - cbn [option_map Utils.standardize_ts St.standardize_ts].
    unfold St.bindM at 1. rewrite run_read.
    change (shows h (St.view (fun a : St.ndarray => a) ts)) with (shows h ts).
    destruct (Sklearn.fit_transform (St.as_ArrR (shows h ts))) as [y | e];
      [| reflexivity].
    rewrite run_lift_ok, run_alloc. cbn [St.ret bind].
    rewrite run_alloc, run_read.
    rewrite <- app_assoc. cbn [app].
    rewrite (shows_app_old h _ ts) by exact Hts.
    set (sc := St.view (fun a : St.ndarray => a) (St.whole (length h))).
    pose proof (fnn_loop_refines sc lag rtol atol
                  (std (St.as_ArrR (shows h ts))) (length (h ++ [St.ArrR y]))
                  ds 0
                  (h ++ [St.ArrR y; St.ArrN (repeat (Fin 0) (length ds))]))
      as H.
    assert (E1 : shows (h ++ [St.ArrR y; St.ArrN (repeat (Fin 0) (length ds))])
                       sc = St.ArrR y).
    { unfold sc.
      change (shows ?hh (St.view (fun a : St.ndarray => a) ?r))
        with (shows hh r).
      apply shows_whole_new. }
    assert (E2 : shows (h ++ [St.ArrR y; St.ArrN (repeat (Fin 0) (length ds))])
                       (St.whole (length (h ++ [St.ArrR y])))
                 = St.ArrN (repeat (Fin 0) (length ds))).
    { change (h ++ [St.ArrR y; St.ArrN (repeat (Fin 0) (length ds))])
        with (h ++ [St.ArrR y] ++ [St.ArrN (repeat (Fin 0) (length ds))]).
      rewrite app_assoc. apply shows_whole_new. }
    rewrite E1, E2 in H. apply H.
    + unfold sc. simpl. rewrite length_app. simpl. lia.
    + rewrite !length_app. simpl. lia.
    + unfold sc. simpl. rewrite length_app. simpl. lia.
Qed.

Lemma shows_rows (h : St.heap) (l : nat) (ed es : list num) :
  shows h (St.whole l) = St.MatN [ed; es] ->
  St.as_ArrN (shows h (St.view (St.row_of 0) (St.whole l))) = ed /\
  St.as_ArrN (shows h (St.view (St.row_of 1) (St.whole l))) = es.
Proof.
  intros H.
  change (shows h (St.view (St.row_of 0) (St.whole l)))
    with (St.row_of 0 (shows h (St.whole l))).
  change (shows h (St.view (St.row_of 1) (St.whole l)))
    with (St.row_of 1 (shows h (St.whole l))).
  rewrite H. split; reflexivity.
Qed.

(** The two row assignments of one pass, on a store where the array of
    [ed] and [ed_star] sits at [l]. *)
Lemma run_store_rows {B : Type} (h : St.heap) (l : nat)
    (ed es : list num) (f g : list num -> list num) (k : unit -> St.M B) :
  (l < length h)%nat ->
  shows h (St.whole l) = St.MatN [ed; es] ->
  exists h',
    St.bindM (St.read (St.view (St.row_of 0) (St.whole l))) (fun a =>
    St.bindM (St.read (St.whole l)) (fun z =>
    St.bindM (St.store (St.whole l) (St.set_row 0 (f (St.as_ArrN a)) z))
      (fun _ =>
    St.bindM (St.read (St.view (St.row_of 1) (St.whole l))) (fun b =>
    St.bindM (St.read (St.whole l)) (fun z =>
    St.bindM (St.store (St.whole l) (St.set_row 1 (g (St.as_ArrN b)) z))
      k))))) h = k tt h' /\
    length h' = length h /\
    shows h' (St.whole l) = St.MatN [f ed; g es] /\
    forall r, St.base r <> l -> shows h' r = shows h r.
Proof.
  intros Hl Hz.
  destruct (shows_rows h l ed es Hz) as [Ha Hb].
  rewrite !run_read, run_store. rewrite Ha, Hz.
  change (St.base (St.whole l)) with l.
  set (h1 := set_item l (St.set_row 0 (f ed) (St.MatN [ed; es])) h).
  assert (Hz1 : shows h1 (St.whole l) = St.MatN [f ed; es]).
  { unfold h1. now rewrite shows_set_item_same. }
  destruct (shows_rows h1 l (f ed) es Hz1) as [_ Hb1].
  rewrite !run_read, run_store. rewrite Hb1, Hz1.
  change (St.base (St.whole l)) with l.
  eexists. split; [reflexivity |].
  split; [| split].
  - unfold h1. now rewrite !set_item_length.
  - rewrite shows_set_item_same by (unfold h1; now rewrite set_item_length).
    reflexivity.
  - intros r Hr. rewrite shows_set_item_other by congruence.
    unfold h1. now rewrite shows_set_item_other by congruence.
Qed.

Lemma cao_loop_refines (ts_scaled : St.aref) (lag : Z) (l : nat)
    (dims : list Z) :
  forall ind h ed es,
    (St.base ts_scaled < length h)%nat -> (l < length h)%nat ->
    St.base ts_scaled <> l ->
    shows h (St.whole l) = St.MatN [ed; es] ->
    agrees (fun _ h' p => shows h' (St.whole l) = St.MatN [fst p; snd p])
      (St.cao_loop ts_scaled lag ind dims (St.whole l) h)
      (Utils.cao_loop (St.as_ArrR (shows h ts_scaled)) lag ind dims ed es).
Proof.
  induction dims as [| dim rest IH]; intros ind h ed es Hts Hl Hne Hz.
  - exact Hz.
  - cbn [St.cao_loop Utils.cao_loop]. rewrite run_embed_ts.
    destruct (Embed.embed_ts (St.as_ArrR (shows h ts_scaled)) lag (dim + 1))
      as [m | e] eqn:He.
    + pose proof (run_nn_on_view h m) as Hnn. cbv zeta in Hnn.
      unfold St.bindM at 1.
      destruct (St.nn Scipy.chebyshev
                  (St.view St.cols_from_1 (St.whole (length h)))
                  (h ++ [St.MatR m])) as [[r | e] h2];
        destruct (Utils.nn Scipy.chebyshev (Utils.drop_col0 m)) as [p | e'];
        try contradiction.
      2:{ destruct Hnn as [_ ->]. reflexivity. }
      destruct Hnn as ([ext ->] & Hi & Hd).
      do 3 rewrite run_read. cbn [bind].
      rewrite <- app_assoc in *.
      assert (Hen : St.as_MatR (shows (h ++ [St.MatR m] ++ ext)
                                      (St.whole (length h))) = m).
      { simpl app. now rewrite shows_whole_new. }
      rewrite Hen, Hi, Hd.
      assert (Hz2 : shows (h ++ [St.MatR m] ++ ext) (St.whole l)
                    = St.MatN [ed; es]).
      { now rewrite shows_app_old by exact Hl. }
      destruct (run_store_rows (h ++ [St.MatR m] ++ ext) l ed es
                  (set_item ind (Utils.cao_ed m (fst p) (snd p)))
                  (set_item ind (Utils.cao_ed_star m (fst p)))
                  (fun _ => St.cao_loop ts_scaled lag (S ind) rest
                                        (St.whole l)))
        as (h3 & Hrun & Hl3 & Hz3 & Hother);
        [rewrite length_app; lia | exact Hz2 |].
      rewrite Hrun.
      assert (Hlen : (length h <= length h3)%nat)
        by (rewrite Hl3, length_app; lia).
      specialize (IH (S ind) h3 _ _ ltac:(lia) ltac:(lia) Hne Hz3).
      rewrite (Hother ts_scaled Hne) in IH.
      rewrite (shows_app_old h _ ts_scaled) in IH by exact Hts.
      exact IH.
    + apply embed_ts_raises in He. subst e.
      destruct (run_store_rows h l ed es (fill_from ind NaN)
                  (fill_from ind NaN) (fun u => St.ret u))
        as (h3 & Hrun & Hl3 & Hz3 & _); [exact Hl | exact Hz |].
      unfold agrees.
      match goal with
      | |- match fst (?m h) with _ => _ end =>
          replace (m h) with (St.ret tt h3)
      end.
      exact Hz3.
Qed.

Lemma run_standardize_ts (h : St.heap) (ts : St.aref)
    (ts_scaled : option St.aref) :
  (St.base ts < length h)%nat ->
  (exists r h',
      St.standardize_ts ts ts_scaled h = (Ok r, h') /\
      Utils.standardize_ts (St.as_ArrR (shows h ts))
        (option_map (fun r => St.as_ArrR (shows h r)) ts_scaled)
      = Ok (St.as_ArrR (shows h' r)) /\
      (St.base r < length h')%nat /\ exists ext, h' = h ++ ext) \/
  (exists e,
      St.standardize_ts ts ts_scaled h = (Raise e, h) /\
      Utils.standardize_ts (St.as_ArrR (shows h ts))
        (option_map (fun r => St.as_ArrR (shows h r)) ts_scaled)
      = Raise e).
Proof.
  intros Hts. destruct ts_scaled as [sc |].
  - left. exists ts, h. cbn. repeat split; try assumption.
    exists []. now rewrite app_nil_r.
  - cbn [option_map Utils.standardize_ts St.standardize_ts].
    rewrite run_read.
    change (shows h (St.view (fun a : St.ndarray => a) ts)) with (shows h ts).
    destruct (Sklearn.fit_transform (St.as_ArrR (shows h ts))) as [y | e].
    + left. rewrite run_lift_ok, run_alloc. cbn [St.ret].
      eexists. eexists. split; [reflexivity |].
      change (shows ?hh (St.view (fun a : St.ndarray => a) ?r))
        with (shows hh r).
      rewrite shows_whole_new. split; [reflexivity |].
      split; [simpl; rewrite length_app; simpl; lia | eexists; reflexivity].
    + right. exists e. split; reflexivity.
Qed.

Lemma embed_dim_cao_refines (h : St.heap) (ts : St.aref) (lag : Z)
    (dims : Utils.dims_arg) (ts_scaled : option St.aref) :
  (St.base ts < length h)%nat ->
  agrees (fun r h' p => St.as_ArrN (shows h' (fst r)) = fst p /\
                        St.as_ArrN (shows h' (snd r)) = snd p)
    (St.embed_dim_cao ts lag dims ts_scaled h)
    (Utils.embed_dim_cao (St.as_ArrR (shows h ts)) lag dims
       (option_map (fun r => St.as_ArrR (shows h r)) ts_scaled)).
Proof.
  intros Hts. unfold St.embed_dim_cao, Utils.embed_dim_cao.
  destruct (lag <=? 0)%Z; [reflexivity |].
  set (ds := Utils.resolve_dims dims).
  destruct (run_standardize_ts h ts ts_scaled Hts)
    as [(r & h1 & Hrun & Hpure & Hr & ext & Hext) | (e & Hrun & Hpure)];
    unfold St.bindM at 1; rewrite Hrun, Hpure; [| reflexivity].
  cbn [bind]. rewrite run_alloc.
  set (zs := repeat (Fin 0) (length ds)).
  change (repeat zs 2) with [zs; zs].
  pose proof (cao_loop_refines r lag (length h1) ds 0
                (h1 ++ [St.MatN [zs; zs]]) zs zs) as Hloop.
  rewrite (shows_app_old h1 _ r) in Hloop by exact Hr.
  specialize (Hloop ltac:(rewrite length_app; lia)
                    ltac:(rewrite length_app; simpl; lia)
                    ltac:(lia) (shows_whole_new h1 _ [])).
  unfold St.bindM at 1. unfold agrees in Hloop.
  destruct (St.cao_loop r lag 0 ds (St.whole (length h1))
              (h1 ++ [St.MatN [zs; zs]])) as [[u | e] h2];
    destruct (Utils.cao_loop (St.as_ArrR (shows h1 r)) lag 0 ds zs zs)
      as [[ed es] | e']; cbn [fst snd] in Hloop; try contradiction.
  2:{ subst e'. reflexivity. }
  destruct (shows_rows h2 (length h1) ed es Hloop) as [Ha Hb].
  rewrite run_read, run_alloc, run_read, run_alloc.
  rewrite (shows_app_old h2 _ (St.view (St.row_of 1) (St.whole (length h1)))).
  2:{ destruct (Nat.lt_ge_cases (length h1) (length h2)) as [Hv | Hv];
        [exact Hv |].
      unfold shows in Hloop. cbn [St.base St.look St.whole] in Hloop.
      rewrite nth_overflow in Hloop by exact Hv. discriminate. }
  rewrite Ha, Hb. unfold agrees, St.ret. cbn [fst snd bind].
  split.
  - rewrite <- app_assoc. cbn [app]. now rewrite shows_whole_new.
  - now rewrite shows_whole_new.
Qed.

(** * Properties of the other helpers *)

Import NpArr.
Import String.StringSyntax.
Delimit Scope string_scope with string.

(** ** Differences, padding and masks, index by index *)

Lemma Rdiff_length (l : list R) : length (Rdiff l) = pred (length l).
Proof.
  induction l as [| a [| b tl] IH]; try reflexivity.
  change (Rdiff (a :: b :: tl)) with ((b - a) :: Rdiff (b :: tl)).
  simpl length in *. now rewrite IH.
Qed.

Lemma Rdiff_nth (l : list R) (i : nat) :
  (S i < length l)%nat -> nth i (Rdiff l) 0 = nth (S i) l 0 - nth i l 0.
Proof.
  revert i. induction l as [| a [| b tl] IH]; intros i Hi;
    try (simpl in Hi; lia).
  change (Rdiff (a :: b :: tl)) with ((b - a) :: Rdiff (b :: tl)).
  destruct i as [| i]; [reflexivity |].
  change (nth i (Rdiff (b :: tl)) 0 = nth (S i) (b :: tl) 0 - nth i (b :: tl) 0).
  apply IH. simpl in *. lia.
Qed.

Lemma pad_ints_length (mask : list bool) :
  length (UtilsB.pad_ints mask) = S (S (length mask)).
Proof.
  unfold UtilsB.pad_ints. simpl. rewrite length_app, length_map. simpl. lia.
Qed.

Lemma pad_ints_first (mask : list bool) : nth 0 (UtilsB.pad_ints mask) 0%Z = 0%Z.
Proof. reflexivity. Qed.

Lemma pad_ints_last (mask : list bool) :
  nth (S (length mask)) (UtilsB.pad_ints mask) 0%Z = 0%Z.
Proof.
  unfold UtilsB.pad_ints. cbn [nth].
  rewrite app_nth2 by (rewrite length_map; lia).
  rewrite length_map, Nat.sub_diag. reflexivity.
Qed.

Lemma pad_ints_inner (mask : list bool) (k : nat) :
  (k < length mask)%nat ->
  nth (S k) (UtilsB.pad_ints mask) 0%Z
  = if nth k mask false then 1%Z else 0%Z.
Proof.
  intros Hk. unfold UtilsB.pad_ints. cbn [nth].
  rewrite app_nth1 by (now rewrite length_map).
  now rewrite (nth_map_lt _ _ _ false).
Qed.

Lemma turning_mask_length (d : list R) :
  length (UtilsB.turning_mask d) = pred (length d).
Proof.
  unfold UtilsB.turning_mask.
  rewrite length_map, length_combine, removelast_length.
  destruct d; simpl; [reflexivity | apply Nat.min_id].
Qed.

Lemma turning_mask_nth (d : list R) (k : nat) :
  (S k < length d)%nat ->
  nth k (UtilsB.turning_mask d) false
  = Rltb (nth (S k) d 0 * nth k d 0) 0.
Proof.
  intros Hk. unfold UtilsB.turning_mask.
  assert (Hl : length (tl d) = length (removelast d)).
  { rewrite removelast_length. now destruct d. }
  rewrite (nth_map_lt _ _ _ (0, 0)).
  - rewrite combine_nth by exact Hl. cbn [fst snd].
    now rewrite tl_nth, removelast_nth.
  - rewrite length_combine, Hl, Nat.min_id, removelast_length. lia.
Qed.

(** The sign of the product of two consecutive differences. *)
Lemma turning_sign (a b c : R) :
  (c - b) * (b - a) < 0 <-> (a < b /\ c < b) \/ (b < a /\ b < c).
Proof.
  split.
  - intros H.
    destruct (Rlt_dec a b) as [Hab | Hab].
    + left. split; [exact Hab |]. nra.
    + right. destruct (Rlt_dec b a) as [Hba | Hba].
      * split; [exact Hba |]. nra.
      * assert (b - a = 0) by lra. nra.
  - intros [[H1 H2] | [H1 H2]]; nra.
Qed.

(** ** [find_crit_pt]: what is returned for each type *)

Lemma find_crit_pt_non_plateau (arr : list R) :
  (2 < length arr)%nat ->
  UtilsB.find_crit_pt arr "non-plateau"%string
  = Ok (UtilsB.IntArr (UtilsB.pad_ints (UtilsB.turning_mask (Rdiff arr)))).
Proof.
  intros H. unfold UtilsB.find_crit_pt.
  apply Nat.leb_gt in H. rewrite H. reflexivity.
Qed.

Lemma find_crit_pt_max (arr : list R) :
  (2 < length arr)%nat ->
  UtilsB.find_crit_pt arr "max"%string
  = Ok (UtilsB.IntArr (UtilsB.pad_ints (extremum_mask true arr))).
Proof.
  intros H. unfold UtilsB.find_crit_pt.
  apply Nat.leb_gt in H. rewrite H. reflexivity.
Qed.

Lemma find_crit_pt_min (arr : list R) :
  (2 < length arr)%nat ->
  UtilsB.find_crit_pt arr "min"%string
  = Ok (UtilsB.IntArr (UtilsB.pad_ints (extremum_mask false arr))).
Proof.
  intros H. unfold UtilsB.find_crit_pt.
  apply Nat.leb_gt in H. rewrite H. reflexivity.
Qed.

Lemma extremum_mask_length (is_max : bool) (arr : list R) :
  length (extremum_mask is_max arr) = (length arr - 2)%nat.
Proof.
  unfold extremum_mask.
  rewrite length_map, length_combine, turning_mask_length, length_map,
    !Rdiff_length. lia.
Qed.

Lemma extremum_mask_nth (is_max : bool) (arr : list R) (k : nat) :
  (S (S k) < length arr)%nat ->
  nth k (extremum_mask is_max arr) false
  = Rltb ((nth (S (S k)) arr 0 - nth (S k) arr 0)
          * (nth (S k) arr 0 - nth k arr 0)) 0
    && (if is_max
        then Rltb ((nth (S (S k)) arr 0 - nth (S k) arr 0)
                   - (nth (S k) arr 0 - nth k arr 0)) 0
        else Rltb 0 ((nth (S (S k)) arr 0 - nth (S k) arr 0)
                     - (nth (S k) arr 0 - nth k arr 0))).
Proof.
  intros Hk. unfold extremum_mask.
  assert (Hd : length (Rdiff arr) = pred (length arr))
    by apply Rdiff_length.
  assert (Hd2 : length (Rdiff (Rdiff arr)) = pred (pred (length arr)))
    by (now rewrite !Rdiff_length).
  assert (Ht : length (UtilsB.turning_mask (Rdiff arr))
               = pred (pred (length arr)))
    by (now rewrite turning_mask_length, Hd).
  rewrite (nth_map_lt _ _ _ (false, false))
    by (rewrite length_combine, Ht, length_map, Hd2, Nat.min_id; lia).
  rewrite combine_nth by (now rewrite length_map, Ht, Hd2).
  cbn [fst snd].
  rewrite turning_mask_nth by lia.
  rewrite (nth_map_lt _ _ _ 0) by lia.
  rewrite (Rdiff_nth (Rdiff arr)) by lia.
  rewrite !Rdiff_nth by lia.
  destruct is_max; reflexivity.
Qed.

Lemma pad_ints_outer (mask : list bool) (k : nat) :
  (length mask <= k)%nat -> nth (S k) (UtilsB.pad_ints mask) 0%Z = 0%Z.
Proof.
  intros Hk. unfold UtilsB.pad_ints. cbn [nth].
  rewrite app_nth2 by (rewrite length_map; lia).
  destruct (k - length (map (fun b : bool => if b then 1%Z else 0%Z) mask))%nat
    as [| [| j]]; reflexivity.
Qed.

Lemma pad_ints_flag (mask : list bool) (k : nat) :
  (k < length mask)%nat ->
  (nth (S k) (UtilsB.pad_ints mask) 0%Z = 1%Z <-> nth k mask false = true) /\
  (nth (S k) (UtilsB.pad_ints mask) 0%Z = 1%Z \/
   nth (S k) (UtilsB.pad_ints mask) 0%Z = 0%Z).
Proof.
  intros Hk. rewrite pad_ints_inner by exact Hk.
  destruct (nth k mask false); split; auto; split; auto; discriminate.
Qed.

(** X1.  On a series of at least three values, [ft_turning_points] returns
    an array of the length of the series whose entries are 0 or 1, 0 at
    both ends; an inner entry is 1 only where the value is strictly above
    both neighbours or strictly below both. *)
Theorem ft_turning_points_strict_extrema (ts : list R) :
  (2 < length ts)%nat ->
  exists a,
    GeneralB.ft_turning_points ts = Ok (UtilsB.IntArr a) /\
    length a = length ts /\
    nth 0 a 0%Z = 0%Z /\ nth (length ts - 1) a 0%Z = 0%Z /\
    forall k, (S (S k) < length ts)%nat ->
      (nth (S k) a 0%Z = 1%Z \/ nth (S k) a 0%Z = 0%Z) /\
      (nth (S k) a 0%Z = 1%Z ->
       (nth k ts 0 < nth (S k) ts 0 /\ nth (S (S k)) ts 0 < nth (S k) ts 0) \/
       (nth (S k) ts 0 < nth k ts 0 /\ nth (S k) ts 0 < nth (S (S k)) ts 0)).
Proof.
  intros Hn. unfold GeneralB.ft_turning_points.
  rewrite find_crit_pt_non_plateau by exact Hn.
  eexists. split; [reflexivity |].
  assert (Hm : length (UtilsB.turning_mask (Rdiff ts)) = (length ts - 2)%nat)
    by (rewrite turning_mask_length, Rdiff_length; lia).
  split; [rewrite pad_ints_length, Hm; lia |].
  split; [reflexivity |]. split.
  - replace (length ts - 1)%nat
      with (S (length (UtilsB.turning_mask (Rdiff ts)))) by lia.
    apply pad_ints_last.
  - intros k Hk.
    destruct (pad_ints_flag (UtilsB.turning_mask (Rdiff ts)) k) as [Hiff Hor];
      [lia |].
    split; [exact Hor |].
    rewrite Hiff, turning_mask_nth by (rewrite Rdiff_length; lia).
    rewrite !Rdiff_nth by lia.
    rewrite Rltb_true. apply turning_sign.
Qed.

Lemma ft_turning_points_strict_extrema_witness :
  exists a, GeneralB.ft_turning_points [1; 3; 2] = Ok (UtilsB.IntArr a) /\
            length a = 3%nat.
Proof.
  destruct (ft_turning_points_strict_extrema [1; 3; 2])
    as (a & Ha & Hl & _).
  - simpl. lia.
  - exists a. split; [exact Ha | exact Hl].
Defined.

Lemma extremum_sign_max (a b c : R) :
  ((c - b) * (b - a) < 0 /\ (c - b) - (b - a) < 0) <-> (a < b /\ c < b).
Proof.
  split.
  - intros [H1 H2]. apply turning_sign in H1 as [H | [H3 H4]]; [exact H | lra].
  - intros [H1 H2]. split; [nra | lra].
Qed.

Lemma extremum_sign_min (a b c : R) :
  ((c - b) * (b - a) < 0 /\ 0 < (c - b) - (b - a)) <-> (b < a /\ b < c).
Proof.
  split.
  - intros [H1 H2]. apply turning_sign in H1 as [[H3 H4] | H]; [lra | exact H].
  - intros [H1 H2]. split; [nra | lra].
Qed.

(** X2.  On an array of at least three values, [find_crit_pt] with type
    ["max"] marks with 1 only inner positions whose value is strictly above
    both neighbours, and with type ["min"] only positions strictly below
    both; the arrays have the length of the input and are 0 at both
    ends. *)
Theorem find_crit_pt_local_max_min (arr : list R) :
  (2 < length arr)%nat ->
  exists amax amin,
    UtilsB.find_crit_pt arr "max"%string = Ok (UtilsB.IntArr amax) /\
    UtilsB.find_crit_pt arr "min"%string = Ok (UtilsB.IntArr amin) /\
    length amax = length arr /\ length amin = length arr /\
    nth 0 amax 0%Z = 0%Z /\ nth (length arr - 1) amax 0%Z = 0%Z /\
    nth 0 amin 0%Z = 0%Z /\ nth (length arr - 1) amin 0%Z = 0%Z /\
    forall k, (S (S k) < length arr)%nat ->
      (nth (S k) amax 0%Z = 1%Z ->
       nth k arr 0 < nth (S k) arr 0 /\ nth (S (S k)) arr 0 < nth (S k) arr 0) /\
      (nth (S k) amin 0%Z = 1%Z ->
       nth (S k) arr 0 < nth k arr 0 /\ nth (S k) arr 0 < nth (S (S k)) arr 0).
Proof.
  intros Hn.
  rewrite find_crit_pt_max, find_crit_pt_min by exact Hn.
  eexists. eexists. split; [reflexivity |]. split; [reflexivity |].
  pose proof (extremum_mask_length true arr) as Hlmax.
  pose proof (extremum_mask_length false arr) as Hlmin.
  split; [rewrite pad_ints_length, Hlmax; lia |].
  split; [rewrite pad_ints_length, Hlmin; lia |].
  split; [reflexivity |]. split.
  { replace (length arr - 1)%nat with (S (length (extremum_mask true arr)))
      by lia. apply pad_ints_last. }
  split; [reflexivity |]. split.
  { replace (length arr - 1)%nat with (S (length (extremum_mask false arr)))
      by lia. apply pad_ints_last. }
  intros k Hk. split.
  - destruct (pad_ints_flag (extremum_mask true arr) k) as [Hiff _]; [lia |].
    rewrite Hiff, extremum_mask_nth by exact Hk.
    rewrite andb_true_iff, !Rltb_true. apply extremum_sign_max.
  - destruct (pad_ints_flag (extremum_mask false arr) k) as [Hiff _]; [lia |].
    rewrite Hiff, extremum_mask_nth by exact Hk.
    rewrite andb_true_iff, !Rltb_true. apply extremum_sign_min.
Qed.

Lemma find_crit_pt_local_max_min_witness :
  exists amax,
    UtilsB.find_crit_pt [1; 3; 2] "max"%string = Ok (UtilsB.IntArr amax) /\
    length amax = 3%nat.
Proof.
  destruct (find_crit_pt_local_max_min [1; 3; 2])
    as (amax & amin & Ha & _ & Hl & _).
  - simpl. lia.
  - exists amax. split; [exact Ha | exact Hl].
Defined.

(** X3.  The turning points are the local maxima together with the local
    minima: at every index the array of type ["non-plateau"] is the sum of
    the arrays of types ["max"] and ["min"] (no position is both). *)
Theorem find_crit_pt_turning_is_max_plus_min (arr : list R) :
  (2 < length arr)%nat ->
  exists aturn amax amin,
    UtilsB.find_crit_pt arr "non-plateau"%string = Ok (UtilsB.IntArr aturn) /\
    UtilsB.find_crit_pt arr "max"%string = Ok (UtilsB.IntArr amax) /\
    UtilsB.find_crit_pt arr "min"%string = Ok (UtilsB.IntArr amin) /\
    forall i, nth i aturn 0%Z = (nth i amax 0 + nth i amin 0)%Z.
Proof.
  intros Hn.
  rewrite find_crit_pt_non_plateau, find_crit_pt_max, find_crit_pt_min
    by exact Hn.
  do 3 eexists. do 3 (split; [reflexivity |]).
  pose proof (extremum_mask_length true arr) as Hlmax.
  pose proof (extremum_mask_length false arr) as Hlmin.
  assert (Hlt : length (UtilsB.turning_mask (Rdiff arr)) = (length arr - 2)%nat)
    by (rewrite turning_mask_length, Rdiff_length; lia).
  intros [| k]; [reflexivity |].
  destruct (Nat.lt_ge_cases k (length arr - 2)) as [Hk | Hk].
  - rewrite !pad_ints_inner by lia.
    rewrite !extremum_mask_nth by lia.
    rewrite turning_mask_nth by (rewrite Rdiff_length; lia).
    rewrite !Rdiff_nth by lia.
    set (a := nth k arr 0). set (b := nth (S k) arr 0).
    set (c := nth (S (S k)) arr 0). clearbody a b c.
    destruct (Rltb ((c - b) * (b - a)) 0) eqn:Ep; cbn [andb].
    + apply Rltb_true in Ep.
      destruct (Rltb (c - b - (b - a)) 0) eqn:E1;
        destruct (Rltb 0 (c - b - (b - a))) eqn:E2; try reflexivity.
      * apply Rltb_true in E1. apply Rltb_true in E2. lra.
      * apply Rltb_false in E1. apply Rltb_false in E2.
        assert (Heq : c - b = b - a) by lra. rewrite Heq in Ep.
        pose proof (Rle_0_sqr (b - a)) as Hsq. unfold Rsqr in Hsq. lra.
    + reflexivity.
  - rewrite !pad_ints_outer by lia. reflexivity.
Qed.

Lemma find_crit_pt_turning_is_max_plus_min_witness :
  exists aturn amax amin,
    UtilsB.find_crit_pt [1; 3; 2] "non-plateau"%string
    = Ok (UtilsB.IntArr aturn) /\
    UtilsB.find_crit_pt [1; 3; 2] "max"%string = Ok (UtilsB.IntArr amax) /\
    UtilsB.find_crit_pt [1; 3; 2] "min"%string = Ok (UtilsB.IntArr amin) /\
    nth 1 aturn 0%Z = (nth 1 amax 0 + nth 1 amin 0)%Z.
Proof.
  destruct (find_crit_pt_turning_is_max_plus_min [1; 3; 2])
    as (a & b & c & Ha & Hb & Hc & H).
  - simpl. lia.
  - exists a, b, c. repeat split; try assumption. apply H.
Defined.

(** ** [find_crit_pt]: refusals and lengths *)

Lemma valid_types_spec (type_ : String.string) :
  existsb (String.eqb type_) UtilsB.valid_types = true
  <-> In type_ UtilsB.valid_types.
Proof.
  rewrite existsb_exists. split.
  - intros (x & Hin & Heq). apply String.eqb_eq in Heq. now subst.
  - intros Hin. exists type_. split; [exact Hin | apply String.eqb_refl].
Qed.

Lemma find_plateau_pt_length (arr d : list R) :
  length (UtilsB.find_plateau_pt arr (Some d)) = S (S (pred (length d))).
Proof.
  unfold UtilsB.find_plateau_pt.
  rewrite pad_ints_length, length_map, length_combine, Rdiff_length,
    removelast_length, Nat.min_id.
  reflexivity.
Qed.

(** X4.  [find_crit_pt] raises [ValueError] when the array has fewer than
    three elements or the type is not one of the five known names, and in
    every other case returns an array with one entry per element of the
    input. *)
Theorem find_crit_pt_refusals (arr : list R) (type_ : String.string) :
  ((length arr <= 2)%nat \/ ~ In type_ UtilsB.valid_types ->
   UtilsB.find_crit_pt arr type_ = Raise ValueError) /\
  ((2 < length arr)%nat -> In type_ UtilsB.valid_types ->
   exists a, UtilsB.find_crit_pt arr type_ = Ok a /\
             crit_length a = length arr).
Proof.
  split.
  - intros [Hn | Ht]; unfold UtilsB.find_crit_pt.
    + apply Nat.leb_le in Hn. now rewrite Hn.
    + destruct (length arr <=? 2)%nat; [reflexivity |].
      destruct (existsb (String.eqb type_) UtilsB.valid_types) eqn:E;
        [| reflexivity].
      apply valid_types_spec in E. contradiction.
  - intros Hn Ht.
    assert (Hd : length (Rdiff arr) = pred (length arr)) by apply Rdiff_length.
    assert (Hp : length (UtilsB.find_plateau_pt arr (Some (Rdiff arr)))
                 = length arr)
      by (rewrite find_plateau_pt_length, Hd; lia).
    assert (Hturn : length (UtilsB.pad_ints (UtilsB.turning_mask (Rdiff arr)))
                    = length arr)
      by (rewrite pad_ints_length, turning_mask_length, Hd; lia).
    simpl in Ht.
    destruct Ht as [<- | [<- | [<- | [<- | [<- | []]]]]].
    + rewrite find_crit_pt_min by exact Hn. eexists. split; [reflexivity |].
      cbn [crit_length]. rewrite pad_ints_length, extremum_mask_length. lia.
    + rewrite find_crit_pt_max by exact Hn. eexists. split; [reflexivity |].
      cbn [crit_length]. rewrite pad_ints_length, extremum_mask_length. lia.
    + unfold UtilsB.find_crit_pt. apply Nat.leb_gt in Hn. rewrite Hn.
      eexists. split; [reflexivity |]. exact Hp.
    + rewrite find_crit_pt_non_plateau by exact Hn.
      eexists. split; [reflexivity |]. exact Hturn.
    + unfold UtilsB.find_crit_pt. apply Nat.leb_gt in Hn. rewrite Hn.
      eexists. split; [reflexivity |]. cbn [crit_length].
      rewrite length_map, length_combine, Hturn, Hp. apply Nat.min_id.
Qed.

Lemma find_crit_pt_refusals_witness :
  UtilsB.find_crit_pt [1; 2] "max"%string = Raise ValueError /\
  UtilsB.find_crit_pt [1; 2; 3] "maximum"%string = Raise ValueError /\
  exists a, UtilsB.find_crit_pt [1; 2; 3] "any"%string = Ok a /\
            crit_length a = 3%nat.
Proof.
  split; [| split].
  - apply (find_crit_pt_refusals [1; 2] "max"%string). left. simpl. lia.
  - apply (find_crit_pt_refusals [1; 2; 3] "maximum"%string). right.
    simpl. intros [H | [H | [H | [H | [H | []]]]]]; discriminate.
  - apply (find_crit_pt_refusals [1; 2; 3] "any"%string).
    + simpl. lia.
    + simpl. tauto.
Defined.

(** ** [np.array_split] and [apply_on_tiles] *)

Lemma split_by_length {A : Type} (sizes : list nat) (l : list A) :
  length (split_by sizes l) = length sizes.
Proof.
  revert l. induction sizes as [| n rest IH]; intros l; [reflexivity |].
  simpl. now rewrite IH.
Qed.

Lemma split_by_concat {A : Type} (sizes : list nat) (l : list A) :
  concat (split_by sizes l) = firstn (list_sum sizes) l.
Proof.
  revert l. induction sizes as [| n rest IH]; intros l; [reflexivity |].
  simpl. rewrite IH. clear IH. revert l.
  induction n as [| n IHn]; intros l; [reflexivity |].
  destruct l as [| x l]; simpl.
  - now rewrite firstn_nil.
  - f_equal. apply IHn.
Qed.

Lemma split_by_sizes {A : Type} (sizes : list nat) (l : list A) :
  (list_sum sizes <= length l)%nat ->
  Forall2 (fun piece n => length piece = n) (split_by sizes l) sizes.
Proof.
  revert l. induction sizes as [| n rest IH]; intros l Hl; [constructor |].
  simpl in *. constructor.
  - rewrite length_firstn. lia.
  - apply IH. rewrite length_skipn. lia.
Qed.

Lemma list_sum_repeat (v n : nat) : list_sum (repeat v n) = (n * v)%nat.
Proof. induction n as [| n IH]; simpl; [reflexivity | now rewrite IH]. Qed.

Lemma tile_sizes_sum (total k : nat) :
  (0 < k)%nat -> list_sum (tile_sizes total k) = total.
Proof.
  intros Hk. unfold tile_sizes.
  rewrite list_sum_app, !list_sum_repeat.
  pose proof (Nat.div_mod_eq total k) as Hdm.
  pose proof (Nat.mod_upper_bound total k ltac:(lia)) as Hm.
  nia.
Qed.

Lemma tile_sizes_length (total k : nat) :
  (0 < k)%nat -> length (tile_sizes total k) = k.
Proof.
  intros Hk. unfold tile_sizes. rewrite length_app, !repeat_length.
  pose proof (Nat.mod_upper_bound total k ltac:(lia)). lia.
Qed.

Lemma tile_sizes_values (total k : nat) :
  Forall (fun n => n = (total / k)%nat \/ n = S (total / k))
         (tile_sizes total k).
Proof.
  unfold tile_sizes. apply Forall_app. split; apply Forall_forall;
    intros n Hn; apply repeat_spec in Hn; auto.
Qed.

Lemma Forall2_length_transfer {A : Type} (P : nat -> Prop)
    (pieces : list (list A)) (sizes : list nat) :
  Forall2 (fun piece n => length piece = n) pieces sizes ->
  Forall P sizes -> Forall (fun piece => P (length piece)) pieces.
Proof.
  induction 1 as [| t n ts ns Htn _ IH]; intros Hv; constructor.
  - inversion Hv; subst. assumption.
  - apply IH. now inversion Hv.
Qed.

Lemma array_split_partition {A : Type} (ary : list A) (sections : Z) :
  (0 < sections)%Z ->
  exists tiles,
    array_split ary sections = Ok tiles /\
    concat tiles = ary /\
    length tiles = Z.to_nat sections /\
    Forall (fun t => length t = (length ary / Z.to_nat sections)%nat \/
                     length t = S (length ary / Z.to_nat sections)) tiles.
Proof.
  intros Hs. unfold array_split.
  destruct (Z.leb_spec sections 0) as [H | _]; [lia |].
  set (k := Z.to_nat sections). assert (Hk : (0 < k)%nat) by (unfold k; lia).
  fold (tile_sizes (length ary) k).
  eexists. split; [reflexivity |].
  split; [| split].
  - rewrite split_by_concat, tile_sizes_sum by exact Hk. apply firstn_all.
  - now rewrite split_by_length, tile_sizes_length.
  - pose proof (split_by_sizes (tile_sizes (length ary) k) ary) as H2.
    rewrite tile_sizes_sum in H2 by exact Hk. specialize (H2 (le_n _)).
    apply (Forall2_length_transfer
             (fun n => n = (length ary / k)%nat \/ n = S (length ary / k))
             _ _ H2).
    apply tile_sizes_values.
Qed.

Lemma tiles_guard (size : nat) (num_tiles : Z) :
  Rltb (5 / 10 * INR size) (IZR num_tiles) = true
  <-> (Z.of_nat size < 2 * num_tiles)%Z.
Proof.
  rewrite Rltb_true, INR_IZR_INZ. split; intros H.
  - apply lt_IZR. rewrite mult_IZR. lra.
  - apply IZR_lt in H. rewrite mult_IZR in H. lra.
Qed.

(** X5.  [apply_on_tiles] raises [ValueError] when [num_tiles] is not
    positive or exceeds half the length of the series.  Otherwise [func] is
    applied, from left to right, to [num_tiles] consecutive pieces that
    together are the series, each of at least two elements, of sizes
    [len // num_tiles] or one more. *)
Theorem apply_on_tiles_partition {B : Type} (ts : list R) (num_tiles : Z)
    (func : list R -> result B) :
  ((num_tiles <= 0)%Z \/ (Z.of_nat (length ts) < 2 * num_tiles)%Z ->
   UtilsB.apply_on_tiles ts num_tiles func = Raise ValueError) /\
  ((0 < num_tiles)%Z -> (2 * num_tiles <= Z.of_nat (length ts))%Z ->
   exists tiles,
     UtilsB.apply_on_tiles ts num_tiles func = map_result func tiles /\
     concat tiles = ts /\
     length tiles = Z.to_nat num_tiles /\
     Forall (fun t => (2 <= length t)%nat /\
                      (length t = (length ts / Z.to_nat num_tiles)%nat \/
                       length t = S (length ts / Z.to_nat num_tiles))) tiles).
Proof.
  unfold UtilsB.apply_on_tiles. split.
  - intros H.
    destruct (Rltb (5 / 10 * INR (length ts)) (IZR num_tiles)) eqn:E;
      [reflexivity |].
    destruct H as [H | H].
    + unfold array_split. apply Z.leb_le in H. now rewrite H.
    + apply tiles_guard in H. congruence.
  - intros Hpos Hhalf.
    destruct (Rltb (5 / 10 * INR (length ts)) (IZR num_tiles)) eqn:E.
    { apply tiles_guard in E. lia. }
    destruct (array_split_partition ts num_tiles Hpos)
      as (tiles & Hsplit & Hcat & Hlen & Hsizes).
    exists tiles. rewrite Hsplit. split; [reflexivity |].
    split; [exact Hcat |]. split; [exact Hlen |].
    assert (Hdiv : (2 <= length ts / Z.to_nat num_tiles)%nat).
    { apply Nat.div_le_lower_bound; lia. }
    eapply Forall_impl; [| exact Hsizes].
    intros t Ht. cbv beta in Ht. split; [lia | exact Ht].
Qed.

Lemma apply_on_tiles_partition_witness :
  UtilsB.apply_on_tiles [1; 2; 3] 2 (fun t => Ok (length t))
  = Raise ValueError /\
  exists tiles,
    UtilsB.apply_on_tiles [1; 2; 3; 4; 5] 2 (fun t => Ok (length t))
    = map_result (fun t => Ok (length t)) tiles /\
    concat tiles = [1; 2; 3; 4; 5].
Proof.
  split.
  - apply (apply_on_tiles_partition [1; 2; 3] 2). right. simpl. lia.
  - destruct (apply_on_tiles_partition [1; 2; 3; 4; 5] 2
                (fun t => Ok (length t))) as [_ H].
    destruct H as (tiles & H1 & H2 & _); [lia | simpl; lia |].
    exists tiles. split; assumption.
Defined.

(** ** [process_window_size] *)

Lemma Rceil_bounds (x : R) : x <= IZR (Rceil x) < x + 1.
Proof.
  unfold Rceil. rewrite minus_IZR.
  destruct (archimed (- x)) as [H1 H2]. lra.
Qed.

Lemma Rceil_le (x : R) (n : Z) : x <= IZR n -> (Rceil x <= n)%Z.
Proof.
  intros H. destruct (Rceil_bounds x) as [_ H2].
  assert (IZR (Rceil x) < IZR (n + 1)) by (rewrite plus_IZR; lra).
  apply lt_IZR in H0. lia.
Qed.

Lemma odd_after_adjust (m : Z) :
  exists r, (if (m mod 2 =? 0)%Z then UtilsB.WInt (m - 1) else UtilsB.WInt m)
            = UtilsB.WInt r /\
            (r mod 2 = 1)%Z /\ (m - 1 <= r <= m)%Z.
Proof.
  pose proof (Z.mod_pos_bound m 2 ltac:(lia)) as Hb.
  destruct (Z.eqb_spec (m mod 2) 0) as [E | E].
  - exists (m - 1)%Z. split; [reflexivity |]. split; [| lia].
    rewrite Zminus_mod, E. reflexivity.
  - exists m. split; [reflexivity |]. split; lia.
Qed.

Lemma Rceil_IZR (z : Z) : Rceil (IZR z) = z.
Proof.
  destruct (Rceil_bounds (IZR z)) as [H1 H2].
  apply le_IZR in H1.
  assert (H : IZR (Rceil (IZR z)) < IZR (z + 1)) by (rewrite plus_IZR; lra).
  apply lt_IZR in H. lia.
Qed.

(** The ceiling of a rounded product is within one of the product. *)
Lemma Rceil_rnd_near (fl : rounding) (p : R) (n : Z) :
  0 <= p <= IZR n -> (n <= 2 ^ 53)%Z ->
  (0 <= Rceil (fl p) <= n)%Z /\ p - 1 < IZR (Rceil (fl p)) < p + 1.
Proof.
  intros [Hp0 Hpn] Hn.
  assert (H253 : (2 ^ 53 = 9007199254740992)%Z) by reflexivity.
  destruct (Rceil_bounds p) as [Hf1 Hf2].
  set (f := Rceil p) in *.
  assert (Hf0 : (0 <= f)%Z) by (apply le_IZR; lra).
  assert (Hfn : (f <= n)%Z) by (apply Rceil_le; exact Hpn).
  assert (Hup : (Rceil (fl p) <= f)%Z).
  { apply Rceil_le. rewrite <- (rnd_int fl f) by lia.
    apply rnd_mono. exact Hf1. }
  assert (Hlow : (0 <= Rceil (fl p))%Z /\ p - 1 < IZR (Rceil (fl p))).
  { destruct (Req_dec p (IZR f)) as [E | E].
    - rewrite E, rnd_int, Rceil_IZR by lia. split; [exact Hf0 | lra].
    - assert (H1 : (1 <= f)%Z).
      { assert (H : IZR 0 < IZR f) by lra. apply lt_IZR in H. lia. }
      assert (Hge : IZR (f - 1) <= fl p).
      { rewrite <- (rnd_int fl (f - 1)) by lia.
        apply rnd_mono. rewrite minus_IZR. lra. }
      destruct (Rceil_bounds (fl p)) as [Hc1 _].
      assert (Hcz : (f - 1 <= Rceil (fl p))%Z) by (apply le_IZR; lra).
      split; [lia |].
      apply IZR_le in Hcz. rewrite minus_IZR in Hcz. lra. }
  destruct Hlow as [Hl0 Hl1]. split; [lia |].
  apply IZR_le in Hup. lra.
Qed.

(** X6.  On a non-empty series, an integer window of at least 1 and a
    fractional window in (0, 1) both give an odd integer between 1 and the
    length of the series: for an integer window, [min(window, length)]
    lowered by one when it is even; for a fraction (and a series of at
    most [2^53] values), an integer less than one above the fraction of
    the length and less than two below it. *)
Theorem process_window_size_odd (fl : rounding) (ts_size : nat)
    (w : UtilsB.window) :
  (1 <= ts_size)%nat ->
  match w with
  | UtilsB.WInt z => (1 <= z)%Z
  | UtilsB.WFloat x => 0 < x < 1 /\ (Z.of_nat ts_size <= 2 ^ 53)%Z
  end ->
  exists r,
    UtilsB.process_window_size fl ts_size w = Ok (UtilsB.WInt r) /\
    (r mod 2 = 1)%Z /\ (1 <= r <= Z.of_nat ts_size)%Z /\
    match w with
    | UtilsB.WInt z =>
        (Z.min z (Z.of_nat ts_size) - 1 <= r <= Z.min z (Z.of_nat ts_size))%Z
    | UtilsB.WFloat x =>
        x * INR ts_size - 2 < IZR r < x * INR ts_size + 1
    end.
Proof.
  intros Hsize Hw. unfold UtilsB.process_window_size.
  assert (HsizeR : 1 <= INR ts_size)
    by (change 1 with (INR 1); apply le_INR; lia).
  destruct w as [z | x]; cbn [UtilsB.window_value].
  - assert (Hz : 1 <= IZR z) by (apply IZR_le in Hw; exact Hw).
    replace (Rleb (IZR z) 0) with false
      by (symmetry; apply Rleb_false; lra).
    replace (Rltb (IZR z) 1) with false
      by (symmetry; apply Rltb_false; lra).
    rewrite INR_IZR_INZ.
    destruct (Rltb (IZR z) (IZR (Z.of_nat ts_size))) eqn:E.
    + apply Rltb_true, lt_IZR in E. cbn [UtilsB.window_even].
      destruct (odd_after_adjust z) as (r & Hr & Hodd & Hrange).
      exists r. split.
      { destruct (z mod 2 =? 0)%Z; cbn [UtilsB.window_pred];
          now rewrite Hr. }
      split; [exact Hodd |].
      assert (r <> 0)%Z by (intros ->; discriminate Hodd).
      split; lia.
    + apply Rltb_false, le_IZR in E. cbn [UtilsB.window_even].
      destruct (odd_after_adjust (Z.of_nat ts_size)) as (r & Hr & Hodd & Hrange).
      exists r. split.
      { destruct (Z.of_nat ts_size mod 2 =? 0)%Z; cbn [UtilsB.window_pred];
          now rewrite Hr. }
      split; [exact Hodd |].
      assert (r <> 0)%Z by (intros ->; discriminate Hodd).
      split; lia.
  - destruct Hw as [Hx Hbig].
    replace (Rleb x 0) with false by (symmetry; apply Rleb_false; lra).
    replace (Rltb x 1) with true by (symmetry; apply Rltb_true; lra).
    cbn [UtilsB.window_even].
    destruct (Rceil_rnd_near fl (x * INR ts_size) (Z.of_nat ts_size))
      as [Hc Hnear]; [rewrite <- INR_IZR_INZ; nra | exact Hbig |].
    set (c := Rceil (fl (x * INR ts_size))) in *.
    assert (Hm : (1 <= Z.max 1 c <= Z.of_nat ts_size)%Z) by lia.
    assert (Hmr : x * INR ts_size - 1 < IZR (Z.max 1 c)
                  < x * INR ts_size + 1).
    { destruct (Z.max_spec 1 c) as [[Hlt ->] | [Hle ->]]; [exact Hnear |].
      assert (c = 0 \/ c = 1)%Z as [-> | ->] by lia; simpl in *; nra. }
    destruct (odd_after_adjust (Z.max 1 c)) as (r & Hr & Hodd & Hrange).
    exists r. split.
    { destruct (Z.max 1 c mod 2 =? 0)%Z;
        cbn [UtilsB.window_pred]; now rewrite Hr. }
    split; [exact Hodd |].
    assert (r <> 0)%Z by (intros ->; discriminate Hodd).
    split; [lia |].
    destruct Hrange as [Hr1 Hr2].
    apply IZR_le in Hr1, Hr2. rewrite minus_IZR in Hr1. lra.
Qed.

Lemma process_window_size_odd_witness :
  exists r, UtilsB.process_window_size no_rounding 10 (UtilsB.WFloat (1 / 2))
            = Ok (UtilsB.WInt r) /\ (r mod 2 = 1)%Z.
Proof.
  destruct (process_window_size_odd no_rounding 10 (UtilsB.WFloat (1 / 2)))
    as (r & Hr & Hodd & _); [lia | split; [lra | simpl; lia] |].
  exists r. split; assumption.
Defined.

(** X7.  [process_window_size] raises [ValueError] exactly on a window
    that is zero or negative; and on an empty series an integer window of
    at least 1 is turned into the window size -1. *)
Theorem process_window_size_refusals (fl : rounding) (ts_size : nat)
    (w : UtilsB.window) :
  (UtilsB.window_value w <= 0 <->
   UtilsB.process_window_size fl ts_size w = Raise ValueError) /\
  (0 < UtilsB.window_value w ->
   exists r, UtilsB.process_window_size fl ts_size w = Ok r) /\
  (forall z, (1 <= z)%Z ->
             UtilsB.process_window_size fl 0 (UtilsB.WInt z)
             = Ok (UtilsB.WInt (-1))).
Proof.
  unfold UtilsB.process_window_size. split; [| split].
  - destruct (Rleb (UtilsB.window_value w) 0) eqn:E.
    + apply Rleb_true in E. split; [reflexivity | intros _; exact E].
    + apply Rleb_false in E. split; [lra |].
      match goal with
      | |- (if ?c then _ else _) = _ -> _ => destruct c; discriminate
      end.
  - intros Hpos.
    replace (Rleb (UtilsB.window_value w) 0) with false
      by (symmetry; apply Rleb_false; lra).
    match goal with
    | |- exists r, (if ?c then _ else _) = _ =>
        destruct c; eexists; reflexivity
    end.
  - intros z Hz. cbn [UtilsB.window_value].
    assert (Hz' : 1 <= IZR z) by (apply IZR_le in Hz; exact Hz).
    replace (Rleb (IZR z) 0) with false by (symmetry; apply Rleb_false; lra).
    replace (Rltb (IZR z) 1) with false by (symmetry; apply Rltb_false; lra).
    replace (Rltb (IZR z) (INR 0)) with false
      by (symmetry; apply Rltb_false; simpl; lra).
    reflexivity.
Qed.

Lemma process_window_size_refusals_witness :
  UtilsB.process_window_size no_rounding 0 (UtilsB.WInt 3)
  = Ok (UtilsB.WInt (-1)) /\
  exists r,
    UtilsB.process_window_size no_rounding 5 (UtilsB.WFloat (1 / 2)) = Ok r.
Proof.
  split.
  - apply (process_window_size_refusals no_rounding 0 (UtilsB.WInt 3)). lia.
  - apply (process_window_size_refusals no_rounding 5
             (UtilsB.WFloat (1 / 2))).
    simpl. lra.
Defined.

(** ** [smape] *)

Lemma Rsum_repeat_0 (n : nat) : Rsum (repeat 0 n) = 0.
Proof.
  induction n as [| n IH]; [reflexivity |].
  cbn [repeat]. unfold Rsum in *. cbn [fold_right]. rewrite IH. lra.
Qed.

(** X9.  [smape] of a non-empty array against itself is 0, whatever the
    flags. *)
Theorem smape_of_itself_is_zero (arr : list R)
    (percentage half_denom : bool) :
  arr <> [] ->
  UtilsB.smape arr arr percentage half_denom = Ok (Fin 0).
Proof.
  intros Hne. unfold UtilsB.smape, broadcast.
  rewrite Nat.eqb_refl. cbn [bind].
  assert (Hz : map (fun p : R * R =>
                      Rabs (fst p - snd p)
                      / (UtilsB.smape_atol + Rabs (fst p) + Rabs (snd p)))
                   (combine arr arr)
               = repeat 0 (length arr)).
  { clear Hne. induction arr as [| x l IH]; [reflexivity |].
    cbn [combine map length repeat fst snd]. rewrite IH. f_equal.
    rewrite Rminus_diag, Rabs_R0. unfold Rdiv. apply Rmult_0_l. }
  rewrite Hz. destruct arr as [| x l]; [congruence |].
  unfold Rmean. cbn [length repeat].
  change (0 :: repeat 0 (length l)) with (repeat 0 (S (length l))).
  rewrite Rsum_repeat_0. unfold Rdiv. rewrite Rmult_0_l.
  destruct percentage, half_denom; cbn [negb nmul];
    rewrite ?Rmult_0_l; reflexivity.
Qed.

Lemma smape_of_itself_is_zero_witness :
  UtilsB.smape [1; 2] [1; 2] true false = Ok (Fin 0).
Proof.
  apply (smape_of_itself_is_zero [1; 2] true false). discriminate.
Defined.

(** ** [sample_data] *)

(** X10.  For a fraction between 0 and 1 and a series of at most [2^53]
    values, [sample_data] returns a prefix of the series whose number of
    values is within one of [len * frac]; for the fraction 1 it is the whole
    series. *)
Theorem sample_data_prefix (fl : rounding) (ts : list R)
    (lm_sample_frac : R) (X : option (list (list R))) :
  0 <= lm_sample_frac <= 1 ->
  (Z.of_nat (length ts) <= 2 ^ 53)%Z ->
  exists k,
    fst (UtilsB.sample_data fl ts lm_sample_frac X) = firstn k ts /\
    (k <= length ts)%nat /\
    INR (length ts) * lm_sample_frac - 1 < INR k
    < INR (length ts) * lm_sample_frac + 1 /\
    (lm_sample_frac = 1 ->
     fst (UtilsB.sample_data fl ts lm_sample_frac X) = ts).
Proof.
  intros [Hfrac Hle1] Hbig. unfold UtilsB.sample_data.
  set (n := length ts) in *.
  pose proof (pos_INR n) as Hn.
  destruct (Rceil_rnd_near fl (INR n * lm_sample_frac) (Z.of_nat n))
    as [Hth Hnear]; [rewrite <- INR_IZR_INZ; nra | exact Hbig |].
  set (threshold := Rceil (fl (INR n * lm_sample_frac))) in *.
  assert (Hfst : fst (if (Z.of_nat n <=? threshold)%Z
                      then (ts, X)
                      else (slice_to threshold ts,
                            option_map (slice_to threshold) X))
                 = firstn (Z.to_nat threshold) ts).
  { destruct (Z.leb_spec (Z.of_nat n) threshold) as [Hle | Hlt]; cbn [fst].
    - symmetry. apply firstn_all2. fold n. lia.
    - unfold slice_to. destruct (Z.ltb_spec threshold 0); [lia | reflexivity]. }
  rewrite Hfst. exists (Z.to_nat threshold).
  split; [reflexivity |]. split; [lia |]. split.
  - rewrite (INR_IZR_INZ (Z.to_nat threshold)), Z2Nat.id by lia.
    exact Hnear.
  - intros Hone. apply firstn_all2. fold n.
    assert (Hall : threshold = Z.of_nat n).
    { unfold threshold. rewrite Hone, Rmult_1_r, INR_IZR_INZ.
      rewrite rnd_int by lia. apply Rceil_IZR. }
    lia.
Qed.

Lemma sample_data_prefix_witness :
  fst (UtilsB.sample_data no_rounding [1; 2; 3; 4] 1 None) = [1; 2; 3; 4].
Proof.
  destruct (sample_data_prefix no_rounding [1; 2; 3; 4] 1 None)
    as (k & _ & _ & _ & H); [lra | simpl; lia |].
  apply H. reflexivity.
Defined.

(** ** [_ts_walker] *)

Lemma walker_from_length (step_size pos : R) (ts : list R) :
  length (GeneralB.walker_from step_size pos ts) = length ts.
Proof.
  revert pos. induction ts as [| x tl IH]; intros pos; [reflexivity |].
  simpl. now rewrite IH.
Qed.

(** X12.  [_ts_walker] raises [IndexError] on an empty series; on a
    non-empty one it returns a path of the length of the series that
    begins at the start point (0 when none is given). *)
Theorem ts_walker_shape (ts : list R) (step_size : R)
    (start_point : option R) :
  GeneralB._ts_walker [] step_size start_point = Raise IndexError /\
  (ts <> [] ->
   exists w,
     GeneralB._ts_walker ts step_size start_point = Ok w /\
     length w = length ts /\
     nth 0 w 0 = match start_point with None => 0 | Some p => p end).
Proof.
  split; [reflexivity |]. intros Hne. unfold GeneralB._ts_walker.
  destruct ts as [| x tl] eqn:E; [congruence |]. rewrite <- E.
  eexists. split; [reflexivity |].
  split; [apply walker_from_length |].
  rewrite E. reflexivity.
Qed.

Lemma ts_walker_shape_witness :
  exists w,
    GeneralB._ts_walker [1; 2; 3] GeneralB.default_step_size None = Ok w /\
    length w = 3%nat.
Proof.
  destruct (ts_walker_shape [1; 2; 3] GeneralB.default_step_size None)
    as [_ H].
  destruct (H ltac:(discriminate)) as (w & Hw & Hl & _).
  exists w. split; [exact Hw | exact Hl].
Defined.

(** ** [ft_walker_cross_frac] *)

Lemma broadcast_same_length {A : Type} (a b : list A) :
  length a = length b -> broadcast a b = Ok (combine a b).
Proof.
  intros H. unfold broadcast. apply Nat.eqb_eq in H. now rewrite H.
Qed.

Lemma count_true_le (mask : list bool) :
  (GeneralB.count_true mask <= length mask)%nat.
Proof. unfold GeneralB.count_true. apply filter_length_le. Qed.

(** X13.  On a series of at least two values, with the walker path
    computed by the function itself, the normalized [ft_walker_cross_frac]
    is a fraction between 0 and 1. *)
Theorem ft_walker_cross_frac_range (ts : list R) (step_size : R)
    (start_point : option R) (ts_scaled : option (list R)) (s : list R) :
  Utils.standardize_ts ts ts_scaled = Ok s ->
  (2 <= length s)%nat ->
  exists v,
    GeneralB.ft_walker_cross_frac ts step_size start_point true None ts_scaled
    = Ok (Fin v) /\ 0 <= v <= 1.
Proof.
  intros Hs Hn. unfold GeneralB.ft_walker_cross_frac.
  rewrite Hs. cbn [bind GeneralB.walker_or_given].
  unfold GeneralB._ts_walker.
  destruct s as [| x rest] eqn:E; [simpl in Hn; lia |]. rewrite <- E in *.
  cbn [bind].
  set (w := GeneralB.walker_from step_size
              match start_point with None => 0 | Some p => p end s).
  assert (Hw : length w = length s) by apply walker_from_length.
  rewrite (broadcast_same_length (removelast w))
    by (now rewrite !removelast_length, Hw).
  rewrite (broadcast_same_length (tl w))
    by (destruct w, s; simpl in *; lia).
  cbn [bind].
  rewrite broadcast_same_length.
  2:{ rewrite !length_map, !length_combine, !removelast_length, Hw, !Nat.min_id.
      destruct w, s; simpl in *; lia. }
  cbn [bind].
  set (mask := map _ (combine _ _)).
  assert (Hmask : length mask = (length s - 1)%nat).
  { unfold mask.
    rewrite length_map, length_combine, !length_map, !length_combine,
      !removelast_length, Hw, !Nat.min_id.
    destruct w, s; simpl in *; lia. }
  pose proof (count_true_le mask) as Hc. rewrite Hmask in Hc.
  assert (Hd : IZR (Z.of_nat (length w) - 1) = INR (length s - 1)).
  { rewrite Hw, minus_INR by lia. rewrite minus_IZR, <- INR_IZR_INZ.
    simpl. reflexivity. }
  rewrite Hd.
  assert (Hpos : 0 < INR (length s - 1)) by (apply lt_0_INR; lia).
  exists (INR (GeneralB.count_true mask) / INR (length s - 1)).
  split.
  - cbn [ndiv].
    replace (Reqb (INR (length s - 1)) 0) with false; [reflexivity |].
    symmetry. apply Reqb_false. lra.
  - pose proof (pos_INR (GeneralB.count_true mask)) as H0.
    apply le_INR in Hc. split.
    + apply Rmult_le_pos; [exact H0 |]. left. now apply Rinv_0_lt_compat.
    + apply (Rmult_le_reg_r (INR (length s - 1))); [exact Hpos |].
      unfold Rdiv. rewrite Rmult_assoc, Rinv_l by lra. lra.
Qed.

Lemma ft_walker_cross_frac_range_witness :
  exists v,
    GeneralB.ft_walker_cross_frac [1; 2; 4] GeneralB.default_step_size None
      true None (Some [0; 0; 0]) = Ok (Fin v) /\ 0 <= v <= 1.
Proof.
  apply (ft_walker_cross_frac_range [1; 2; 4] GeneralB.default_step_size None
           (Some [0; 0; 0]) [1; 2; 4] eq_refl).
  simpl. lia.
Defined.

(** ** [ft_moving_threshold] *)

Lemma threshold_loop_thresholds (_ra _rd : R) (s : list R) :
  forall pre cur rest,
    length rest = length s ->
    GeneralB.threshold_loop _ra _rd (length pre) s (pre ++ cur :: rest)
    = pre ++ thresholds _ra _rd cur s.
Proof.
  induction s as [| x tl IH]; intros pre cur rest Hlen.
  - destruct rest; [reflexivity | discriminate].
  - destruct rest as [| r0 rest']; [discriminate |].
    cbn [GeneralB.threshold_loop thresholds].
    rewrite nth_middle.
    rewrite set_item_app_r by lia.
    replace (S (length pre) - length pre)%nat with 1%nat by lia.
    cbn [set_item].
    specialize (IH (pre ++ [cur])
                   (if Rltb cur x then _ra * x else _rd * cur) rest').
    rewrite length_app in IH. cbn [length] in IH.
    rewrite Nat.add_1_r in IH. rewrite <- !app_assoc in IH.
    cbn [app] in IH.
    apply IH. simpl in Hlen. lia.
Qed.

Lemma thresholds_length (_ra _rd cur : R) (s : list R) :
  length (thresholds _ra _rd cur s) = S (length s).
Proof.
  revert cur. induction s as [| x tl IH]; intros cur; [reflexivity |].
  cbn [thresholds length]. now rewrite IH.
Qed.

Lemma thresholds_step (_ra _rd : R) (s : list R) :
  forall cur i,
    (i < length s)%nat ->
    nth (S i) (thresholds _ra _rd cur s) 0
    = if Rltb (nth i (thresholds _ra _rd cur s) 0) (nth i s 0)
      then _ra * nth i s 0
      else _rd * nth i (thresholds _ra _rd cur s) 0.
Proof.
  induction s as [| x tl IH]; intros cur i Hi; [simpl in Hi; lia |].
  destruct i as [| i].
  - cbn [thresholds nth]. destruct tl; reflexivity.
  - cbn [thresholds]. cbn [nth]. apply IH. simpl in Hi. lia.
Qed.

Lemma thresholds_nonneg (_ra _rd : R) (s : list R) :
  0 <= _ra -> 0 <= _rd ->
  forall cur, 0 <= cur -> Forall (fun t => 0 <= t) (thresholds _ra _rd cur s).
Proof.
  intros Hra Hrd. induction s as [| x tl IH]; intros cur Hcur.
  - cbn [thresholds]. constructor; [exact Hcur | constructor].
  - cbn [thresholds]. constructor; [exact Hcur |].
    apply IH. destruct (Rltb cur x) eqn:E.
    + apply Rltb_true in E. nra.
    + nra.
Qed.

(** X15.  [ft_moving_threshold] raises [ValueError] unless both rates lie
    strictly between 0 and 1.  With such rates, once the standardization
    has returned, the thresholds count one more than the series, start at
    1 and are never negative; the threshold rises exactly where the
    absolute value of the standardized series exceeds it, to at least that
    value, and does not rise elsewhere. *)
Theorem ft_moving_threshold_invariants (ts : list R)
    (rate_absorption rate_decay : R) (ts_scaled : option (list R))
    (relative : bool) :
  (~ (0 < rate_decay < 1) \/ ~ (0 < rate_absorption < 1) ->
   GeneralB.ft_moving_threshold ts rate_absorption rate_decay ts_scaled
     relative = Raise ValueError) /\
  (0 < rate_decay < 1 -> 0 < rate_absorption < 1 ->
   forall s, Utils.standardize_ts ts ts_scaled = Ok s ->
   exists threshold,
     GeneralB.ft_moving_threshold ts rate_absorption rate_decay ts_scaled
       false = Ok threshold /\
     length threshold = S (length ts) /\
     nth 0 threshold 0 = 1 /\
     Forall (fun t => 0 <= t) threshold /\
     forall i, (i < length s)%nat ->
       (nth i threshold 0 < Rabs (nth i s 0) ->
        nth i threshold 0 < nth (S i) threshold 0 /\
        Rabs (nth i s 0) <= nth (S i) threshold 0) /\
       (Rabs (nth i s 0) <= nth i threshold 0 ->
        nth (S i) threshold 0 <= nth i threshold 0)).
Proof.
  unfold GeneralB.ft_moving_threshold. split.
  - intros H.
    destruct (Rltb 0 rate_decay && Rltb rate_decay 1) eqn:Ed; cbn [negb];
      [| reflexivity].
    destruct (Rltb 0 rate_absorption && Rltb rate_absorption 1) eqn:Ea;
      cbn [negb]; [| reflexivity].
    apply andb_true_iff in Ed as [Ed1 Ed2].
    apply andb_true_iff in Ea as [Ea1 Ea2].
    apply Rltb_true in Ed1, Ed2, Ea1, Ea2.
    destruct H as [H | H]; exfalso; apply H; split; assumption.
  - intros [Hd1 Hd2] [Ha1 Ha2] s Hs.
    replace (Rltb 0 rate_decay) with true
      by (symmetry; now apply Rltb_true).
    replace (Rltb rate_decay 1) with true
      by (symmetry; now apply Rltb_true).
    replace (Rltb 0 rate_absorption) with true
      by (symmetry; now apply Rltb_true).
    replace (Rltb rate_absorption 1) with true
      by (symmetry; now apply Rltb_true).
    cbn [andb negb]. rewrite Hs. cbn [bind].
    pose proof (standardize_ts_length ts ts_scaled s Hs) as Hlen.
    pose proof (threshold_loop_thresholds (1 + rate_absorption)
                  (1 - rate_decay) (map Rabs s) [] 1
                  (repeat 1 (length ts))) as Hloop.
    cbn [length app] in Hloop.
    change (repeat 1 (1 + length ts)) with (1 :: repeat 1 (length ts)).
    rewrite Hloop by (now rewrite repeat_length, length_map).
    set (thr := thresholds (1 + rate_absorption) (1 - rate_decay) 1
                           (map Rabs s)).
    exists thr. split; [reflexivity |].
    split; [unfold thr; now rewrite thresholds_length, length_map, Hlen |].
    split; [unfold thr; destruct (map Rabs s); reflexivity |].
    assert (Hpos : Forall (fun t => 0 <= t) thr)
      by (apply thresholds_nonneg; lra).
    split; [exact Hpos |].
    intros i Hi.
    assert (Hstep := thresholds_step (1 + rate_absorption) (1 - rate_decay)
                       (map Rabs s) 1 i).
    rewrite length_map in Hstep. specialize (Hstep Hi).
    fold thr in Hstep.
    rewrite (nth_map_lt Rabs s i 0 0) in Hstep by lia.
    assert (Hti : 0 <= nth i thr 0).
    { rewrite Forall_forall in Hpos. apply Hpos. apply nth_In.
      unfold thr. rewrite thresholds_length, length_map. lia. }
    rewrite Hstep. split.
    + intros Hlt.
      replace (Rltb (nth i thr 0) (Rabs (nth i s 0))) with true
        by (symmetry; now apply Rltb_true).
      split; nra.
    + intros Hle.
      replace (Rltb (nth i thr 0) (Rabs (nth i s 0))) with false
        by (symmetry; now apply Rltb_false).
      nra.
Qed.

Lemma ft_moving_threshold_invariants_witness :
  GeneralB.ft_moving_threshold [1; 2] GeneralB.default_rate 2 None false
  = Raise ValueError /\
  exists threshold,
    GeneralB.ft_moving_threshold [2; 1; 4] GeneralB.default_rate
      GeneralB.default_rate (Some [0; 0; 0]) false = Ok threshold /\
    nth 0 threshold 0 < nth 1 threshold 0.
Proof.
  split.
  - apply (ft_moving_threshold_invariants [1; 2] GeneralB.default_rate 2
             None false). left. lra.
  - destruct (ft_moving_threshold_invariants [2; 1; 4] GeneralB.default_rate
                GeneralB.default_rate (Some [0; 0; 0]) false) as [_ H].
    unfold GeneralB.default_rate in H.
    destruct (H ltac:(lra) ltac:(lra) [2; 1; 4] eq_refl)
      as (thr & Hthr & _ & H0 & _ & Hrule).
    exists thr. split; [exact Hthr |].
    destruct (Hrule 0%nat ltac:(simpl; lia)) as [Hrise _].
    apply Hrise. rewrite H0. cbn [nth]. rewrite Rabs_pos_eq; lra.
Defined.

(** ** The naive forecasters of [_models.py] *)

Lemma map_result_pointwise {A B : Type} (f : A -> result B) (g : A -> B)
    (l : list A) :
  (forall x, In x l -> f x = Ok (g x)) -> map_result f l = Ok (map g l).
Proof.
  induction l as [| x rest IH]; intros H; [reflexivity |].
  cbn [map_result map]. rewrite (H x) by (now left). cbn [bind].
  rewrite IH by (intros z Hz; apply H; now right). reflexivity.
Qed.

Lemma item_in_bounds {A : Type} (a : list A) (i : Z) (d : A) :
  (0 <= i < Z.of_nat (length a))%Z -> item a i d = Ok (nth (Z.to_nat i) a d).
Proof.
  intros H. unfold item. cbv zeta.
  replace (0 <=? i)%Z with true by (symmetry; apply Z.leb_le; lia).
  replace (i <? Z.of_nat (length a))%Z with true
    by (symmetry; apply Z.ltb_lt; lia).
  reflexivity.
Qed.

Lemma item_last {A : Type} (a : list A) (d : A) :
  a <> [] -> item a (-1) d = Ok (nth (length a - 1) a d).
Proof.
  intros H. unfold item. cbv zeta.
  assert (Hn : (1 <= Z.of_nat (length a))%Z)
    by (destruct a; [congruence | simpl length; lia]).
  replace (0 <=? -1)%Z with false by reflexivity. cbn [andb].
  replace (- Z.of_nat (length a) <=? -1)%Z with true
    by (symmetry; apply Z.leb_le; lia).
  cbn [andb Z.ltb Z.compare].
  f_equal. f_equal. lia.
Qed.

Lemma wrap64_id (z : Z) :
  (- 2 ^ 63 <= z < 2 ^ 63)%Z -> wrap64 z = z.
Proof.
  intros H. unfold wrap64. rewrite Z.mod_small by lia. lia.
Qed.

Lemma seasonal_ind_mod (m : Models.TSNaiveSeasonal) (x : Z) :
  (0 < Models.seasonal_period m
   <= Z.of_nat (length (Models.seasonal_y m)))%Z ->
  (Z.of_nat (length (Models.seasonal_y m)) < 2 ^ 61)%Z ->
  (- 2 ^ 61 <= x <= 2 ^ 61)%Z ->
  Models.seasonal_ind m x
  = (Z.of_nat (length (Models.seasonal_y m)) - Models.seasonal_period m
     + (x - Z.of_nat (length (Models.seasonal_y m)))
       mod Models.seasonal_period m)%Z.
Proof.
  intros Hp Hn Hx. unfold Models.seasonal_ind. cbv zeta.
  set (n := Z.of_nat (length (Models.seasonal_y m))) in *.
  set (p := Models.seasonal_period m) in *.
  pose proof (Z.mod_pos_bound (x - n) p ltac:(lia)) as Hr.
  pose proof (Z.div_mod (x - n) p ltac:(lia)) as Hdm.
  set (q := ((x - n) / p)%Z) in *.
  set (r := ((x - n) mod p)%Z) in *.
  assert (H2 : (2 ^ 61 = 2305843009213693952)%Z) by reflexivity.
  assert (H3 : (2 ^ 63 = 9223372036854775808)%Z) by reflexivity.
  assert (Hq : (- 2 ^ 62 <= q <= 2 ^ 62)%Z) by nia.
  rewrite (wrap64_id (x - n)) by lia.
  fold q. rewrite (wrap64_id q) by lia.
  rewrite (wrap64_id (1 + q)) by lia.
  assert (Hpq : (p * (1 + q) = x - n - r + p)%Z) by lia.
  rewrite (wrap64_id (p * (1 + q))) by lia.
  rewrite wrap64_id by lia.
  lia.
Qed.

(** X16.  [TSNaiveSeasonal.fit] raises [ValueError] when no period was
    given to the constructor or to [fit].  Fitted on [y] with a period [p],
    [1 <= p <= len(y) < 2^61], [predict] does not fail on time steps
    between [-2^61] and [2^61]: the forecast for the time step [x] is the
    observation [y[len(y) - p + (x - len(y)) mod p]] of the last period, so
    the time steps of the last period get their own observation back and
    the forecasts repeat with period [p]. *)
Theorem TSNaiveSeasonal_repeats_last_period (init_period : option Z)
    (y : list R) (p : Z) (X : list Z) :
  Models.TSNaiveSeasonal_fit None y None = Raise ValueError /\
  ((0 < p <= Z.of_nat (length y))%Z ->
   (Z.of_nat (length y) < 2 ^ 61)%Z ->
   Forall (fun x => (- 2 ^ 61 <= x <= 2 ^ 61)%Z) X ->
   exists m,
     Models.TSNaiveSeasonal_fit init_period y (Some p) = Ok m /\
     Models.TSNaiveSeasonal_predict m X
     = Ok (map (fun x =>
                  nth (Z.to_nat (Z.of_nat (length y) - p
                                 + (x - Z.of_nat (length y)) mod p)) y 0) X) /\
     (forall x, (Z.of_nat (length y) - p <= x < Z.of_nat (length y))%Z ->
        Models.TSNaiveSeasonal_predict m [x] = Ok [nth (Z.to_nat x) y 0]) /\
     (forall x, (- 2 ^ 61 <= x)%Z -> (x + p <= 2 ^ 61)%Z ->
        Models.TSNaiveSeasonal_predict m [x + p]%Z
        = Models.TSNaiveSeasonal_predict m [x])).
Proof.
  split; [reflexivity |].
  intros Hp Hn HX. exists (Models.mk_TSNaiveSeasonal y p).
  split; [reflexivity |].
  set (m := Models.mk_TSNaiveSeasonal y p).
  assert (H2 : (2 ^ 61 = 2305843009213693952)%Z) by reflexivity.
  assert (Hind : forall x, (- 2 ^ 61 <= x <= 2 ^ 61)%Z ->
            Models.seasonal_ind m x
            = (Z.of_nat (length y) - p
               + (x - Z.of_nat (length y)) mod p)%Z)
    by (intros x Hx; apply (seasonal_ind_mod m x); simpl; lia).
  assert (Hitem : forall x, (- 2 ^ 61 <= x <= 2 ^ 61)%Z ->
            item y (Models.seasonal_ind m x) 0
            = Ok (nth (Z.to_nat (Z.of_nat (length y) - p
                                 + (x - Z.of_nat (length y)) mod p)) y 0)).
  { intros x Hx. rewrite Hind by exact Hx. apply item_in_bounds.
    pose proof (Z.mod_pos_bound (x - Z.of_nat (length y)) p) as Hm. lia. }
  assert (Hall : forall Y, Forall (fun x => (- 2 ^ 61 <= x <= 2 ^ 61)%Z) Y ->
            Models.TSNaiveSeasonal_predict m Y
            = Ok (map (fun x =>
                    nth (Z.to_nat (Z.of_nat (length y) - p
                                   + (x - Z.of_nat (length y)) mod p)) y 0)
                    Y)).
  { intros Y HY. unfold Models.TSNaiveSeasonal_predict.
    apply map_result_pointwise. intros x Hin. apply Hitem.
    rewrite Forall_forall in HY. now apply HY. }
  split; [apply Hall; exact HX |]. split.
  - intros x Hx. rewrite Hall by (repeat constructor; lia).
    cbn [map]. do 3 f_equal.
    replace ((x - Z.of_nat (length y)) mod p)%Z
      with (x - Z.of_nat (length y) + p)%Z; [lia |].
    apply Z.mod_unique with (q := (-1)%Z); lia.
  - intros x Hx1 Hx2. rewrite !Hall by (repeat constructor; lia).
    cbn [map]. do 4 f_equal.
    replace (x + p - Z.of_nat (length y))%Z
      with (x - Z.of_nat (length y) + 1 * p)%Z by ring.
    now rewrite Z.mod_add by lia.
Qed.

Lemma TSNaiveSeasonal_repeats_last_period_witness :
  exists m,
    Models.TSNaiveSeasonal_fit None [1; 2; 3; 4; 5] (Some 2%Z) = Ok m /\
    Models.TSNaiveSeasonal_predict m [6; 7; 8]%Z = Ok [5; 4; 5].
Proof.
  destruct (TSNaiveSeasonal_repeats_last_period None [1; 2; 3; 4; 5] 2
              [6; 7; 8]%Z) as [_ H].
  destruct (H ltac:(simpl; lia) ltac:(simpl; lia)
              ltac:(repeat constructor; lia))
    as (m & Hfit & Hpred & _).
  exists m. split; [exact Hfit | exact Hpred].
Defined.

(** X18.  The naive forecasters on degenerate series: [TSNaive.fit] and
    [TSNaiveDrift.fit] raise [IndexError] on an empty series, and
    [TSNaiveDrift] fitted on a single observation has the slope 0/0, so
    every forecast is NaN. *)
Theorem naive_models_degenerate (v : R) (X : list Z) :
  Models.TSNaive_fit [] = Raise IndexError /\
  Models.TSNaiveDrift_fit [] = Raise IndexError /\
  exists m,
    Models.TSNaiveDrift_fit [v] = Ok m /\
    Models.TSNaiveDrift_predict m X = repeat NaN (length X).
Proof.
  split; [reflexivity |]. split; [reflexivity |].
  unfold Models.TSNaiveDrift_fit.
  rewrite item_last by discriminate.
  rewrite item_in_bounds by (simpl; lia).
  cbn [bind length Nat.sub nth Z.to_nat Z.of_nat Z.sub Z.add Z.opp
       Pos.of_succ_nat Z.pos_sub].
  eexists. split; [reflexivity |].
  unfold Models.TSNaiveDrift_predict.
  cbn [Models.drift_last_obs Models.drift_last_obs_ind Models.drift_slope].
  replace (ndiv (Fin (v - v)) (Fin 0)) with NaN.
  - induction X as [| x rest IH]; [reflexivity |].
    cbn [map length repeat]. rewrite IH. reflexivity.
  - unfold ndiv.
    replace (Reqb 0 0) with true by (symmetry; apply Reqb_refl).
    replace (Reqb (v - v) 0) with true
      by (symmetry; apply Reqb_true; lra).
    reflexivity.
Qed.

(** X19.  [_TSLocalStat] raises [ValueError] unless [0 < train_prop <= 1].
    Otherwise [fit] on a non-empty series of at most [2^53] observations
    applies the statistic to the last [k] of them, where [k] is within one
    of [len(y) * train_prop]: at least one observation, never more than the
    series has, and the whole series when [train_prop] is 1. *)
Theorem TSLocalStat_window (fl : rounding) (stat_func : list R -> num)
    (train_prop : R) (y : list R) :
  (~ (0 < train_prop <= 1) ->
   Models.TSLocalStat_init stat_func train_prop = Raise ValueError) /\
  (0 < train_prop <= 1 -> y <> [] ->
   (Z.of_nat (length y) <= 2 ^ 53)%Z ->
   exists m k,
     Models.TSLocalStat_init stat_func train_prop = Ok m /\
     Models.local_last_ind fl m y = Z.of_nat k /\
     (1 <= k <= length y)%nat /\
     INR (length y) * train_prop - 1 < INR k
     < INR (length y) * train_prop + 1 /\
     Models.TSLocalStat_fit fl m y = stat_func (skipn (length y - k) y) /\
     length (skipn (length y - k) y) = k /\
     (train_prop = 1 -> Models.TSLocalStat_fit fl m y = stat_func y)).
Proof.
  unfold Models.TSLocalStat_init. split.
  - intros H.
    destruct (Rltb 0 train_prop && Rleb train_prop 1) eqn:E; cbn [negb];
      [| reflexivity].
    apply andb_true_iff in E as [E1 E2].
    apply Rltb_true in E1. apply Rleb_true in E2.
    exfalso. apply H. split; assumption.
  - intros [H0 H1] Hy Hbig.
    replace (Rltb 0 train_prop) with true
      by (symmetry; now apply Rltb_true).
    replace (Rleb train_prop 1) with true
      by (symmetry; now apply Rleb_true).
    cbn [andb negb].
    set (m := Models.mk_TSLocalStat train_prop stat_func).
    assert (Hn : 0 < INR (length y)) by now apply INR_length_pos.
    assert (Hlen : (1 <= length y)%nat)
      by (destruct y; [congruence | simpl; lia]).
    destruct (Rceil_rnd_near fl (INR (length y) * train_prop)
                (Z.of_nat (length y)))
      as [Hc Hnear]; [rewrite <- INR_IZR_INZ; nra | exact Hbig |].
    set (c := Rceil (fl (INR (length y) * train_prop))) in *.
    set (k := Z.max 1 c).
    assert (Hkr : INR (length y) * train_prop - 1 < IZR k
                  < INR (length y) * train_prop + 1).
    { unfold k. destruct (Z.max_spec 1 c) as [[Hlt ->] | [Hle ->]];
        [exact Hnear |].
      assert (c = 0 \/ c = 1)%Z as [-> | ->] by lia; simpl in *; nra. }
    assert (Hk : Models.local_last_ind fl m y = Z.of_nat (Z.to_nat k)).
    { unfold Models.local_last_ind. cbn [Models.local_train_prop m].
      fold c. fold k. lia. }
    assert (HINR : INR (Z.to_nat k) = IZR k).
    { rewrite INR_IZR_INZ. f_equal. lia. }
    exists m, (Z.to_nat k).
    split; [reflexivity |]. split; [exact Hk |].
    split; [lia |].
    split; [rewrite HINR; exact Hkr |].
    assert (Hfit : Models.TSLocalStat_fit fl m y
                   = stat_func (skipn (length y - Z.to_nat k) y)).
    { unfold Models.TSLocalStat_fit, last_n. rewrite Hk.
      rewrite Nat2Z.id. reflexivity. }
    split; [exact Hfit |].
    split; [rewrite length_skipn; lia |].
    intros Hone. rewrite Hfit.
    assert (Hall : c = Z.of_nat (length y)).
    { unfold c. rewrite Hone, Rmult_1_r, INR_IZR_INZ.
      rewrite rnd_int by lia. apply Rceil_IZR. }
    replace (length y - Z.to_nat k)%nat with 0%nat by lia.
    reflexivity.
Qed.

Lemma TSLocalStat_window_witness :
  Models.TSLocalStat_init Rmean 2 = Raise ValueError /\
  exists m k,
    Models.TSLocalMean_init Models.default_train_prop = Ok m /\
    Models.local_last_ind no_rounding m [1; 2; 3; 4; 5] = Z.of_nat k /\
    (1 <= k <= 5)%nat.
Proof.
  split.
  - apply (TSLocalStat_window no_rounding Rmean 2 []). lra.
  - destruct (TSLocalStat_window no_rounding Rmean Models.default_train_prop
                [1; 2; 3; 4; 5]) as [_ H].
    unfold Models.default_train_prop in H.
    destruct (H ltac:(lra) ltac:(discriminate) ltac:(simpl; lia))
      as (m & k & Hm & Hk & Hb & _).
    exists m, k. split; [exact Hm |]. split; [exact Hk | exact Hb].
Defined.

(** ** The callers of [embed_dim_cao] and [embed_dim_fnn] *)

Lemma embeds_iff (s : list R) (lag d : Z) :
  embeds s lag d <-> (0 <= d)%Z /\ (1 <= Z.of_nat (length s) - d * lag)%Z.
Proof.
  split.
  - intros [emb H]. apply embed_ts_ok_rows in H as (H1 & H2 & _).
    replace (d + 1 - 1)%Z with d in H2 by lia. lia.
  - intros [H1 H2]. unfold embeds, Embed.embed_ts. cbv zeta.
    replace (d + 1 - 1)%Z with d by lia.
    replace (d + 1 <? 1)%Z with false by (symmetry; apply Z.ltb_ge; lia).
    replace (Z.of_nat (length s) - d * lag <? 1)%Z with false
      by (symmetry; apply Z.ltb_ge; lia).
    eexists. reflexivity.
Qed.

Lemma dims_first_failure (s : list R) (lag : Z) (dims : list Z) :
  Forall (embeds s lag) dims \/
  exists pre d post,
    dims = pre ++ d :: post /\ Forall (embeds s lag) pre /\
    Embed.embed_ts s lag (d + 1) = Raise ValueError.
Proof.
  induction dims as [| d rest IH]; [left; constructor |].
  destruct (Embed.embed_ts s lag (d + 1)) as [emb | e] eqn:E.
  - assert (Hd : embeds s lag d) by (exists emb; exact E).
    destruct IH as [Hall | (pre & d' & post & -> & Hpre & Hfail)].
    + left. constructor; assumption.
    + right. exists (d :: pre), d', post.
      split; [reflexivity |]. split; [constructor; assumption | exact Hfail].
  - right. exists [], d, rest. split; [reflexivity |].
    split; [constructor |].
    rewrite (embed_ts_raises s lag (d + 1) e E) in E. exact E.
Qed.

Lemma embed_dim_cao_returns (ts : list R) (lag : Z) (dims : Utils.dims_arg)
    (ts_scaled : option (list R)) (s : list R) :
  (0 < lag)%Z ->
  Utils.standardize_ts ts ts_scaled = Ok s ->
  exists e1 e2,
    Utils.embed_dim_cao ts lag dims ts_scaled = Ok (e1, e2) /\
    length e1 = (length (Utils.resolve_dims dims) - 1)%nat /\
    length e2 = (length (Utils.resolve_dims dims) - 1)%nat.
Proof.
  intros Hlag Hs.
  destruct (dims_first_failure s lag (Utils.resolve_dims dims))
    as [Hall | (pre & d & post & Hdims & Hpre & Hfail)].
  - unfold Utils.embed_dim_cao.
    apply Z.leb_gt in Hlag. rewrite Hlag, Hs. cbn [bind].
    destruct (cao_loop_success s lag (Utils.resolve_dims dims) Hall 0
                (repeat (Fin 0) (length (Utils.resolve_dims dims)))
                (repeat (Fin 0) (length (Utils.resolve_dims dims))))
      as (ed & es & Hout & Hel & Hsl & _);
      try (now rewrite repeat_length).
    rewrite Hout. cbn [bind fst snd].
    rewrite repeat_length in Hel, Hsl.
    exists (Utils.ratio_next ed), (Utils.ratio_next es).
    split; [reflexivity |].
    rewrite !ratio_next_length, Hel, Hsl. split; lia.
  - destruct (embed_dim_cao_failure_returns ts lag dims ts_scaled s pre d
                post Hlag Hs Hdims Hpre Hfail)
      as (e1 & e2 & Hout & Hl1 & Hl2 & _).
    exists e1, e2. split; [exact Hout |].
    rewrite Hdims, length_app. simpl length. split; lia.
Qed.

(** X20.  [embed_dim_cao] raises [ValueError] on a lag that is not
    positive.  With a positive lag, once the standardization has returned,
    it always returns, whatever the length of the series and the candidate
    dimensions: two arrays one element shorter than [dims] (both empty
    when [dims] is). *)
Theorem embed_dim_cao_always_returns (ts : list R) (lag : Z)
    (dims : Utils.dims_arg) (ts_scaled : option (list R)) :
  ((lag <= 0)%Z ->
   Utils.embed_dim_cao ts lag dims ts_scaled = Raise ValueError) /\
  ((0 < lag)%Z ->
   forall s, Utils.standardize_ts ts ts_scaled = Ok s ->
   exists e1 e2,
     Utils.embed_dim_cao ts lag dims ts_scaled = Ok (e1, e2) /\
     length e1 = (length (Utils.resolve_dims dims) - 1)%nat /\
     length e2 = (length (Utils.resolve_dims dims) - 1)%nat).
Proof.
  split.
  - intros Hlag. unfold Utils.embed_dim_cao.
    apply Z.leb_le in Hlag. now rewrite Hlag.
  - intros Hlag s Hs. now apply (embed_dim_cao_returns ts lag dims ts_scaled s).
Qed.

Lemma embed_dim_cao_always_returns_witness :
  Utils.embed_dim_cao [0; 1; 3; 2] 0 Utils.default_dims None
  = Raise ValueError /\
  exists e1 e2,
    Utils.embed_dim_cao [0; 1; 3; 2] 1 Utils.default_dims
      (Some [0; 1; 3; 2]) = Ok (e1, e2) /\
    length e1 = 15%nat /\ length e2 = 15%nat.
Proof.
  split.
  - apply (embed_dim_cao_always_returns [0; 1; 3; 2] 0 Utils.default_dims
             None). lia.
  - destruct (embed_dim_cao_always_returns [0; 1; 3; 2] 1 Utils.default_dims
                (Some [0; 1; 3; 2])) as [_ H].
    destruct (H ltac:(lia) [0; 1; 3; 2] eq_refl) as (e1 & e2 & He & H1 & H2).
    exists e1, e2. repeat split; assumption.
Defined.

Lemma arange1_In (n d : Z) : In d (arange1 n) <-> (1 <= d <= n)%Z.
Proof.
  unfold arange1. rewrite in_map_iff. split.
  - intros (k & <- & Hk). apply in_seq in Hk. lia.
  - intros Hd. exists (Z.to_nat (d - 1)). split; [lia |].
    apply in_seq. lia.
Qed.

Lemma arange1_length (n : Z) : length (arange1 n) = Z.to_nat n.
Proof. unfold arange1. now rewrite length_map, length_seq. Qed.

(** X22.  [embed_dim_fnn] with an integer [dims = n >= 1] and a positive
    lag, once the standardization has returned: on a series of fewer than
    [n * lag + 1] observations the call ends with [NameError], and on a
    longer one it returns a profile of [n] entries. *)
Theorem embed_dim_fnn_series_length (ts : list R) (lag n : Z) (rtol atol : R)
    (ts_scaled : option (list R)) (s : list R) :
  Utils.standardize_ts ts ts_scaled = Ok s ->
  (0 < lag)%Z -> (1 <= n)%Z ->
  ((Z.of_nat (length ts) < n * lag + 1)%Z ->
   Utils.embed_dim_fnn ts lag (Utils.DimsScalar n) rtol atol ts_scaled
   = Raise NameError) /\
  ((n * lag + 1 <= Z.of_nat (length ts))%Z ->
   exists fnn_prop,
     Utils.embed_dim_fnn ts lag (Utils.DimsScalar n) rtol atol ts_scaled
     = Ok fnn_prop /\
     length fnn_prop = Z.to_nat n).
Proof.
  intros Hs Hpos Hn.
  pose proof (standardize_ts_length ts ts_scaled s Hs) as Hlen.
  assert (Hcall :
    Utils.embed_dim_fnn ts lag (Utils.DimsScalar n) rtol atol ts_scaled
    = Utils.fnn_loop s lag rtol atol (std ts) 0
        (arange1 n) (repeat (Fin 0) (length (arange1 n)))).
  { unfold Utils.embed_dim_fnn.
    replace (lag <=? 0)%Z with false by (symmetry; apply Z.leb_gt; lia).
    rewrite Hs. reflexivity. }
  rewrite Hcall. split.
  - intros Hshort.
    destruct (dims_first_failure s lag (arange1 n))
      as [Hall | (pre & d & post & Hdims & Hpre & Hfail)].
    + rewrite Forall_forall in Hall.
      assert (He : embeds s lag n) by (apply Hall, arange1_In; lia).
      apply embeds_iff in He. lia.
    + rewrite Hdims. now apply fnn_loop_failure.
  - intros Hlong.
    assert (Hall : Forall (embeds s lag) (arange1 n)).
    { apply Forall_forall. intros d Hd. apply arange1_In in Hd.
      apply embeds_iff. split; [lia | nia]. }
    destruct (fnn_loop_success s lag rtol atol (std ts) (arange1 n) Hall 0
                (repeat (Fin 0) (length (arange1 n))))
      as (out & Hout & Hol & _).
    { now rewrite repeat_length. }
    exists out. split; [exact Hout |].
    now rewrite Hol, repeat_length, arange1_length.
Qed.

Lemma embed_dim_fnn_series_length_witness :
  Utils.embed_dim_fnn [0; 1; 3; 2] 1 Utils.default_dims Utils.default_rtol
    Utils.default_atol (Some [0; 1; 3; 2])
  = Raise NameError.
Proof.
  apply (embed_dim_fnn_series_length [0; 1; 3; 2] 1 16 Utils.default_rtol
           Utils.default_atol (Some [0; 1; 3; 2]) [0; 1; 3; 2] eq_refl
           ltac:(lia) ltac:(lia)).
  simpl. lia.
Defined.

(** ** [ft_frac_cp] *)

Lemma count_true_none (mask : list bool) :
  (forall b, In b mask -> b = false) -> GeneralB.count_true mask = 0%nat.
Proof.
  unfold GeneralB.count_true.
  induction mask as [| b rest IH]; intros H; [reflexivity |].
  cbn [filter]. rewrite (H b) by (now left).
  apply IH. intros b' Hb'. apply H. now right.
Qed.

Lemma In_removelast {A : Type} (x : A) (l : list A) :
  In x (removelast l) -> In x l.
Proof.
  induction l as [| y [| z rest] IH].
  - intros [].
  - intros [].
  - change (removelast (y :: z :: rest)) with (y :: removelast (z :: rest)).
    intros [-> | Hin]; [now left | right; now apply IH].
Qed.

Lemma In_tl {A : Type} (x : A) (l : list A) : In x (tl l) -> In x l.
Proof. destruct l; [intros [] | intros H; now right]. Qed.

(** X24.  On a standardized series of at least two values, [ft_frac_cp]
    counts at most [len - 1] crossings, the normalized value is that count
    over [len - 1], a fraction between 0 and 1, and there is no crossing
    when the given threshold has the whole series on one side. *)
Theorem ft_frac_cp_range (ts : list R) (threshold : option R)
    (ts_scaled : option (list R)) (s : list R) :
  Utils.standardize_ts ts ts_scaled = Ok s ->
  (2 <= length s)%nat ->
  exists c : nat,
    GeneralB.ft_frac_cp ts threshold false ts_scaled = Ok (Fin (INR c)) /\
    GeneralB.ft_frac_cp ts threshold true ts_scaled
    = Ok (Fin (INR c / INR (length s - 1))) /\
    (c <= length s - 1)%nat /\
    0 <= INR c / INR (length s - 1) <= 1 /\
    (forall v, threshold = Some v ->
       Forall (fun x => x <= v) s \/ Forall (fun x => v < x) s ->
       c = 0%nat).
Proof.
  intros Hs Hn. unfold GeneralB.ft_frac_cp. rewrite Hs. cbn [bind].
  set (thr := match threshold with
              | Some v => Fin v
              | None => median s
              end).
  set (higher_med := map (fun x => nle (Fin x) thr) s).
  set (mask := map (fun p : bool * bool => xorb (fst p) (snd p))
                   (combine (tl higher_med) (removelast higher_med))).
  assert (Hh : length higher_med = length s)
    by (unfold higher_med; now rewrite length_map).
  assert (Hmask : length mask = (length s - 1)%nat).
  { unfold mask. rewrite length_map, length_combine, removelast_length.
    destruct higher_med; simpl in *; lia. }
  pose proof (count_true_le mask) as Hc. rewrite Hmask in Hc.
  assert (Hd : IZR (Z.of_nat (length s) - 1) = INR (length s - 1)).
  { rewrite minus_INR by lia. rewrite minus_IZR, <- INR_IZR_INZ.
    simpl. reflexivity. }
  assert (Hpos : 0 < INR (length s - 1)) by (apply lt_0_INR; lia).
  exists (GeneralB.count_true mask).
  split; [reflexivity |]. split.
  - rewrite Hd. cbn [ndiv].
    replace (Reqb (INR (length s - 1)) 0) with false; [reflexivity |].
    symmetry. apply Reqb_false. lra.
  - split; [exact Hc |]. split.
    + pose proof (pos_INR (GeneralB.count_true mask)) as H0.
      apply le_INR in Hc. split.
      * apply Rmult_le_pos; [exact H0 |]. left. now apply Rinv_0_lt_compat.
      * apply (Rmult_le_reg_r (INR (length s - 1))); [exact Hpos |].
        unfold Rdiv. rewrite Rmult_assoc, Rinv_l by lra. lra.
    + intros v Hv Hside.
      assert (Hconst : exists b0, forall b, In b higher_med -> b = b0).
      { unfold higher_med, thr. rewrite Hv.
        destruct Hside as [Hle | Hgt]; [exists true | exists false];
          intros b Hb; apply in_map_iff in Hb as (x & <- & Hx);
          cbn [nle].
        - rewrite Forall_forall in Hle. apply Rleb_true. now apply Hle.
        - rewrite Forall_forall in Hgt. apply Rleb_false. now apply Hgt. }
      destruct Hconst as [b0 Hb0].
      apply count_true_none. intros b Hb.
      unfold mask in Hb. apply in_map_iff in Hb as ([x y] & <- & Hxy).
      cbn [fst snd].
      rewrite (Hb0 x) by (apply In_tl; eapply in_combine_l; exact Hxy).
      rewrite (Hb0 y) by (apply In_removelast; eapply in_combine_r; exact Hxy).
      apply xorb_nilpotent.
Qed.

Lemma ft_frac_cp_range_witness :
  exists c : nat,
    GeneralB.ft_frac_cp [1; 2; 4] (Some 5) false (Some [0; 0; 0])
    = Ok (Fin (INR c)) /\ c = 0%nat.
Proof.
  destruct (ft_frac_cp_range [1; 2; 4] (Some 5) (Some [0; 0; 0]) [1; 2; 4]
              eq_refl ltac:(simpl; lia))
    as (c & Hc & _ & _ & _ & Hside).
  exists c. split; [exact Hc |].
  apply (Hside 5 eq_refl). left.
  repeat constructor; lra.
Defined.

(** ** [find_plateau_pt] and the type ["any"] of [find_crit_pt] *)

Lemma plateau_mask_length (d : list R) :
  length (plateau_mask d) = pred (length d).
Proof.
  unfold plateau_mask.
  rewrite length_map, length_combine, Rdiff_length, removelast_length.
  apply Nat.min_id.
Qed.

Lemma plateau_mask_entry (d : list R) (k : nat) :
  (S k < length d)%nat ->
  nth k (plateau_mask d) false
  = UtilsB.close0 (nth (S k) d 0 - nth k d 0) && UtilsB.close0 (nth k d 0).
Proof.
  intros Hk. unfold plateau_mask.
  rewrite (nth_map_lt _ _ _ (0, 0))
    by (rewrite length_combine, Rdiff_length, removelast_length; lia).
  rewrite combine_nth by (now rewrite Rdiff_length, removelast_length).
  cbn [fst snd]. rewrite Rdiff_nth by exact Hk.
  rewrite removelast_nth by exact Hk. reflexivity.
Qed.

Lemma close0_spec (x : R) :
  UtilsB.close0 x = true <-> Rabs x <= 1 / 100000000.
Proof.
  unfold UtilsB.close0, isclose0, isclose_atol.
  rewrite Rleb_true, Rminus_0_r. reflexivity.
Qed.

(** X25.  On an array of at least three values, [find_crit_pt] with the
    type ["plateau"] returns zeros at both ends and marks an inner position
    with 1 exactly when the step into it and the change of the step out of
    it are both within [1e-8] of zero.  With the type ["any"] an inner
    position is [True] exactly when it is marked for ["plateau"] or for
    ["non-plateau"]. *)
Theorem find_crit_pt_plateau_any (arr : list R) :
  (2 < length arr)%nat ->
  exists a t b,
    UtilsB.find_crit_pt arr "plateau"%string = Ok (UtilsB.IntArr a) /\
    UtilsB.find_crit_pt arr "non-plateau"%string = Ok (UtilsB.IntArr t) /\
    UtilsB.find_crit_pt arr "any"%string = Ok (UtilsB.BoolArr b) /\
    nth 0 a 0%Z = 0%Z /\ nth (length arr - 1) a 0%Z = 0%Z /\
    forall k, (S (S k) < length arr)%nat ->
      (nth (S k) a 0%Z = 1%Z \/ nth (S k) a 0%Z = 0%Z) /\
      (nth (S k) a 0%Z = 1%Z <->
       Rabs (nth (S k) arr 0 - nth k arr 0) <= 1 / 100000000 /\
       Rabs ((nth (S (S k)) arr 0 - nth (S k) arr 0)
             - (nth (S k) arr 0 - nth k arr 0)) <= 1 / 100000000) /\
      (nth (S k) b false = true <->
       nth (S k) a 0%Z = 1%Z \/ nth (S k) t 0%Z = 1%Z).
Proof.
  intros Hn.
  assert (Hd : length (Rdiff arr) = (length arr - 1)%nat)
    by (rewrite Rdiff_length; lia).
  assert (Hp : length (plateau_mask (Rdiff arr)) = (length arr - 2)%nat)
    by (rewrite plateau_mask_length, Hd; lia).
  assert (Ht : length (UtilsB.turning_mask (Rdiff arr))
               = (length arr - 2)%nat)
    by (rewrite turning_mask_length, Hd; lia).
  exists (UtilsB.pad_ints (plateau_mask (Rdiff arr))),
         (UtilsB.pad_ints (UtilsB.turning_mask (Rdiff arr))),
         (map (fun p => negb (fst p =? 0)%Z || negb (snd p =? 0)%Z)
              (combine (UtilsB.pad_ints (UtilsB.turning_mask (Rdiff arr)))
                       (UtilsB.pad_ints (plateau_mask (Rdiff arr))))).
  split.
  { unfold UtilsB.find_crit_pt. apply Nat.leb_gt in Hn. rewrite Hn.
    reflexivity. }
  split; [now apply find_crit_pt_non_plateau |].
  split.
  { unfold UtilsB.find_crit_pt. apply Nat.leb_gt in Hn. rewrite Hn.
    reflexivity. }
  split; [reflexivity |]. split.
  { replace (length arr - 1)%nat with (S (length (plateau_mask (Rdiff arr))))
      by lia.
    apply pad_ints_last. }
  intros k Hk.
  destruct (pad_ints_flag (plateau_mask (Rdiff arr)) k) as [Hpiff Hpor];
    [lia |].
  destruct (pad_ints_flag (UtilsB.turning_mask (Rdiff arr)) k)
    as [Htiff Htor]; [lia |].
  split; [exact Hpor |]. split.
  - rewrite Hpiff, plateau_mask_entry by lia.
    rewrite andb_true_iff, !close0_spec, !Rdiff_nth by lia.
    tauto.
  - rewrite (nth_map_lt _ _ _ (0%Z, 0%Z))
      by (rewrite length_combine, !pad_ints_length, Hp, Ht; lia).
    rewrite combine_nth by (now rewrite !pad_ints_length, Hp, Ht).
    cbn [fst snd].
    destruct Hpor as [-> | ->], Htor as [-> | ->]; cbn; split; auto;
      intros H; try discriminate; destruct H; discriminate.
Qed.

Lemma find_crit_pt_plateau_any_witness :
  exists a,
    UtilsB.find_crit_pt [2; 2; 2] "plateau"%string = Ok (UtilsB.IntArr a) /\
    nth 1 a 0%Z = 1%Z.
Proof.
  destruct (find_crit_pt_plateau_any [2; 2; 2] ltac:(simpl; lia))
    as (a & t & b & Ha & _ & _ & _ & _ & H).
  exists a. split; [exact Ha |].
  destruct (H 0%nat ltac:(simpl; lia)) as (_ & Hiff & _).
  apply Hiff. cbn [nth].
  replace (2 - 2) with 0 by lra. replace (0 - 0) with 0 by lra.
  rewrite Rabs_R0. lra.
Defined.
